(** * Transcuraboo: the batch transcription pipeline and the live turn
      segmentation, embedded from the TypeScript sources.

    Sources embedded here:
    - [src/App.tsx]                      ([processFile], [updateFileState],
                                          [handleFileChange], [clearAll], the
                                          effect that starts the next job)
    - [services/geminiService]           ([transcribeAudio])
    - [components/RealtimeTranscriber]   ([stopRecording], in one step and
                                          invocation by invocation,
                                          [startRecording], the [onmessage]
                                          and [onerror] callbacks,
                                          [createBlob], [getFullTranscript],
                                          [handleReset])
    - [components/FileCard]              ([handleDownload],
                                          [getTranscriptionForDisplay])
    - [utils/download]                   ([formatTimestamp],
                                          [formatSrtTimestamp], [generateTxt],
                                          [generateSrt])
    - [types]                            ([TranscriptionStatus],
                                          [TranscriptionTurn], [TranscribedFile])

    Conventions of the embedding.
    - A JavaScript [number] is an IEEE 754 double.  Where the source only
      ever holds an integer below 2^53 in it (sample counts, chunk indices,
      the progress percentage) the number is an integer ([Z]): sums and
      products of such integers are exact.  Any other number is the
      rational ([Q]) the double stands for, and an arithmetic operation
      gives the double nearest to the exact result ([JS.double]).
    - A JavaScript string is its list of UTF-16 code units.
    - [async] code is a labelled transition system: one transition per
      point at which the source can be resumed by the event loop.
    - React state ([useState]) is a record of the component's state
      variables; a [useRef] cell is a field that is written in place. *)

From Stdlib Require Import ZArith QArith Qround Qminmax Qpower Lia Lqa Bool.
From Stdlib Require Import String Ascii.
From Stdlib Require Import Sorting.Sorted.
From stdpp Require Import base tactics option list.
From Equations Require Import Equations.

Local Open Scope Z_scope.

(* ===================================================================== *)
(** * JavaScript values used by the sources                               *)
(* ===================================================================== *)

Module JS.

(** UTF-16 code units. *)
Definition code_unit := N.
Definition jsstring := list code_unit.

(** A string literal of the source, as code units. *)
Definition lit (s : string) : jsstring :=
  List.map N_of_ascii (list_ascii_of_string s).

(** ECMAScript [WhiteSpace] and [LineTerminator] code points, the ones
    [String.prototype.trim] removes. *)
Definition is_white_space (c : code_unit) : bool :=
  ((9 <=? c) && (c <=? 13) || (c =? 32) || (c =? 160) || (c =? 5760)
   || (8192 <=? c) && (c <=? 8202) || (c =? 8232) || (c =? 8233)
   || (c =? 8239) || (c =? 8287) || (c =? 12288) || (c =? 65279))%N.

Fixpoint trimStart (s : jsstring) : jsstring :=
  match s with
  | c :: s' => if is_white_space c then trimStart s' else s
  | [] => []
  end.

Definition trimEnd (s : jsstring) : jsstring := rev (trimStart (rev s)).

(** [s.trim()] *)
Definition trim (s : jsstring) : jsstring := trimEnd (trimStart s).

(** Truthiness of a string: every string but the empty one. *)
Definition truthy_string (s : jsstring) : bool :=
  match s with [] => false | _ :: _ => true end.

(** [s.startsWith(p)] *)
Fixpoint startsWith (s p : jsstring) : bool :=
  match p, s with
  | [], _ => true
  | _ :: _, [] => false
  | a :: p', b :: s' => (a =? b)%N && startsWith s' p'
  end.

(** ** Numbers *)

(** [floor(log2 x)], for [x > 0]. *)
Definition ilog2 (x : Q) : Z :=
  let k := Z.log2 (Qnum x) - Z.log2 (Zpos (Qden x)) in
  if Qle_bool (2 ^ k) x then k else k - 1.

(** The nearest integer, ties to the even one. *)
Definition round_half_even (x : Q) : Z :=
  let f := Qfloor x in
  match (x - inject_Z f ?= 1 # 2)%Q with
  | Lt => f
  | Gt => f + 1
  | Eq => if Z.even f then f else f + 1
  end.

(** The number with a 53-bit significand nearest to [x > 0]. *)
Definition nearest53 (x : Q) : Q :=
  let e := ilog2 x - 52 in
  (inject_Z (round_half_even (x / 2 ^ e)) * 2 ^ e)%Q.

(** The double nearest to [x] (round to nearest, ties to even).  The
    exponent is not bounded: overflow to an infinity and underflow (the
    subnormal numbers, and results that round to zero) are not modelled.
    The definition is the double arithmetic of JavaScript for results
    that are 0 or of a magnitude from [2^-1022] up to below [2^1024]. *)
Definition double (x : Q) : Q :=
  match (x ?= 0)%Q with
  | Eq => 0%Q
  | Gt => nearest53 x
  | Lt => (- nearest53 (- x))%Q
  end.

(** [a / b], [a * b] and [a - b] on numbers. *)
Definition div64 (a b : Q) : Q := double (a / b).
Definition mul64 (a b : Q) : Q := double (a * b).
Definition sub64 (a b : Q) : Q := double (a - b).

(** [Math.round]: the nearest integer, ties towards +infinity. *)
Definition Math_round (x : Q) : Z := Qfloor (x + (1 # 2)).

(** [Math.ceil] *)
Definition Math_ceil (x : Q) : Z := Qceiling x.

(** [Math.min] on two numbers. *)
Definition Math_min (a b : Q) : Q := if Qle_bool a b then a else b.

(** Truthiness of a number (NaN is not modelled): every number but 0. *)
Definition truthy_number (x : Q) : bool := negb (Qeq_bool x 0).

(** A thrown value: an [Error] object with its [message], or anything
    else. *)
Inductive Thrown :=
| ErrorObject (message : jsstring)
| NotAnError.

(** Arrays with holes: [new Array(n)] has [n] holes; a hole is [None]. *)
Definition new_Array {A} (n : Z) : list (option A) := replicate (Z.to_nat n) None.

(** [arr[i] = v].  Inside the array this overwrites the slot; past the
    end JavaScript grows the array, leaving holes in between. *)
Definition array_set {A} (arr : list (option A)) (i : Z) (v : A) : list (option A) :=
  if decide (Z.to_nat i < length arr)%nat
  then <[Z.to_nat i := Some v]> arr
  else arr ++ replicate (Z.to_nat i - length arr) None ++ [Some v].

(** [arr.filter(Boolean)] on an array of objects: holes are skipped,
    objects are truthy. *)
Definition filter_Boolean {A} (arr : list (option A)) : list A := omap id arr.

(** [arr.sort(compareFn)].  ECMAScript requires the sort to be stable, so
    for a consistent comparator the result is the one of a stable
    insertion sort: an element is placed in front of the first later
    element [y] with [compareFn(x, y) <= 0]. *)
Fixpoint sort_insert {A} (compareFn : A -> A -> Q) (x : A) (l : list A) : list A :=
  match l with
  | [] => [x]
  | y :: l' =>
      if Qle_bool (compareFn x y) 0 then x :: l
      else y :: sort_insert compareFn x l'
  end.

Fixpoint sort {A} (compareFn : A -> A -> Q) (l : list A) : list A :=
  match l with
  | [] => []
  | x :: l' => sort_insert compareFn x (sort compareFn l')
  end.

End JS.

(* ===================================================================== *)
(** * [types]                                                             *)
(* ===================================================================== *)

Module Types.
Import JS.

Inductive TranscriptionStatus :=
| QUEUED | PROCESSING | TRANSCRIBING | DONE | ERROR.

#[global] Instance TranscriptionStatus_eq_dec : EqDecision TranscriptionStatus.
Proof. solve_decision. Defined.

Record TranscriptionTurn := {
  startTime : Q;
  endTime : Q;
  text : jsstring;
}.

(** [TranscribedFile], without the [id] and the [File] handle. *)
Record TranscribedFile := {
  status : TranscriptionStatus;
  progress : Z;
  transcription : list TranscriptionTurn;
  error : option jsstring;
}.

(** [Partial<TranscribedFile>]: the fields an update object carries. *)
Record PartialFile := {
  u_status : option TranscriptionStatus;
  u_progress : option Z;
  u_transcription : option (list TranscriptionTurn);
  u_error : option jsstring;
}.

Definition no_update : PartialFile :=
  {| u_status := None; u_progress := None; u_transcription := None; u_error := None |}.

End Types.

(* ===================================================================== *)
(** * [services/geminiService]                                            *)
(* ===================================================================== *)

Module GeminiService.
Import JS.

(** How an awaited promise completes. *)
Inductive Completion (A : Type) :=
| Fulfilled (v : A)
| Rejected (e : Thrown).
Arguments Fulfilled {A} v.
Arguments Rejected {A} e.

(** What [await ai.models.generateContent(...)] followed by
    [response.text] gives: the text (a string or [undefined]), or a
    thrown value. *)
Inductive GenerateContent :=
| Response (text : option jsstring)
| Fails (e : Thrown).

Definition transcribeAudio (collaborator : jsstring -> GenerateContent)
    (base64Audio : jsstring) : Completion jsstring :=
  match collaborator base64Audio with
  | Response (Some t) => Fulfilled t
  | Response None => Fulfilled []
  | Fails (ErrorObject message) =>
      Fulfilled (lit "Error: API call failed - " ++ message)
  | Fails NotAnError =>
      Fulfilled (lit "Error: An unknown error occurred during transcription.")
  end.

End GeminiService.

(* ===================================================================== *)
(** * [src/App.tsx]                                                       *)
(* ===================================================================== *)

(** The attributes of a decoded [AudioBuffer] that [processFile] reads. *)
Module AudioBuffer.
Record t := {
  sampleRate : Z;
  numberOfChannels : Z;
  length : Z;
}.

(** [duration] is the derived attribute [length / sampleRate] (seconds),
    a double. *)
Definition duration (b : t) : Q :=
  JS.div64 (inject_Z (length b)) (inject_Z (sampleRate b)).

(** What the Web Audio API guarantees of a decoded buffer: a sample rate
    of at most 768 kHz (taken to be a whole number of Hz) and a length
    that is an [unsigned long]. *)
Definition valid (b : t) : Prop :=
  0 < sampleRate b <= 768000 /\ 0 <= length b < 2 ^ 32.
End AudioBuffer.

Module App.
Import JS Types GeminiService.

Definition CHUNK_SIZE_SECONDS : Z := 20.
Definition CONCURRENCY_LIMIT : Z := 10.

(** [updateFileState], on the one job it addresses:
    [{ ...f, ...updates }]. *)
Definition updateFileState (f : TranscribedFile) (updates : PartialFile) : TranscribedFile :=
  {| status := default (status f) (u_status updates);
     progress := default (progress f) (u_progress updates);
     transcription := default (transcription f) (u_transcription updates);
     error := match u_error updates with Some m => Some m | None => error f end |}.

(** A job as [handleFileChange] creates it. *)
Definition queuedFile : TranscribedFile :=
  {| status := QUEUED; progress := 0; transcription := []; error := None |}.

(** [{ turn, index }], what a chunk's callback returns. *)
Record ChunkResult := { turn : TranscriptionTurn; index : Z }.

(** [(a, b) => a.startTime - b.startTime] *)
Definition byStartTime (a b : TranscriptionTurn) : Q := sub64 (startTime a) (startTime b).

(** [fullTranscriptionTurns.filter(Boolean).sort(...)] (lines 96, 104). *)
Definition aggregate (fullTranscriptionTurns : list (option TranscriptionTurn))
    : list TranscriptionTurn :=
  sort byStartTime (filter_Boolean fullTranscriptionTurns).

(** [results.forEach(result => { if (result) { arr[result.index] = result.turn } })]
    (lines 88-92); a result object is always truthy. *)
Definition storeResults (fullTranscriptionTurns : list (option TranscriptionTurn))
    (results : list ChunkResult) : list (option TranscriptionTurn) :=
  foldl (fun arr result => array_set arr (index result) (turn result))
        fullTranscriptionTurns results.

(** The [catch] block (lines 107-110). *)
Definition errorMessage (e : Thrown) : jsstring :=
  match e with
  | ErrorObject message => message
  | NotAnError => lit "An unknown error occurred."
  end.

Definition catch_update (e : Thrown) : PartialFile :=
  {| u_status := Some ERROR; u_progress := Some 0; u_transcription := None;
     u_error := Some (errorMessage e) |}.

Section ProcessFile.
(** The buffer [decodeAudioData] gave. *)
Variable audioBuffer : AudioBuffer.t.

(** Lines 41-45. *)
Definition sampleRate : Z := AudioBuffer.sampleRate audioBuffer.
Definition totalSamples : Z := AudioBuffer.length audioBuffer.
Definition chunkTotalSamples : Z := CHUNK_SIZE_SECONDS * sampleRate.
Definition numChunks : Z :=
  Math_ceil (div64 (inject_Z totalSamples) (inject_Z chunkTotalSamples)).

(** Lines 53-56: [Array.from({ length: Math.min(K, numChunks - i) }, (_, k) => i + k)]. *)
Definition chunkBatchIndices (i : Z) : list Z :=
  (fun k => i + k) <$> seqZ 0 (Z.min CONCURRENCY_LIMIT (numChunks - i)).

(** The waves the [for] loop of line 52 goes through, from loop
    variable [i] on. *)
Equations? waves (i : Z) : list (list Z) by wf (Z.to_nat (numChunks - i)) lt :=
  waves i with decide (i < numChunks) => {
    | left _ := chunkBatchIndices i :: waves (i + CONCURRENCY_LIMIT);
    | right _ := [] }.
Proof. unfold CONCURRENCY_LIMIT. lia. Qed.

(** Lines 59-61. *)
Definition startSample (chunkIndex : Z) : Z := chunkIndex * chunkTotalSamples.
Definition endSample (chunkIndex : Z) : Z :=
  Z.min (startSample chunkIndex + chunkTotalSamples) totalSamples.
Definition chunkLength (chunkIndex : Z) : Z :=
  endSample chunkIndex - startSample chunkIndex.

(** Lines 80-81: the time range of a chunk. *)
Definition chunkStartTime (chunkIndex : Z) : Q :=
  inject_Z (chunkIndex * CHUNK_SIZE_SECONDS).
Definition chunkEndTime (chunkIndex : Z) : Q :=
  Math_min (inject_Z ((chunkIndex + 1) * CHUNK_SIZE_SECONDS))
           (AudioBuffer.duration audioBuffer).

(** Lines 78-82. *)
Definition makeTurn (chunkIndex : Z) (transcriptionPart : jsstring) : TranscriptionTurn :=
  {| text := trim transcriptionPart;
     startTime := chunkStartTime chunkIndex;
     endTime := chunkEndTime chunkIndex |}.

(** The callback of line 58 from its [await] on: [part] is how
    [transcribeAudio(base64Wav)] completed (lines 73-83). *)
Definition chunkCallback (chunkIndex : Z) (part : Completion jsstring)
    : Completion ChunkResult :=
  match part with
  | Fulfilled transcriptionPart =>
      if startsWith transcriptionPart (lit "Error:")
      then Rejected (ErrorObject transcriptionPart)
      else Fulfilled {| turn := makeTurn chunkIndex transcriptionPart;
                        index := chunkIndex |}
  | Rejected e => Rejected e
  end.

(** Line 99. *)
Definition progressAfter (chunksProcessed : Z) : Z :=
  5 + Math_round (mul64 (div64 (inject_Z chunksProcessed) (inject_Z numChunks)) 90).

(** ** [processFile] as a transition system

    The function is suspended at its [await]s; the event loop resumes
    it when a promise settles.  A state holds the job (the entry of
    [files] that [updateFileState] rewrites), the locals of
    [processFile] and the promises of the wave in flight. *)

Inductive Phase :=
| NotStarted      (* the job is Queued *)
| Decoding        (* awaiting [arrayBuffer()] / [decodeAudioData] (38-39) *)
| AtLoopHead      (* at the test [i < numChunks] (52) *)
| AwaitingAll     (* awaiting [Promise.all(promises)] (86) *)
| Returned.       (* [processFile] has returned *)

Inductive PromiseState :=
| Pending
| Resolved (r : ChunkResult)
| Failed (e : Thrown).

Record State := {
  job : TranscribedFile;
  phase : Phase;
  i : Z;
  fullTranscriptionTurns : list (option TranscriptionTurn);
  chunksProcessed : Z;
  promises : list (Z * PromiseState);
}.

Inductive Event :=
| EvBegin                                  (* [processFile(fileId)] is called *)
| EvDecoded                                (* [decodeAudioData] fulfils *)
| EvDecodeFailed (e : Thrown)              (* ... or rejects *)
| EvIssue (i : Z)                          (* the wave at [i] is mapped: its requests go out *)
| EvSettle (chunkIndex : Z) (part : Completion jsstring)
                                           (* [transcribeAudio] of a chunk completes *)
| EvWaveDone                               (* [Promise.all] fulfils *)
| EvDone.                                  (* the loop exits *)

Definition initial : State :=
  {| job := queuedFile; phase := NotStarted; i := 0;
     fullTranscriptionTurns := []; chunksProcessed := 0; promises := [] |}.

Definition with_job (s : State) (updates : PartialFile) (p : Phase) : State :=
  {| job := updateFileState (job s) updates; phase := p; i := i s;
     fullTranscriptionTurns := fullTranscriptionTurns s;
     chunksProcessed := chunksProcessed s; promises := promises s |}.

Definition with_promises (s : State) (ps : list (Z * PromiseState)) (p : Phase) : State :=
  {| job := job s; phase := p; i := i s;
     fullTranscriptionTurns := fullTranscriptionTurns s;
     chunksProcessed := chunksProcessed s; promises := ps |}.

Definition pending (st : PromiseState) : bool :=
  match st with Pending => true | _ => false end.

Definition is_pending (ps : list (Z * PromiseState)) (chunkIndex : Z) : bool :=
  existsb (fun p => (p.1 =? chunkIndex) && pending p.2) ps.

Definition settle (ps : list (Z * PromiseState)) (chunkIndex : Z) (st : PromiseState)
    : list (Z * PromiseState) :=
  (fun p => if p.1 =? chunkIndex then (chunkIndex, st) else p) <$> ps.

(** The array [Promise.all] fulfils with: every promise's value, in the
    order of the promises; [None] while one is not fulfilled. *)
Definition all_results (ps : list (Z * PromiseState)) : option (list ChunkResult) :=
  mapM (fun p => match p.2 with Resolved r => Some r | _ => None end) ps.

Definition step (s : State) (ev : Event) : option State :=
  match phase s, ev with
  | NotStarted, EvBegin =>
      (* line 35 *)
      Some (with_job s {| u_status := Some PROCESSING; u_progress := Some 5;
                          u_transcription := None; u_error := None |} Decoding)
  | Decoding, EvDecoded =>
      (* lines 47-50 *)
      Some {| job := updateFileState (job s)
                       {| u_status := Some TRANSCRIBING; u_progress := None;
                          u_transcription := None; u_error := None |};
              phase := AtLoopHead; i := 0;
              fullTranscriptionTurns := new_Array numChunks;
              chunksProcessed := 0; promises := [] |}
  | Decoding, EvDecodeFailed e =>
      Some (with_job s (catch_update e) Returned)
  | AtLoopHead, EvIssue i0 =>
      (* lines 52-84: every callback runs up to its [await] *)
      if decide (i0 = i s /\ i s < numChunks)
      then Some (with_promises s ((fun j => (j, Pending)) <$> chunkBatchIndices (i s))
                               AwaitingAll)
      else None
  | AtLoopHead, EvDone =>
      (* lines 104-105 *)
      if decide (i s < numChunks) then None
      else Some (with_job s {| u_status := Some DONE; u_progress := Some 100;
                               u_transcription := Some (aggregate (fullTranscriptionTurns s));
                               u_error := None |} Returned)
  | AwaitingAll, EvSettle chunkIndex part =>
      if is_pending (promises s) chunkIndex then
        match chunkCallback chunkIndex part with
        | Fulfilled r =>
            Some (with_promises s (settle (promises s) chunkIndex (Resolved r)) AwaitingAll)
        | Rejected e =>
            (* [Promise.all] rejects with the first rejection; the
               [catch] block runs and [processFile] returns *)
            Some (with_job (with_promises s (settle (promises s) chunkIndex (Failed e))
                                          Returned)
                           (catch_update e) Returned)
        end
      else None
  | Returned, EvSettle chunkIndex part =>
      (* a request still in flight when the job failed completes:
         nobody awaits it any more *)
      if is_pending (promises s) chunkIndex then
        Some (with_promises s
                (settle (promises s) chunkIndex
                   match chunkCallback chunkIndex part with
                   | Fulfilled r => Resolved r
                   | Rejected e => Failed e
                   end) Returned)
      else None
  | AwaitingAll, EvWaveDone =>
      (* lines 86-101, and [i += CONCURRENCY_LIMIT] *)
      match all_results (promises s) with
      | Some results =>
          let arr := storeResults (fullTranscriptionTurns s) results in
          let processed := chunksProcessed s + Z.of_nat (length results) in
          Some {| job := updateFileState (job s)
                           {| u_status := None;
                              u_progress := Some (progressAfter processed);
                              u_transcription := Some (aggregate arr);
                              u_error := None |};
                  phase := AtLoopHead; i := i s + CONCURRENCY_LIMIT;
                  fullTranscriptionTurns := arr;
                  chunksProcessed := processed; promises := promises s |}
      | None => None
      end
  | _, _ => None
  end.

(** Running a sequence of events from a state. *)
Fixpoint run (s : State) (evs : list Event) : option State :=
  match evs with
  | [] => Some s
  | ev :: evs' => match step s ev with Some s' => run s' evs' | None => None end
  end.

(** The requests in flight after a sequence of events: issued and not
    yet settled. *)
Fixpoint outstanding (acc : list Z) (evs : list Event) : list Z :=
  match evs with
  | [] => acc
  | EvIssue i0 :: evs' => outstanding (acc ++ chunkBatchIndices i0) evs'
  | EvSettle j _ :: evs' => outstanding (filter (fun k => k <> j) acc) evs'
  | _ :: evs' => outstanding acc evs'
  end.

End ProcessFile.
End App.

(* ===================================================================== *)
(** * [components/RealtimeTranscriber]                                    *)
(* ===================================================================== *)

Module CurrentTurn.
(** [interface CurrentTurn { startTime: number; text: string }] *)
Record t := {
  startTime : Q;
  text : JS.jsstring;
}.
End CurrentTurn.

Module RealtimeTranscriber.
Import JS Types.

(** The [state] attribute of an [AudioContext]. *)
Inductive AudioContextState := running | suspended | closed.

Definition is_closed (st : AudioContextState) : bool :=
  match st with closed => true | _ => false end.

(** How [sessionPromiseRef.current] settles when awaited; a resolved
    session's [close()] may itself throw. *)
Inductive SessionPromise :=
| SessionResolves (closeThrows : bool)
| SessionRejects.

(** The React state of the component. *)
Record Component := {
  isRecording : bool;
  transcript : list TranscriptionTurn;
  currentTurn : option CurrentTurn.t;
  error : option jsstring;
}.

(** The [useRef] cells; [None] is [null].  A handle with nothing to tell
    apart is [()]. *)
Record Refs := {
  sessionPromiseRef : option SessionPromise;
  streamRef : option unit;
  audioContextRef : option AudioContextState;
  outputAudioContextRef : option AudioContextState;
  outputGainNodeRef : option unit;
  scriptProcessorRef : option unit;
  recordingStartTimeRef : option Q;
}.

(** What the component does to the outside. *)
Inductive Effect :=
| StopTracks             (* [track.stop()] on every track of the stream *)
| DisconnectProcessor    (* [scriptProcessor.disconnect()] *)
| CloseInputContext      (* [audioContext.close()] *)
| CloseOutputContext     (* [outputAudioContext.close()] *)
| CloseSession           (* [session.close()] *)
| PlayMuted              (* server audio played through the zero-gain node *)
| LogError.              (* [console.error] *)

(** [clockReads] counts the calls of [performance.now()] made so far. *)
Record World := {
  component : Component;
  refs : Refs;
  clockReads : nat;
  effects : list Effect;
}.

(** When React runs an updater function given to a state setter.
    The setter queues the updater and React runs it when the component
    next renders; only when the component has no update pending does
    React run it at once, inside the call of the setter. *)
Inductive UpdaterSchedule :=
| Eager
| AtRender.

(** [serverContent?.inputTranscription?.text], [serverContent?.turnComplete]
    and [serverContent?.modelTurn?.parts[0]?.inlineData?.data]. *)
Record LiveServerMessage := {
  inputTranscriptionText : option jsstring;
  turnComplete : bool;
  modelAudio : option jsstring;
}.

Inductive StartOutcome :=
| Connected (session : SessionPromise)   (* the stream is granted, [connect] returns *)
| StartFailed (e : Thrown).              (* the [try] block throws *)

Section Clock.
(** [performance.now()]: its [k]-th call returns [performance_now k]
    (milliseconds). *)
Variable performance_now : nat -> Q.

(** [(performance.now() - (recordingStartTimeRef.current ?? performance.now())) / 1000]
    (lines 154, 165), with the number of clock reads after it. *)
Definition elapsedTime (reads : nat) (recordingStartTime : option Q) : Q * nat :=
  match recordingStartTime with
  | Some t0 => (div64 (sub64 (performance_now reads) t0) 1000, S reads)
  | None =>
      (div64 (sub64 (performance_now reads) (performance_now (S reads))) 1000,
       S (S reads))
  end.

(** The updater of lines 150-159: the next [currentTurn]. *)
Definition textUpdater (text : jsstring) (reads : nat) (recordingStartTime : option Q)
    (prevTurn : option CurrentTurn.t) : option CurrentTurn.t * nat :=
  match prevTurn with
  | Some prev =>
      (Some {| CurrentTurn.startTime := CurrentTurn.startTime prev;
               CurrentTurn.text := CurrentTurn.text prev ++ text |}, reads)
  | None =>
      let '(elapsed, reads') := elapsedTime reads recordingStartTime in
      (Some {| CurrentTurn.startTime := elapsed; CurrentTurn.text := text |}, reads')
  end.

(** [{ ...prevTurn, endTime }] *)
Definition finalized (prevTurn : CurrentTurn.t) (endTime : Q) : TranscriptionTurn :=
  {| startTime := CurrentTurn.startTime prevTurn;
     endTime := endTime;
     text := CurrentTurn.text prevTurn |}.

(** The updater of lines 163-172: the next [currentTurn] and what
    [setTranscript(prev => [...prev, turn])] appends. *)
Definition turnCompleteUpdater (reads : nat) (recordingStartTime : option Q)
    (prevTurn : option CurrentTurn.t)
    : option CurrentTurn.t * list TranscriptionTurn * nat :=
  match prevTurn with
  | Some prev =>
      if truthy_string (trim (CurrentTurn.text prev)) then
        let '(elapsed, reads') := elapsedTime reads recordingStartTime in
        (None, [finalized prev elapsed], reads')
      else (None, [], reads)
  | None => (None, [], reads)
  end.

(** The updater of lines 89-98. *)
Definition stopUpdater (reads : nat) (recordingStartTime : option Q)
    (prevTurn : option CurrentTurn.t)
    : option CurrentTurn.t * list TranscriptionTurn * nat :=
  match prevTurn, recordingStartTime with
  | Some prev, Some t0 =>
      if truthy_string (trim (CurrentTurn.text prev)) && truthy_number t0 then
        (None, [finalized prev (div64 (sub64 (performance_now reads) t0) 1000)], S reads)
      else (None, [], reads)
  | _, _ => (None, [], reads)
  end.

(** [stopRecording] (lines 55-100), taken as one step: an invocation
    whose awaited promises are fulfilled and that goes on at each [await]
    before anything else happens to the component.  [StopCalls] below
    splits the invocation at its [await]s, for the calls that come while
    an earlier invocation is suspended. *)
Definition stopRecording (schedule : UpdaterSchedule) (w : World) : World :=
  let c := component w in
  let r := refs w in
  (* 58-61 *)
  let fx_stream := match streamRef r with Some _ => [StopTracks] | None => [] end in
  (* 63-66 *)
  let fx_processor :=
    match scriptProcessorRef r with Some _ => [DisconnectProcessor] | None => [] end in
  (* 68-71 *)
  let '(audioContext, fx_input) :=
    match audioContextRef r with
    | Some st => if is_closed st then (Some st, []) else (None, [CloseInputContext])
    | None => (None, [])
    end in
  (* 73-77 *)
  let '(outputAudioContext, outputGainNode, fx_output) :=
    match outputAudioContextRef r with
    | Some st =>
        if is_closed st then (Some st, outputGainNodeRef r, [])
        else (None, None, [CloseOutputContext])
    | None => (None, outputGainNodeRef r, [])
    end in
  (* 79-87 *)
  let fx_session :=
    match sessionPromiseRef r with
    | Some (SessionResolves closeThrows) =>
        CloseSession :: (if closeThrows then [LogError] else [])
    | Some SessionRejects => [LogError]
    | None => []
    end in
  (* 89-99: the updater reads [recordingStartTimeRef.current] when it
     runs; line 99 clears the cell right after the setter is called *)
  let seen :=
    match schedule with
    | Eager => recordingStartTimeRef r
    | AtRender => None
    end in
  let '(turn, appended, reads) := stopUpdater (clockReads w) seen (currentTurn c) in
  {| component := {| isRecording := false;
                     transcript := transcript c ++ appended;
                     currentTurn := turn;
                     error := error c |};
     refs := {| sessionPromiseRef := None;
                streamRef := None;
                audioContextRef := audioContext;
                outputAudioContextRef := outputAudioContext;
                outputGainNodeRef := outputGainNode;
                scriptProcessorRef := None;
                recordingStartTimeRef := None |};
     clockReads := reads;
     effects := effects w ++ fx_stream ++ fx_processor ++ fx_input ++ fx_output
                  ++ fx_session |}.

(** [startRecording] (lines 102-222) up to the return of [connect]. *)
Definition startRecording (outcome : StartOutcome) (w : World) : World :=
  let r := refs w in
  let started := Some (performance_now (clockReads w)) in
  match outcome with
  | Connected session =>
      {| component := {| isRecording := true; transcript := [];
                         currentTurn := None; error := None |};
         refs := {| sessionPromiseRef := Some session;
                    streamRef := Some ();
                    audioContextRef := audioContextRef r;
                    outputAudioContextRef := outputAudioContextRef r;
                    outputGainNodeRef := outputGainNodeRef r;
                    scriptProcessorRef := scriptProcessorRef r;
                    recordingStartTimeRef := started |};
         clockReads := S (clockReads w);
         effects := effects w |}
  | StartFailed e =>
      {| component := {| isRecording := false; transcript := [];
                         currentTurn := None;
                         error := Some (lit "Failed to start recording: " ++
                                        match e with
                                        | ErrorObject message => message
                                        | NotAnError => lit "An unknown error occurred."
                                        end) |};
         refs := {| sessionPromiseRef := sessionPromiseRef r;
                    streamRef := streamRef r;
                    audioContextRef := audioContextRef r;
                    outputAudioContextRef := outputAudioContextRef r;
                    outputGainNodeRef := outputGainNodeRef r;
                    scriptProcessorRef := scriptProcessorRef r;
                    recordingStartTimeRef := started |};
         clockReads := S (clockReads w);
         effects := effects w ++ [LogError] |}
  end.

(** The [onopen] callback (lines 121-144). *)
Definition onopen (w : World) : World :=
  let r := refs w in
  {| component := component w;
     refs := {| sessionPromiseRef := sessionPromiseRef r;
                streamRef := streamRef r;
                audioContextRef := Some running;
                outputAudioContextRef := Some running;
                outputGainNodeRef := Some ();
                scriptProcessorRef := Some ();
                recordingStartTimeRef := recordingStartTimeRef r |};
     clockReads := clockReads w;
     effects := effects w |}.

Definition with_turns (w : World) (turn : option CurrentTurn.t)
    (appended : list TranscriptionTurn) (reads : nat) : World :=
  let c := component w in
  {| component := {| isRecording := isRecording c;
                     transcript := transcript c ++ appended;
                     currentTurn := turn;
                     error := error c |};
     refs := refs w; clockReads := reads; effects := effects w |}.

(** Lines 147-161 of [onmessage]. *)
Definition onInputTranscription (m : LiveServerMessage) (w : World) : World :=
  match inputTranscriptionText m with
  | Some text =>
      if truthy_string text then
        let '(turn, reads) :=
          textUpdater text (clockReads w) (recordingStartTimeRef (refs w))
                      (currentTurn (component w)) in
        with_turns w turn [] reads
      else w
  | None => w
  end.

(** Lines 162-173 of [onmessage]: the turn-complete event. *)
Definition onTurnComplete (w : World) : World :=
  let '(turn, appended, reads) :=
    turnCompleteUpdater (clockReads w) (recordingStartTimeRef (refs w))
                        (currentTurn (component w)) in
  with_turns w turn appended reads.

(** Lines 175-191 of [onmessage]: server audio is played muted. *)
Definition onModelAudio (m : LiveServerMessage) (w : World) : World :=
  match modelAudio m, outputAudioContextRef (refs w), outputGainNodeRef (refs w) with
  | Some data, Some _, Some _ =>
      if truthy_string data then
        {| component := component w; refs := refs w; clockReads := clockReads w;
           effects := effects w ++ [PlayMuted] |}
      else w
  | _, _, _ => w
  end.

(** The [onmessage] callback (lines 145-192). *)
Definition onmessage (m : LiveServerMessage) (w : World) : World :=
  let w1 := onInputTranscription m w in
  let w2 := if turnComplete m then onTurnComplete w1 else w1 in
  onModelAudio m w2.

(** The [onerror] callback (lines 193-198). *)
Definition onerror (message : jsstring) (schedule : UpdaterSchedule) (w : World) : World :=
  let errorMessage :=
    if truthy_string message then message
    else lit "A network error occurred with the transcription service." in
  let c := component w in
  stopRecording schedule
    {| component := {| isRecording := isRecording c; transcript := transcript c;
                       currentTurn := currentTurn c;
                       error := Some (lit "Error: " ++ errorMessage) |};
       refs := refs w; clockReads := clockReads w;
       effects := effects w ++ [LogError] |}.

(** What can happen to the mounted component. *)
Inductive Event :=
| Start (outcome : StartOutcome)
| Open
| Message (m : LiveServerMessage)
| ChannelError (message : jsstring) (schedule : UpdaterSchedule)
| Stop (schedule : UpdaterSchedule).

Definition handle (w : World) (ev : Event) : World :=
  match ev with
  | Start outcome => startRecording outcome w
  | Open => onopen w
  | Message m => onmessage m w
  | ChannelError message schedule => onerror message schedule w
  | Stop schedule => stopRecording schedule w
  end.

Definition run (w : World) (evs : list Event) : World := foldl handle w evs.

(** The component as it mounts. *)
Definition mounted : World :=
  {| component := {| isRecording := false; transcript := [];
                     currentTurn := None; error := None |};
     refs := {| sessionPromiseRef := None; streamRef := None;
                audioContextRef := None; outputAudioContextRef := None;
                outputGainNodeRef := None; scriptProcessorRef := None;
                recordingStartTimeRef := None |};
     clockReads := 0%nat;
     effects := [] |}.

End Clock.
End RealtimeTranscriber.
(* ===================================================================== *)
(** * More of JavaScript: strings of numbers, [split], [join], typed arrays *)
(* ===================================================================== *)

Module JSLib.
Import JS.

(** [Math.floor] *)
Definition Math_floor (x : Q) : Z := Qfloor x.

(** The integer part of a number, towards zero. *)
Definition trunc (x : Q) : Z := if Qle_bool 0 x then Qfloor x else Qceiling x.

(** [x % y]: the remainder [x - y * trunc(x / y)], with the sign of [x].
    It is exact on doubles. *)
Definition rem (x y : Q) : Q := (x - y * inject_Z (trunc (x / y)))%Q.

(** [a + b] on numbers. *)
Definition add64 (a b : Q) : Q := double (a + b).

(** The decimal digits of a natural number, as code units. *)
Fixpoint digits (d : Decimal.uint) : jsstring :=
  match d with
  | Decimal.Nil => []
  | Decimal.D0 d' => 48%N :: digits d'
  | Decimal.D1 d' => 49%N :: digits d'
  | Decimal.D2 d' => 50%N :: digits d'
  | Decimal.D3 d' => 51%N :: digits d'
  | Decimal.D4 d' => 52%N :: digits d'
  | Decimal.D5 d' => 53%N :: digits d'
  | Decimal.D6 d' => 54%N :: digits d'
  | Decimal.D7 d' => 55%N :: digits d'
  | Decimal.D8 d' => 56%N :: digits d'
  | Decimal.D9 d' => 57%N :: digits d'
  end.

(** [String(n)] and [n.toString()] for a number that is an integer (of a
    magnitude below 10^21, from where JavaScript writes an exponent). *)
Definition Number_toString (n : Z) : jsstring :=
  match Z.to_int n with
  | Decimal.Pos d => digits d
  | Decimal.Neg d => 45%N :: digits d
  end.

(** [s.padStart(maxLength, fillString)]: [fillString] is repeated, and
    cut, to fill up to [maxLength]; a longer [s] is never cut. *)
Definition padStart (s : jsstring) (maxLength : nat) (fillString : jsstring) : jsstring :=
  if (maxLength <=? length s)%nat then s
  else
    match fillString with
    | [] => s
    | _ :: _ =>
        let fillLen := (maxLength - length s)%nat in
        take fillLen (concat (replicate fillLen fillString)) ++ s
    end.

(** [s.split(sep)] for a separator of one code unit. *)
Fixpoint split (sep : code_unit) (s : jsstring) : list jsstring :=
  match s with
  | [] => [[]]
  | c :: s' =>
      if (c =? sep)%N then [] :: split sep s'
      else
        match split sep s' with
        | w :: ws => (c :: w) :: ws
        | [] => [[c]]
        end
  end.

(** [arr.slice(start, end)]: a negative index counts from the end. *)
Definition slice {A} (arr : list A) (start end_ : Z) : list A :=
  let len := Z.of_nat (length arr) in
  let k := if start <? 0 then Z.max (len + start) 0 else Z.min start len in
  let final := if end_ <? 0 then Z.max (len + end_) 0 else Z.min end_ len in
  take (Z.to_nat (final - k)) (drop (Z.to_nat k) arr).

(** [arr.join(sep)] on an array of strings. *)
Fixpoint join (sep : jsstring) (arr : list jsstring) : jsstring :=
  match arr with
  | [] => []
  | x :: arr' =>
      match arr' with
      | [] => x
      | _ :: _ => x ++ sep ++ join sep arr'
      end
  end.

(** The line feed of the [\n] escape. *)
Definition LF : jsstring := [10%N].

(** Storing a number in an [Int16Array]: the integer part, modulo 2^16,
    as a signed 16-bit integer. *)
Definition ToInt16 (x : Q) : Z := (trunc x + 2 ^ 15) mod 2 ^ 16 - 2 ^ 15.

End JSLib.

(* ===================================================================== *)
(** * Reading decimal fields back (for the statements)                    *)
(* ===================================================================== *)

Module Reading.
Import JS.

Definition is_digit (c : code_unit) : bool := ((48 <=? c) && (c <=? 57))%N.

Definition digit_value (c : code_unit) : option Z :=
  if is_digit c then Some (Z.of_N c - 48) else None.

(** The number two decimal digits stand for. *)
Definition two_digits (a b : code_unit) : option Z :=
  match digit_value a, digit_value b with
  | Some x, Some y => Some (10 * x + y)
  | _, _ => None
  end.

(** The seconds an [HH:MM:SS] string stands for. *)
Definition read_timestamp (s : jsstring) : option Z :=
  match s with
  | [h1; h0; c1; m1; m0; c2; s1; s0] =>
      if ((c1 =? 58) && (c2 =? 58))%N then
        match two_digits h1 h0, two_digits m1 m0, two_digits s1 s0 with
        | Some h, Some m, Some sec =>
            if (m <? 60) && (sec <? 60) then Some (3600 * h + 60 * m + sec) else None
        | _, _, _ => None
        end
      else None
  | _ => None
  end.

End Reading.

(* ===================================================================== *)
(** * [utils/download]                                                    *)
(* ===================================================================== *)

Module Download.
Import JS JSLib Types.

(** Lines 4-9. *)
Definition formatTimestamp (totalSeconds : Q) : jsstring :=
  let hours := Math_floor (div64 totalSeconds 3600) in
  let minutes := Math_floor (div64 (rem totalSeconds 3600) 60) in
  let seconds := Math_floor (rem totalSeconds 60) in
  padStart (Number_toString hours) 2 (lit "0") ++ lit ":"
  ++ padStart (Number_toString minutes) 2 (lit "0") ++ lit ":"
  ++ padStart (Number_toString seconds) 2 (lit "0").

(** Line 15. *)
Definition milliseconds (totalSeconds : Q) : Z :=
  Math_round (mul64 (sub64 totalSeconds (inject_Z (Math_floor totalSeconds))) 1000).

(** Lines 11-17. *)
Definition formatSrtTimestamp (totalSeconds : Q) : jsstring :=
  let hours := Math_floor (div64 totalSeconds 3600) in
  let minutes := Math_floor (div64 (rem totalSeconds 3600) 60) in
  let seconds := Math_floor (rem totalSeconds 60) in
  padStart (Number_toString hours) 2 (lit "0") ++ lit ":"
  ++ padStart (Number_toString minutes) 2 (lit "0") ++ lit ":"
  ++ padStart (Number_toString seconds) 2 (lit "0") ++ lit ","
  ++ padStart (Number_toString (milliseconds totalSeconds)) 3 (lit "0").

(** The callback of line 22: one line of the text export. *)
Definition txtLine (turn : TranscriptionTurn) : jsstring :=
  lit "[" ++ formatTimestamp (startTime turn) ++ lit "] " ++ text turn.

(** Lines 20-24. *)
Definition generateTxt (transcript : list TranscriptionTurn) : jsstring :=
  join LF (txtLine <$> transcript).

(** The callback of lines 28-32: one cue of the SRT export. *)
Definition srtCue (index : nat) (turn : TranscriptionTurn) : jsstring :=
  Number_toString (Z.of_nat index + 1) ++ LF
  ++ formatSrtTimestamp (startTime turn) ++ lit " --> "
  ++ formatSrtTimestamp (endTime turn) ++ LF
  ++ text turn ++ LF.

(** Lines 26-34. *)
Definition generateSrt (transcript : list TranscriptionTurn) : jsstring :=
  join LF (imap srtCue transcript).

End Download.

(* ===================================================================== *)
(** * [components/FileCard]                                               *)
(* ===================================================================== *)

Module FileCard.
Import JS JSLib Types.

(** Line 48: [file.name.split('.').slice(0, -1).join('.')] and the
    suffix. *)
Definition fileName (name : jsstring) : jsstring :=
  join (lit ".") (slice (split 46%N name) 0 (-1)) ++ lit "-transcription".

(** Lines 61-69. *)
Definition getTranscriptionForDisplay (item : TranscribedFile) : list TranscriptionTurn :=
  if bool_decide (status item = TRANSCRIBING) && (0 <? length (transcription item))%nat
  then transcription item
  else if bool_decide (status item = DONE) && (0 <? length (transcription item))%nat
  then transcription item
  else [].

(** Line 114: the copy and download buttons are rendered. *)
Definition showsActions (item : TranscribedFile) : bool :=
  bool_decide (status item = DONE) && (0 <? length (transcription item))%nat.

End FileCard.

(* ===================================================================== *)
(** * [src/App.tsx]: the list of files                                    *)
(* ===================================================================== *)

Module Files.
Import JS Types.

(** A [TranscribedFile] of the list [files]: its [id] and its other
    fields. *)
Record Entry := {
  id : jsstring;
  item : TranscribedFile;
}.

#[global] Instance jsstring_eq_dec : EqDecision jsstring.
Proof. solve_decision. Defined.

(** The updater [updateFileState] gives to [setFiles] (lines 19-23):
    [prevFiles.map(f => (f.id === id ? { ...f, ...updates } : f))]. *)
Definition updateFileState (fileId : jsstring) (updates : PartialFile)
    (prevFiles : list Entry) : list Entry :=
  (fun f => if decide (id f = fileId)
            then {| id := id f; item := App.updateFileState (item f) updates |}
            else f) <$> prevFiles.

(** The updater of [handleFileChange] (lines 123-135): the selected
    files, with the ids made for them, are appended as queued jobs. *)
Definition handleFileChange (newIds : list jsstring) (prev : list Entry) : list Entry :=
  prev ++ ((fun i => {| id := i; item := App.queuedFile |}) <$> newIds).

(** [clearAll] (lines 141-146). *)
Definition clearAll (prev : list Entry) : list Entry := [].

(** [files.find(f => f.status === TranscriptionStatus.QUEUED)] (line 117). *)
Definition findQueued (files : list Entry) : option Entry :=
  List.find (fun f => bool_decide (status (item f) = QUEUED)) files.

(** The effect of lines 116-121: the id [processFile] is called with, if
    any. *)
Definition nextToProcess (files : list Entry) (isProcessing : bool) : option jsstring :=
  match findQueued files with
  | Some queuedFile => if negb isProcessing then Some (id queuedFile) else None
  | None => None
  end.

End Files.

(* ===================================================================== *)
(** * [components/RealtimeTranscriber]: the rest                          *)
(* ===================================================================== *)

Module Realtime.
Import JS JSLib Types RealtimeTranscriber.

(** Lines 21-31: the loop of [createBlob], one sample:
    [int16[i] = data[i] * 32768].  The product of a float and [2^15] is
    exact. *)
Definition int16Sample (sample : Q) : Z := ToInt16 (sample * 32768).

Definition int16Samples (data : list Q) : list Z := int16Sample <$> data.

Section Clock.
Variable performance_now : nat -> Q.

(** [getFullTranscript] (lines 253-260), with the number of clock reads
    after it. *)
Definition getFullTranscript (w : World) : list TranscriptionTurn * nat :=
  let fullTranscript := transcript (component w) in
  match currentTurn (component w) with
  | Some ct =>
      if truthy_string (trim (CurrentTurn.text ct)) then
        match recordingStartTimeRef (refs w) with
        | Some t0 =>
            if truthy_number t0 then
              (fullTranscript
                 ++ [finalized ct (div64 (sub64 (performance_now (clockReads w)) t0) 1000)],
               S (clockReads w))
            else
              (fullTranscript ++ [finalized ct (add64 (CurrentTurn.startTime ct) 1)],
               clockReads w)
        | None =>
            (fullTranscript ++ [finalized ct (add64 (CurrentTurn.startTime ct) 1)],
             clockReads w)
        end
      else (fullTranscript, clockReads w)
  | None => (fullTranscript, clockReads w)
  end.

End Clock.

(** Line 284. *)
Definition hasTranscript (c : Component) : bool :=
  (0 <? length (transcript c))%nat
  || match currentTurn c with
     | Some ct => (0 <? length (trim (CurrentTurn.text ct)))%nat
     | None => false
     end.

(** [handleReset] (lines 246-251). *)
Definition handleReset (c : Component) : Component :=
  {| isRecording := isRecording c; transcript := []; currentTurn := None; error := None |}.

End Realtime.

(* ===================================================================== *)
(** * Runs of [processFile] in which every request succeeds               *)
(* ===================================================================== *)

Module Scenario.
Import JS Types GeminiService App.

Section Success.
Variable audioBuffer : AudioBuffer.t.
(** The text the request of chunk [j] comes back with. *)
Variable parts : Z -> jsstring.

(** One turn of the loop of line 52: the requests of the wave at [i] go
    out, each comes back, and [Promise.all] fulfils. *)
Definition wave_events (i : Z) : list Event :=
  EvIssue i
  :: ((fun j => EvSettle j (Fulfilled (parts j))) <$> chunkBatchIndices audioBuffer i)
  ++ [EvWaveDone].

(** The loop from [i] on, and its exit. *)
Equations? loop_events (i : Z) : list Event
    by wf (Z.to_nat (numChunks audioBuffer - i)) lt :=
  loop_events i with decide (i < numChunks audioBuffer) => {
    | left _ := wave_events i ++ loop_events (i + CONCURRENCY_LIMIT);
    | right _ := [EvDone] }.
Proof. unfold CONCURRENCY_LIMIT. lia. Qed.

Definition successful_run : list Event := EvBegin :: EvDecoded :: loop_events 0.

End Success.
End Scenario.

(* ===================================================================== *)
(** * Predicates of a live session                                        *)
(* ===================================================================== *)

Module Session.
Import JS Types RealtimeTranscriber.

(** A message that only carries transcribed text. *)
Definition text_message (text : jsstring) : LiveServerMessage :=
  {| inputTranscriptionText := Some text; turnComplete := false; modelAudio := None |}.

(** A message that only ends the turn. *)
Definition turn_complete_message : LiveServerMessage :=
  {| inputTranscriptionText := None; turnComplete := true; modelAudio := None |}.

(** The events of a session that is open: the channel opens, a message
    arrives. *)
Definition session_event (ev : Event) : Prop :=
  match ev with
  | Open | Message _ => True
  | _ => False
  end.

(** Turns that start at 0 or later, end no earlier than they start, and
    each start no earlier than the one before ends. *)
Definition chronological (l : list TranscriptionTurn) : Prop :=
  Forall (fun t => (0 <= startTime t)%Q /\ (startTime t <= endTime t)%Q) l
  /\ forall (k : nat) a b,
       l !! k = Some a -> l !! S k = Some b -> (endTime a <= startTime b)%Q.

Section Clock.
Variable performance_now : nat -> Q.

(** The seconds from the clock read [k0] to the clock read [k], as the
    component computes them. *)
Definition elapsed (k0 k : nat) : Q :=
  div64 (sub64 (performance_now k) (performance_now k0)) 1000.

(** The turns of [l] start and end at clock reads between [k0] and [hi],
    one turn after the other. *)
Inductive Timed (k0 : nat) : list TranscriptionTurn -> nat -> Prop :=
| Timed_nil hi : (k0 <= hi)%nat -> Timed k0 [] hi
| Timed_snoc l p ks ke hi t :
    Timed k0 l p -> (p <= ks)%nat -> (ks <= ke)%nat -> (ke <= hi)%nat ->
    startTime t = elapsed k0 ks -> endTime t = elapsed k0 ke ->
    Timed k0 (l ++ [t]) hi.

(** What holds of the component while a session runs. *)
Definition session_invariant (w : World) : Prop :=
  exists k0,
    recordingStartTimeRef (refs w) = Some (performance_now k0)
    /\ (k0 <= clockReads w)%nat
    /\ match currentTurn (component w) with
       | None => Timed k0 (transcript (component w)) (clockReads w)
       | Some ct =>
           exists ks,
             Timed k0 (transcript (component w)) ks
             /\ (ks <= clockReads w)%nat
             /\ CurrentTurn.startTime ct = elapsed k0 ks
       end.

End Clock.
End Session.

(* ===================================================================== *)
(** * [stopRecording], invocation by invocation                           *)
(* ===================================================================== *)

(** [stopRecording] is an [async] function with three [await]s.  While an
    invocation is suspended at one of them the component can call the
    function again: the effect of lines 230-236 does so when
    [isRecording] goes from true to false, and so can the button and the
    [onerror] callback.  Here an invocation runs from one [await] to the
    next, and the invocations that are suspended are kept in a pool. *)
Module StopCalls.
Import JS Types RealtimeTranscriber.




    (* the [state] of a context on which [close()] was called becomes
       ['closed'] *)






Section Clock.
Variable performance_now : nat -> Q.










End Clock.





End StopCalls.

(* ===================================================================== *)
(** * The requests of a run (for the statements)                          *)
(* ===================================================================== *)

Module Requests.
Import App.

(** The values of the loop variable at which the waves of the events
    went out, in that order. *)
Fixpoint issued (evs : list Event) : list Z :=
  match evs with
  | [] => []
  | EvIssue i :: evs' => i :: issued evs'
  | _ :: evs' => issued evs'
  end.

(** The chunks a request was made for, in the order of the requests. *)
Definition requested (audioBuffer : AudioBuffer.t) (evs : list Event) : list Z :=
  concat (chunkBatchIndices audioBuffer <$> issued evs).

End Requests.

(* ===================================================================== *)
(** * The order of the statuses (for the statements)                      *)
(* ===================================================================== *)

Module Lifecycle.
Import Types.

(** How far a job has come: Done and Error are both the end. *)
Definition status_rank (st : TranscriptionStatus) : Z :=
  match st with
  | QUEUED => 0
  | PROCESSING => 1
  | TRANSCRIBING => 2
  | DONE => 3
  | ERROR => 3
  end.

End Lifecycle.

(* ===================================================================== *)
(** * Inputs for the examples                                             *)
(* ===================================================================== *)

Module Examples.
Import JS Types GeminiService App RealtimeTranscriber Session.

(** A decoded buffer of no samples. *)
Definition source0 : AudioBuffer.t :=
  {| AudioBuffer.sampleRate := 44100;
     AudioBuffer.numberOfChannels := 1;
     AudioBuffer.length := 0 |}.

(** Every request comes back with the same text. *)
Definition same_text (j : Z) : jsstring := lit " kumusta ".

(** Two turns of a transcript. *)
Definition two_turns : list TranscriptionTurn :=
  [ {| startTime := 0; endTime := 20; text := lit "magandang umaga" |};
    {| startTime := 20; endTime := 27; text := lit "good morning" |} ].

(** A session hears a text in two messages, and the turn ends. *)
Definition session_two_texts : list Event :=
  [ Open; Message (text_message (lit "hel")); Message (text_message (lit "lo"));
    Message turn_complete_message ].

(** A session starts and its channel opens. *)
Definition session_open : list Event :=
  [ Start (Connected (SessionResolves false)); Open ].

(** ... and it hears one turn to its end. *)
Definition session_one_turn : list Event :=
  session_open ++ [ Message (text_message (lit "hello")); Message turn_complete_message ].

(** A second turn is heard to its end, and recording is stopped. *)
Definition second_turn_and_stop : list Event :=
  [ Message (text_message (lit "salamat")); Message turn_complete_message; Stop AtRender ].


End Examples.

(* ===================================================================== *)
(** * Predicates of the specification                                     *)
(* ===================================================================== *)

Section Predicates.
Import JS Types GeminiService App.

(** Ascending start times. *)
Definition byStart (a b : TranscriptionTurn) : Prop := (startTime a <= startTime b)%Q.

(** A filled slot [j] holds a turn that starts where chunk [j] was planned
    to start. *)
Definition planned (arr : list (option TranscriptionTurn)) : Prop :=
  forall (j : nat) t, arr !! j = Some (Some t) -> startTime t = chunkStartTime (Z.of_nat j).

(** [arr'] is [arr] with more results: every result of [arr] is in the
    same slot of [arr']. *)
Definition extends (arr arr' : list (option TranscriptionTurn)) : Prop :=
  length arr' = length arr
  /\ forall (j : nat) t, arr !! j = Some (Some t) -> arr' !! j = Some (Some t).

Variable audioBuffer : AudioBuffer.t.

(** In the events [evs], the request of chunk [k] came back with a text
    that is not an error string, and [t] is the turn made of it. *)
Definition transcribed (evs : list Event) (k : Z) (t : TranscriptionTurn) : Prop :=
  exists part,
    EvSettle k (Fulfilled part) ∈ evs
    /\ startsWith part (lit "Error:") = false
    /\ t = makeTurn audioBuffer k part.

(** [turns] are the turns of the chunks [0 .. length turns - 1], in
    that order. *)
Definition turns_of_chunks (evs : list Event) (turns : list TranscriptionTurn) : Prop :=
  forall (k : nat) t, turns !! k = Some t -> transcribed evs (Z.of_nat k) t.

(** The array holds [turns] in its first slots and holes in the rest. *)
Definition filled_with (arr : list (option TranscriptionTurn))
    (turns : list TranscriptionTurn) : Prop :=
  arr = (Some <$> turns) ++ replicate (Z.to_nat (numChunks audioBuffer) - length turns) None.

Definition promise_ok (evs : list Event) (p : Z * PromiseState) : Prop :=
  match p.2 with
  | Pending => True
  | Resolved r => index r = p.1 /\ transcribed evs p.1 (turn r)
  | Failed _ => True
  end.

(** The indices of the promises that are still pending. *)
Definition pending_indices (ps : list (Z * PromiseState)) : list Z :=
  (filter (fun p => pending p.2 = true) ps).*1.

(** The progress a job shows while it is Transcribing, after [m] chunks. *)
Definition shown_progress (m : Z) : Z :=
  if decide (m = 0) then 5 else progressAfter audioBuffer m.

(** What holds of the locals and of the job while the loop runs. *)
Record loop_invariant (evs : list Event) (s : State) (turns : list TranscriptionTurn)
    : Prop := {
  inv_status : status (job s) = TRANSCRIBING;
  inv_error : error (job s) = None;
  inv_i : 0 <= i s /\ exists w, i s = w * CONCURRENCY_LIMIT;
  inv_turns : turns_of_chunks evs turns;
  inv_length : Z.of_nat (length turns) = Z.min (i s) (numChunks audioBuffer);
  inv_array : filled_with (fullTranscriptionTurns s) turns;
  inv_processed : chunksProcessed s = Z.min (i s) (numChunks audioBuffer);
  inv_progress : progress (job s) = shown_progress (Z.min (i s) (numChunks audioBuffer));
  inv_transcription : transcription (job s) = turns;
}.

(** The invariant of [processFile], phase by phase, after the events
    [evs]. *)
Definition phase_invariant (evs : list Event) (s : State) : Prop :=
  match phase s with
  | NotStarted => s = initial
  | Decoding =>
      job s = {| status := PROCESSING; progress := 5; transcription := []; error := None |}
      /\ i s = 0 /\ promises s = []
  | AtLoopHead =>
      (exists turns, loop_invariant evs s turns)
      /\ Forall (fun p => pending p.2 = false) (promises s)
  | AwaitingAll =>
      (exists turns, loop_invariant evs s turns)
      /\ i s < numChunks audioBuffer
      /\ (promises s).*1 = chunkBatchIndices audioBuffer (i s)
      /\ Forall (promise_ok evs) (promises s)
      /\ Forall (fun p => match p.2 with Failed _ => False | _ => True end) (promises s)
  | Returned =>
      (status (job s) = DONE /\ progress (job s) = 100 /\ error (job s) = None
       /\ Z.of_nat (length (transcription (job s))) = numChunks audioBuffer
       /\ turns_of_chunks evs (transcription (job s))
       /\ pending_indices (promises s) = [])
      \/
      (status (job s) = ERROR /\ progress (job s) = 0 /\ is_Some (error (job s))
       /\ Z.of_nat (length (transcription (job s))) = Z.min (i s) (numChunks audioBuffer)
       /\ turns_of_chunks evs (transcription (job s)))
  end.

Definition invariant (evs : list Event) (s : State) : Prop :=
  phase_invariant evs s
  /\ outstanding audioBuffer [] evs = pending_indices (promises s)
  /\ NoDup (promises s).*1
  /\ (length (promises s) <= Z.to_nat CONCURRENCY_LIMIT)%nat.

(** ** Two sources and their runs *)

(** 47 seconds at 44.1 kHz, stereo: three chunks, one wave. *)
Definition source47 : AudioBuffer.t :=
  {| AudioBuffer.sampleRate := 44100;
     AudioBuffer.numberOfChannels := 2;
     AudioBuffer.length := 47 * 44100 |}.

(** 470 seconds at 16 kHz, mono: 24 chunks, three waves. *)
Definition source470 : AudioBuffer.t :=
  {| AudioBuffer.sampleRate := 16000;
     AudioBuffer.numberOfChannels := 1;
     AudioBuffer.length := 470 * 16000 |}.

(** 4000 seconds at 8 kHz, mono: 200 chunks, twenty waves. *)
Definition source4000 : AudioBuffer.t :=
  {| AudioBuffer.sampleRate := 8000;
     AudioBuffer.numberOfChannels := 1;
     AudioBuffer.length := 4000 * 8000 |}.

Definition text_part : Completion jsstring := Fulfilled (lit " kumusta ").
Definition error_part : Completion jsstring := Fulfilled (lit "Error: API call failed - quota").

(** The first wave of [source470] goes out and comes back, last chunk
    first. *)
Definition first_wave470 : list Event :=
  [EvBegin; EvDecoded; EvIssue 0]
  ++ ((fun j => EvSettle j text_part) <$> reverse (seqZ 0 10)).

(** ... it is stored, and the second wave goes out; chunks 10 and 11 come
    back. *)
Definition second_wave470 : list Event :=
  first_wave470 ++ [EvWaveDone; EvIssue 10; EvSettle 11 text_part; EvSettle 10 text_part].

(** The second wave goes out, comes back last chunk first, and is
    stored. *)
Definition second_wave_done470 : list Event :=
  EvIssue 10 :: ((fun j => EvSettle j text_part) <$> reverse (seqZ 10 10)) ++ [EvWaveDone].

(** The result of chunk [j] of [source470]. *)
Definition result470 (j : Z) : ChunkResult :=
  {| turn := makeTurn source470 j (lit " kumusta "); index := j |}.

(** The requests of the wave at [i] go out and all come back with a
    text. *)
Definition wave_settled (i : Z) : list Event :=
  EvIssue i :: ((fun j => EvSettle j text_part) <$> seqZ i CONCURRENCY_LIMIT).

(** [source4000]: six waves completed, the seventh settled. *)
Definition seventh_wave4000 : list Event :=
  [EvBegin; EvDecoded]
  ++ concat ((fun w => wave_settled (w * CONCURRENCY_LIMIT) ++ [EvWaveDone]) <$> seqZ 0 6)
  ++ wave_settled 60.

End Predicates.

(** The progress the specification gives for [chunksProcessed] of
    [totalChunks] chunks: [5 + round(90 * chunksProcessed / totalChunks)],
    on exact numbers. *)
Definition progress_by_spec (chunksProcessed totalChunks : Z) : Z :=
  5 + JS.Math_round (inject_Z (90 * chunksProcessed) / inject_Z totalChunks).


Section LivePredicates.
Import JS Types RealtimeTranscriber.

(** While a session runs, the turn in progress started at an earlier
    reading of the clock of that session. *)
Definition turn_started_in_session (performance_now : nat -> Q) (w : World) : Prop :=
  forall ct t0,
    currentTurn (component w) = Some ct ->
    recordingStartTimeRef (refs w) = Some t0 ->
    exists k : nat,
      (k < clockReads w)%nat
      /\ CurrentTurn.startTime ct = JS.div64 (JS.sub64 (performance_now k) t0) 1000.

(** The session is stopped: every handle is released and no turn is in
    progress. *)
Definition stopped (w : World) : Prop :=
  sessionPromiseRef (refs w) = None
  /\ streamRef (refs w) = None
  /\ audioContextRef (refs w) = None
  /\ outputAudioContextRef (refs w) = None
  /\ scriptProcessorRef (refs w) = None
  /\ currentTurn (component w) = None.

(** A clock that starts at 1000 ms and advances 250 ms from one reading
    to the next. *)
Definition session_clock (k : nat) : Q := inject_Z (1000 + 250 * Z.of_nat k).

(** A session that opens and hears ["hello"]. *)
Definition session_hello : list Event :=
  [ Start (Connected (SessionResolves false));
    Open;
    Message {| inputTranscriptionText := Some (lit "hello");
               turnComplete := false;
               modelAudio := None |} ].

(** A clock whose readings lie further and further apart: 1000 ms, then
    250 ms, 750 ms, 1250 ms, ... later. *)
Definition uneven_clock (k : nat) : Q := inject_Z (1000 + 250 * Z.of_nat (k * k)).

(** A session that opens and is stopped; a text that was under way
    arrives afterwards. *)
Definition session_late_text : list Event :=
  [ Start (Connected (SessionResolves false));
    Open;
    Stop AtRender;
    Message {| inputTranscriptionText := Some (lit "late");
               turnComplete := false;
               modelAudio := None |} ].

End LivePredicates.

(* ===================================================================== *)
(** * Arithmetic of the JavaScript prelude                                *)
(* ===================================================================== *)

Section Numbers.
Import JS.
Local Open Scope Q_scope.

(** ** Powers of two and the binary logarithm *)

Lemma pow2_pos (e : Z) : 0 < 2 ^ e.
Proof. by apply Qpower_0_lt. Qed.

Lemma pow2_le (e e' : Z) : (e <= e')%Z -> 2 ^ e <= 2 ^ e'.
Proof. intros. by apply Qpower_le_compat_l. Qed.

Lemma pow2_lt_inv (e e' : Z) : 2 ^ e < 2 ^ e' -> (e < e')%Z.
Proof. intros. by eapply Qpower_lt_compat_l_inv. Qed.

Lemma pow2_plus (e e' : Z) : 2 ^ (e + e') == 2 ^ e * 2 ^ e'.
Proof. by apply Qpower_plus. Qed.

Lemma pow2_Z (e : Z) : (0 <= e)%Z -> inject_Z (2 ^ e) == 2 ^ e.
Proof. intros. by rewrite Zpower_Qpower. Qed.

Lemma pow2_succ (e : Z) : 2 ^ (e + 1) == 2 * 2 ^ e.
Proof. rewrite pow2_plus. change (2 ^ 1) with 2. ring. Qed.

Lemma ilog2_spec (x : Q) : 0 < x -> 2 ^ ilog2 x <= x < 2 ^ (ilog2 x + 1).
Proof.
  intros Hx. unfold ilog2.
  destruct x as [p q]. simpl Qnum. simpl Qden.
  assert (0 < p)%Z as Hp by (unfold Qlt in Hx; simpl in Hx; lia).
  set (a := Z.log2 p). set (b := Z.log2 (Z.pos q)).
  assert (0 <= a)%Z as Ha by apply Z.log2_nonneg.
  assert (0 <= b)%Z as Hb by apply Z.log2_nonneg.
  destruct (Z.log2_spec p Hp) as [Hp1 Hp2]. fold a in Hp1, Hp2.
  destruct (Z.log2_spec (Z.pos q) ltac:(done)) as [Hq1 Hq2]. fold b in Hq1, Hq2.
  rewrite Zle_Qle, pow2_Z in Hp1, Hq1 by lia.
  rewrite Zlt_Qlt, pow2_Z in Hp2, Hq2 by lia.
  replace (Z.succ a) with (a + 1)%Z in Hp2 by lia.
  replace (Z.succ b) with (b + 1)%Z in Hq2 by lia.
  rewrite pow2_succ in Hp2, Hq2.
  assert (2 ^ a == 2 ^ (a - b) * 2 ^ b) as Hab.
  { rewrite <- pow2_plus. by replace (a - b + b)%Z with a by lia. }
  pose proof (pow2_pos (a - b)) as Hk. pose proof (pow2_pos b) as Hb'.
  assert (p # q == inject_Z p / inject_Z (Z.pos q)) as Hx' by apply Qmake_Qdiv.
  assert (0 < inject_Z (Z.pos q)) as Hq0 by done.
  assert (2 ^ (a - b - 1 + 1) == 2 * 2 ^ (a - b - 1)) as Hk1 by apply pow2_succ.
  replace (a - b - 1 + 1)%Z with (a - b)%Z in Hk1 by lia.
  destruct (Qle_bool (2 ^ (a - b)) (p # q)) eqn:E.
  - apply Qle_bool_iff in E. split; [done|].
    rewrite pow2_succ, Hx'. apply Qlt_shift_div_r; [done|]. nra.
  - assert (~ 2 ^ (a - b) <= p # q) as E' by (rewrite <- Qle_bool_iff; congruence).
    apply Qnot_le_lt in E'.
    replace (a - b - 1 + 1)%Z with (a - b)%Z by lia. split; [|done].
    rewrite Hx'. apply Qle_shift_div_l; [done|]. nra.
Qed.

Lemma ilog2_unique (x : Q) (l : Z) : 2 ^ l <= x < 2 ^ (l + 1) -> ilog2 x = l.
Proof.
  intros [H1 H2].
  assert (0 < x) as Hx by (pose proof (pow2_pos l); lra).
  destruct (ilog2_spec x Hx) as [H3 H4].
  assert (ilog2 x < l + 1)%Z by (apply pow2_lt_inv; lra).
  assert (l < ilog2 x + 1)%Z by (apply pow2_lt_inv; lra).
  lia.
Qed.

Lemma ilog2_comp (x y : Q) : x == y -> 0 < x -> ilog2 x = ilog2 y.
Proof.
  intros Hxy Hx. symmetry. apply ilog2_unique.
  destruct (ilog2_spec x Hx). split; lra.
Qed.

(** ** Rounding to the nearest integer, ties to even *)

Lemma round_half_even_comp (x y : Q) : x == y -> round_half_even x = round_half_even y.
Proof.
  intros H. unfold round_half_even.
  assert (Qfloor x = Qfloor y) as -> by by apply Qfloor_comp.
  assert ((x - inject_Z (Qfloor y) ?= 1 # 2) = (y - inject_Z (Qfloor y) ?= 1 # 2)) as ->;
    [|done].
  apply Qcompare_comp; [lra|reflexivity].
Qed.

Lemma round_half_even_spec (x : Q) :
  x - (1 # 2) <= inject_Z (round_half_even x) <= x + (1 # 2).
Proof.
  unfold round_half_even.
  pose proof (Qfloor_le x) as Hl. pose proof (Qlt_floor x) as Hu.
  rewrite inject_Z_plus in Hu. change (inject_Z 1) with 1 in Hu.
  destruct (Qcompare_spec (x - inject_Z (Qfloor x)) (1 # 2)) as [E|E|E].
  - destruct (Z.even (Qfloor x)); rewrite ?inject_Z_plus; change (inject_Z 1) with 1; lra.
  - lra.
  - rewrite inject_Z_plus. change (inject_Z 1) with 1. lra.
Qed.

Lemma round_half_even_Z (z : Z) : round_half_even (inject_Z z) = z.
Proof.
  unfold round_half_even. rewrite Qfloor_Z.
  destruct (Qcompare_spec (inject_Z z - inject_Z z) (1 # 2)) as [E|E|E]; [lra|done|lra].
Qed.

Lemma round_half_even_mono (x y : Q) :
  x <= y -> (round_half_even x <= round_half_even y)%Z.
Proof.
  intros Hxy. pose proof (Qfloor_resp_le x y Hxy) as Hf.
  destruct (decide (Qfloor x = Qfloor y)) as [Heq|Hne].
  - unfold round_half_even. rewrite Heq.
    destruct (Qcompare_spec (x - inject_Z (Qfloor y)) (1 # 2)) as [E|E|E];
      destruct (Qcompare_spec (y - inject_Z (Qfloor y)) (1 # 2)) as [F|F|F];
      try destruct (Z.even (Qfloor y)); try lia; lra.
  - pose proof (round_half_even_spec x) as [_ Hx].
    pose proof (round_half_even_spec y) as [Hy _].
    assert (round_half_even x <= Qfloor x + 1)%Z.
    { unfold round_half_even. repeat case_match; lia. }
    assert (Qfloor y <= round_half_even y)%Z.
    { unfold round_half_even. repeat case_match; lia. }
    lia.
Qed.

(** ** Rounding to 53 significant bits *)

Lemma scaled_bounds (x : Q) :
  0 < x -> 2 ^ 52 <= x / 2 ^ (ilog2 x - 52) < 2 ^ 53.
Proof.
  intros Hx. destruct (ilog2_spec x Hx) as [H1 H2].
  pose proof (pow2_pos (ilog2 x - 52)) as Hu.
  assert (2 ^ ilog2 x == 2 ^ 52 * 2 ^ (ilog2 x - 52)) as E1.
  { rewrite <- pow2_plus. by replace (52 + (ilog2 x - 52))%Z with (ilog2 x) by lia. }
  assert (2 ^ (ilog2 x + 1) == 2 ^ 53 * 2 ^ (ilog2 x - 52)) as E2.
  { rewrite <- pow2_plus. by replace (53 + (ilog2 x - 52))%Z with (ilog2 x + 1)%Z by lia. }
  split.
  - apply Qle_shift_div_l; [done|]. lra.
  - apply Qlt_shift_div_r; [done|]. lra.
Qed.

Lemma nearest53_comp (x y : Q) : x == y -> 0 < x -> nearest53 x == nearest53 y.
Proof.
  intros Hxy Hx. unfold nearest53. rewrite <- (ilog2_comp x y Hxy Hx).
  rewrite (round_half_even_comp (x / 2 ^ (ilog2 x - 52)) (y / 2 ^ (ilog2 x - 52)));
    [reflexivity|].
  pose proof (pow2_pos (ilog2 x - 52)). apply Qmult_comp; [done|reflexivity].
Qed.

Lemma nearest53_bounds (x : Q) :
  0 < x -> 2 ^ ilog2 x <= nearest53 x <= 2 ^ (ilog2 x + 1).
Proof.
  intros Hx. unfold nearest53. destruct (scaled_bounds x Hx) as [H1 H2].
  set (e := (ilog2 x - 52)%Z) in *. set (m := x / 2 ^ e) in *.
  pose proof (pow2_pos e) as Hu.
  assert (2 ^ ilog2 x == 2 ^ 52 * 2 ^ e) as E1.
  { rewrite <- pow2_plus. unfold e. by replace (52 + (ilog2 x - 52))%Z with (ilog2 x) by lia. }
  assert (2 ^ (ilog2 x + 1) == 2 ^ 53 * 2 ^ e) as E2.
  { rewrite <- pow2_plus. unfold e.
    by replace (53 + (ilog2 x - 52))%Z with (ilog2 x + 1)%Z by lia. }
  assert (2 ^ 52 <= inject_Z (round_half_even m)) as L.
  { rewrite <- pow2_Z by done. rewrite <- Zle_Qle.
    rewrite <- (round_half_even_Z (2 ^ 52)%Z). apply round_half_even_mono.
    rewrite pow2_Z by done. done. }
  assert (inject_Z (round_half_even m) <= 2 ^ 53) as U.
  { rewrite <- pow2_Z by done. rewrite <- Zle_Qle.
    rewrite <- (round_half_even_Z (2 ^ 53)%Z). apply round_half_even_mono.
    rewrite pow2_Z by done. lra. }
  split; nra.
Qed.

Lemma nearest53_pos (x : Q) : 0 < x -> 0 < nearest53 x.
Proof.
  intros Hx. destruct (nearest53_bounds x Hx) as [H _].
  pose proof (pow2_pos (ilog2 x)). lra.
Qed.

(** The relative error of the rounding is at most [2^-53]. *)
Lemma nearest53_error (x : Q) :
  0 < x ->
  x - x * (1 # 9007199254740992) <= nearest53 x <= x + x * (1 # 9007199254740992).
Proof.
  intros Hx. unfold nearest53. destruct (scaled_bounds x Hx) as [H1 H2].
  set (e := (ilog2 x - 52)%Z) in *.
  pose proof (pow2_pos e) as Hu.
  pose proof (round_half_even_spec (x / 2 ^ e)) as [Hl Hh].
  assert (x == x / 2 ^ e * 2 ^ e) as Hx' by (field; lra).
  set (m := x / 2 ^ e) in *. set (r := inject_Z (round_half_even m)) in *.
  assert (2 ^ 52 == 4503599627370496) as E52 by reflexivity.
  rewrite E52 in H1.
  split; nra.
Qed.

Lemma nearest53_mono (x y : Q) : 0 < x -> x <= y -> nearest53 x <= nearest53 y.
Proof.
  intros Hx Hxy. assert (0 < y) as Hy by lra.
  destruct (ilog2_spec x Hx) as [Hx1 Hx2]. destruct (ilog2_spec y Hy) as [Hy1 Hy2].
  assert (ilog2 x < ilog2 y + 1)%Z as Hl by (apply pow2_lt_inv; lra).
  destruct (decide (ilog2 x = ilog2 y)) as [Heq|Hne].
  - unfold nearest53. rewrite Heq. pose proof (pow2_pos (ilog2 y - 52)) as Hu.
    apply Qmult_le_compat_r; [|lra]. rewrite <- Zle_Qle. apply round_half_even_mono.
    apply Qmult_le_compat_r; [done|]. apply Qlt_le_weak, Qinv_lt_0_compat, Hu.
  - destruct (nearest53_bounds x Hx) as [_ Ux]. destruct (nearest53_bounds y Hy) as [Ly _].
    pose proof (pow2_le (ilog2 x + 1) (ilog2 y) ltac:(lia)). lra.
Qed.

(** Integers below [2^53] are doubles. *)
Lemma nearest53_Z (z : Z) :
  (0 < z < 2 ^ 53)%Z -> nearest53 (inject_Z z) == inject_Z z.
Proof.
  intros [Hz0 Hz1].
  assert (0 < inject_Z z) as Hx by (change 0 with (inject_Z 0); by rewrite <- Zlt_Qlt).
  destruct (ilog2_spec _ Hx) as [H1 H2].
  assert (ilog2 (inject_Z z) < 53)%Z as Hl.
  { apply pow2_lt_inv. eapply Qle_lt_trans; [exact H1|].
    rewrite <- pow2_Z by done. by rewrite <- Zlt_Qlt. }
  unfold nearest53. set (e := (ilog2 (inject_Z z) - 52)%Z).
  assert (e <= 0)%Z as He by (unfold e; lia).
  pose proof (pow2_pos e) as Hu.
  assert (/ 2 ^ e == inject_Z (2 ^ (- e))) as Hinv.
  { rewrite pow2_Z by lia. by rewrite Qpower_opp. }
  rewrite (round_half_even_comp _ (inject_Z (z * 2 ^ (- e)))).
  2: { rewrite inject_Z_mult. unfold Qdiv. by rewrite Hinv. }
  rewrite round_half_even_Z, inject_Z_mult, <- Hinv. field. lra.
Qed.

(** ** Doubles *)

Lemma double_comp (x y : Q) : x == y -> double x == double y.
Proof.
  intros Hxy. unfold double.
  assert ((x ?= 0) = (y ?= 0)) as <- by (apply Qcompare_comp; [done|reflexivity]).
  destruct (Qcompare_spec x 0) as [E|E|E]; [reflexivity| |].
  - apply Qopp_comp, nearest53_comp; lra.
  - by apply nearest53_comp.
Qed.

Lemma double_pos (x : Q) : 0 < x -> double x == nearest53 x.
Proof.
  intros Hx. unfold double. destruct (Qcompare_spec x 0) as [E|E|E]; [lra|lra|reflexivity].
Qed.

Lemma double_0 (x : Q) : x == 0 -> double x == 0.
Proof.
  intros Hx. unfold double. destruct (Qcompare_spec x 0) as [E|E|E]; [reflexivity|lra|lra].
Qed.

(** Rounding keeps the sign. *)
Lemma double_sign (x : Q) :
  (0 < x -> 0 < double x) /\ (x == 0 -> double x == 0) /\ (x < 0 -> double x < 0).
Proof.
  split_and!.
  - intros Hx. rewrite double_pos by done. by apply nearest53_pos.
  - apply double_0.
  - intros Hx. unfold double. destruct (Qcompare_spec x 0) as [E|E|E]; [lra| |lra].
    pose proof (nearest53_pos (- x) ltac:(lra)). lra.
Qed.

Lemma double_le_0 (x : Q) : double x <= 0 <-> x <= 0.
Proof.
  destruct (double_sign x) as (Hp & Hz & Hn).
  destruct (Qlt_le_dec 0 x) as [H|H].
  - specialize (Hp H). split; lra.
  - split; [done|]. intros _. destruct (Qle_lt_or_eq _ _ H) as [H'|H'].
    + specialize (Hn H'). lra.
    + rewrite (Hz H'). lra.
Qed.

Lemma double_nonneg (x : Q) : 0 <= x -> 0 <= double x.
Proof.
  intros Hx. destruct (double_sign x) as (Hp & Hz & _).
  destruct (Qle_lt_or_eq _ _ Hx) as [H|H].
  - specialize (Hp H). lra.
  - rewrite Hz by lra. lra.
Qed.

(** Rounding is monotone. *)
Lemma double_mono (x y : Q) : x <= y -> double x <= double y.
Proof.
  intros Hxy.
  destruct (Qlt_le_dec x 0) as [Hx|Hx]; destruct (Qlt_le_dec y 0) as [Hy|Hy].
  - unfold double.
    destruct (Qcompare_spec x 0) as [?|?|?]; [lra| |lra].
    destruct (Qcompare_spec y 0) as [?|?|?]; [lra| |lra].
    pose proof (nearest53_mono (- y) (- x) ltac:(lra) ltac:(lra)). lra.
  - destruct (double_sign x) as (_ & _ & Hn). specialize (Hn Hx).
    pose proof (double_nonneg y Hy). lra.
  - lra.
  - destruct (Qle_lt_or_eq _ _ Hx) as [H|H].
    + rewrite !double_pos by lra. by apply nearest53_mono.
    + rewrite (double_0 x) by lra. by apply double_nonneg.
Qed.

Lemma double_Z (z : Z) : (0 <= z < 2 ^ 53)%Z -> double (inject_Z z) == inject_Z z.
Proof.
  intros [Hz0 Hz1]. destruct (decide (z = 0%Z)) as [->|Hne]; [reflexivity|].
  rewrite double_pos.
  - apply nearest53_Z. lia.
  - change 0 with (inject_Z 0). rewrite <- Zlt_Qlt. lia.
Qed.

Lemma double_error (x : Q) :
  0 <= x ->
  x - x * (1 # 9007199254740992) <= double x <= x + x * (1 # 9007199254740992).
Proof.
  intros Hx. destruct (Qle_lt_or_eq _ _ Hx) as [H|H].
  - rewrite double_pos by done. by apply nearest53_error.
  - rewrite (double_0 x) by lra. lra.
Qed.


(** ** [Math.ceil], [Math.min], [Math.round] *)

Lemma inject_Z_sub (x y : Z) : inject_Z (x - y) == inject_Z x - inject_Z y.
Proof. unfold Z.sub. rewrite inject_Z_plus, inject_Z_opp. ring. Qed.

Lemma Qceiling_unique (x : Q) (k : Z) :
  inject_Z k - 1 < x <= inject_Z k -> Qceiling x = k.
Proof.
  intros [H1 H2]. pose proof (Qle_ceiling x) as Hc. pose proof (Qceiling_lt x) as Hl.
  rewrite inject_Z_sub in Hl. change (inject_Z 1) with 1 in Hl.
  assert (inject_Z (Qceiling x) < inject_Z (k + 1)) as A
    by (rewrite inject_Z_plus; change (inject_Z 1) with 1; lra).
  assert (inject_Z k < inject_Z (Qceiling x + 1)) as B
    by (rewrite inject_Z_plus; change (inject_Z 1) with 1; lra).
  rewrite <- Zlt_Qlt in A, B. lia.
Qed.

Lemma Math_ceil_div (a b : Z) :
  (0 < b)%Z -> Math_ceil (inject_Z a / inject_Z b) = (- ((- a) / b))%Z.
Proof.
  intros Hb. unfold Math_ceil, Qceiling. f_equal.
  rewrite Zdiv_Qdiv. apply Qfloor_comp.
  rewrite inject_Z_opp. field.
  intros H. apply (inject_Z_injective b 0) in H. lia.
Qed.

(** [Math.ceil(a / b)] is the least [n] with [a <= n * b]. *)
Lemma Math_ceil_div_bounds (a b : Z) :
  (0 < b)%Z ->
  let n := Math_ceil (inject_Z a / inject_Z b) in
  ((n - 1) * b < a <= n * b)%Z.
Proof.
  intros Hb n. subst n. rewrite Math_ceil_div by done.
  pose proof (Z.div_mod (- a) b ltac:(lia)).
  pose proof (Z.mod_pos_bound (- a) b Hb). nia.
Qed.

Lemma Qle_inject_div (x a b : Z) :
  (0 < b)%Z -> inject_Z x <= inject_Z a / inject_Z b <-> (x * b <= a)%Z.
Proof.
  intros Hb. destruct b as [|p|p]; try lia.
  unfold Qle, Qdiv, Qmult, Qinv, inject_Z; simpl. lia.
Qed.

Lemma Qlt_inject_div (x a b : Z) :
  (0 < b)%Z -> inject_Z x < inject_Z a / inject_Z b <-> (x * b < a)%Z.
Proof.
  intros Hb. destruct b as [|p|p]; try lia.
  unfold Qlt, Qdiv, Qmult, Qinv, inject_Z; simpl. lia.
Qed.

Lemma inject_Z_pos (z : Z) : (0 < z)%Z -> 0 < inject_Z z.
Proof. intros. change 0 with (inject_Z 0). by rewrite <- Zlt_Qlt. Qed.

Lemma inject_Z_nonneg (z : Z) : (0 <= z)%Z -> 0 <= inject_Z z.
Proof. intros. change 0 with (inject_Z 0). by rewrite <- Zle_Qle. Qed.

(** The quotient of two integers, rounded to a double, against an
    integer: as for the exact quotient. *)
Lemma Z_le_div64_small (x a b : Z) :
  (0 <= x < 2 ^ 53)%Z -> (0 <= a < 2 ^ 53)%Z -> (0 < b)%Z ->
  inject_Z x <= div64 (inject_Z a) (inject_Z b) <-> (x * b <= a)%Z.
Proof.
  intros Hx Ha Hb. unfold div64.
  pose proof (inject_Z_pos b Hb) as Hb'. pose proof (inject_Z_nonneg a ltac:(lia)) as Ha'.
  assert (0 <= inject_Z a / inject_Z b) as Hq.
  { apply Qle_shift_div_l; [done|]. lra. }
  split.
  - intros H. destruct (Z.le_gt_cases (x * b) a) as [|Hgt]; [done|]. exfalso.
    assert (a + 1 <= x * b)%Z as Hgt' by lia.
    rewrite Zle_Qle, inject_Z_plus, inject_Z_mult in Hgt'. change (inject_Z 1) with 1 in Hgt'.
    destruct (double_error _ Hq) as [_ Hu].
    assert (inject_Z a < 9007199254740992) as Ha2.
    { change 9007199254740992 with (inject_Z (2 ^ 53)). rewrite <- Zlt_Qlt. lia. }
    assert (inject_Z a == inject_Z a / inject_Z b * inject_Z b) as Hab by (field; lra).
    set (q := inject_Z a / inject_Z b) in *.
    assert (q * (1 # 9007199254740992) * inject_Z b < 1) by nra.
    nra.
  - intros H. rewrite <- (double_Z x) by done. apply double_mono.
    by apply Qle_inject_div.
Qed.

Lemma Z_lt_div64_small (x a b : Z) :
  (0 <= x < 2 ^ 53)%Z -> (0 <= a < 2 ^ 53)%Z -> (0 < b)%Z ->
  inject_Z x < div64 (inject_Z a) (inject_Z b) <-> (x * b < a)%Z.
Proof.
  intros Hx Ha Hb. unfold div64.
  pose proof (inject_Z_pos b Hb) as Hb'. pose proof (inject_Z_nonneg a ltac:(lia)) as Ha'.
  assert (0 <= inject_Z a / inject_Z b) as Hq.
  { apply Qle_shift_div_l; [done|]. lra. }
  split.
  - intros H. destruct (Z.lt_ge_cases (x * b) a) as [|Hge]; [done|]. exfalso.
    assert (inject_Z a / inject_Z b <= inject_Z x) as Hle.
    { apply Qle_shift_div_r; [done|]. rewrite <- inject_Z_mult, <- Zle_Qle. lia. }
    apply double_mono in Hle. rewrite (double_Z x) in Hle by done. lra.
  - intros H. assert (x * b + 1 <= a)%Z as H' by lia.
    rewrite Zle_Qle, inject_Z_plus, inject_Z_mult in H'. change (inject_Z 1) with 1 in H'.
    destruct (double_error _ Hq) as [Hl _].
    assert (inject_Z a < 9007199254740992) as Ha2.
    { change 9007199254740992 with (inject_Z (2 ^ 53)). rewrite <- Zlt_Qlt. lia. }
    assert (inject_Z a == inject_Z a / inject_Z b * inject_Z b) as Hab by (field; lra).
    set (q := inject_Z a / inject_Z b) in *.
    assert (q * (1 # 9007199254740992) * inject_Z b < 1) by nra.
    nra.
Qed.

Lemma div64_Z_bounds (a b : Z) :
  (0 <= a < 2 ^ 53)%Z -> (0 < b)%Z ->
  0 <= div64 (inject_Z a) (inject_Z b) <= inject_Z a.
Proof.
  intros Ha Hb. unfold div64.
  pose proof (inject_Z_pos b Hb) as Hb'. pose proof (inject_Z_nonneg a ltac:(lia)) as Ha'.
  assert (1 <= inject_Z b) as Hb1.
  { change 1 with (inject_Z 1). rewrite <- Zle_Qle. lia. }
  split.
  - apply double_nonneg. apply Qle_shift_div_l; [done|]. lra.
  - rewrite <- (double_Z a) at 2 by done. apply double_mono.
    apply Qle_shift_div_r; [done|]. nra.
Qed.

Lemma Z_le_div64 (x a b : Z) :
  (0 <= a < 2 ^ 53)%Z -> (0 < b)%Z ->
  inject_Z x <= div64 (inject_Z a) (inject_Z b) <-> (x * b <= a)%Z.
Proof.
  intros Ha Hb. pose proof (div64_Z_bounds a b Ha Hb) as [H0 H1].
  destruct (Z.lt_ge_cases x 0) as [Hx|Hx].
  - assert (inject_Z x < 0) by (change 0 with (inject_Z 0); rewrite <- Zlt_Qlt; lia).
    split; intros; [nia|lra].
  - destruct (Z.lt_ge_cases x (2 ^ 53)) as [Hx'|Hx'].
    + by apply Z_le_div64_small.
    + assert (inject_Z a < inject_Z x) by (rewrite <- Zlt_Qlt; lia).
      split; intros; [lra|nia].
Qed.

Lemma Z_lt_div64 (x a b : Z) :
  (0 <= a < 2 ^ 53)%Z -> (0 < b)%Z ->
  inject_Z x < div64 (inject_Z a) (inject_Z b) <-> (x * b < a)%Z.
Proof.
  intros Ha Hb. pose proof (div64_Z_bounds a b Ha Hb) as [H0 H1].
  destruct (Z.lt_ge_cases x 0) as [Hx|Hx].
  - assert (inject_Z x < 0) by (change 0 with (inject_Z 0); rewrite <- Zlt_Qlt; lia).
    split; intros; [nia|lra].
  - destruct (Z.lt_ge_cases x (2 ^ 53)) as [Hx'|Hx'].
    + by apply Z_lt_div64_small.
    + assert (inject_Z a < inject_Z x) by (rewrite <- Zlt_Qlt; lia).
      split; intros; [lra|nia].
Qed.

(** [Math.ceil] of the rounded quotient is the ceiling of the exact one. *)
Lemma Math_ceil_div64 (a b : Z) :
  (0 <= a < 2 ^ 53)%Z -> (0 < b)%Z ->
  Math_ceil (div64 (inject_Z a) (inject_Z b)) = Math_ceil (inject_Z a / inject_Z b).
Proof.
  intros Ha Hb. pose proof (Math_ceil_div_bounds a b Hb) as Hn. simpl in Hn.
  set (n := Math_ceil (inject_Z a / inject_Z b)) in *.
  assert (0 <= n)%Z as Hn0 by nia.
  assert (n <= a)%Z as Hna by nia.
  unfold Math_ceil. apply Qceiling_unique. split.
  - destruct (decide (n = 0%Z)) as [Hz|Hnz].
    + rewrite Hz. assert (a = 0%Z) as -> by lia.
      unfold div64. rewrite double_0; [done|]. unfold Qdiv. ring.
    + pose proof (proj2 (Z_lt_div64_small (n - 1) a b ltac:(lia) Ha Hb) ltac:(lia)) as H.
      rewrite inject_Z_sub in H. exact H.
  - rewrite <- (double_Z n) by lia. apply double_mono.
    apply Qle_shift_div_r; [by apply inject_Z_pos|].
    rewrite <- inject_Z_mult, <- Zle_Qle. lia.
Qed.

Lemma Math_min_le_l (a b : Q) : a <= b -> Math_min a b = a.
Proof. intros H. unfold Math_min. by apply Qle_bool_iff in H as ->. Qed.

Lemma Math_min_spec (a b : Q) :
  Math_min a b <= a /\ Math_min a b <= b /\ (Math_min a b == a \/ Math_min a b == b).
Proof.
  unfold Math_min. destruct (Qle_bool a b) eqn:E.
  - apply Qle_bool_iff in E. repeat split; first [lra | by left].
  - assert (~ a <= b) by (rewrite <- Qle_bool_iff; congruence).
    repeat split; first [lra | by right].
Qed.

Lemma Math_round_spec (x : Q) :
  x - (1 # 2) < inject_Z (Math_round x) <= x + (1 # 2).
Proof.
  unfold Math_round. pose proof (Qfloor_le (x + (1 # 2))). pose proof (Qlt_floor (x + (1 # 2))) as H1.
  rewrite inject_Z_plus in H1. change (inject_Z 1) with 1 in H1. split; lra.
Qed.

Lemma Math_round_mono (x y : Q) : x <= y -> (Math_round x <= Math_round y)%Z.
Proof. intros. unfold Math_round. apply Qfloor_resp_le. lra. Qed.

Lemma Math_round_Z (z : Z) : Math_round (inject_Z z) = z.
Proof.
  pose proof (Math_round_spec (inject_Z z)) as [H1 H2].
  assert (inject_Z (z - 1) < inject_Z (Math_round (inject_Z z))) as A.
  { rewrite inject_Z_sub. change (inject_Z 1) with 1. lra. }
  assert (inject_Z (Math_round (inject_Z z)) < inject_Z (z + 1)) as B.
  { rewrite inject_Z_plus. change (inject_Z 1) with 1. lra. }
  rewrite <- Zlt_Qlt in A, B. lia.
Qed.

Lemma Math_round_div (a b : Z) :
  (0 < b)%Z -> Math_round (inject_Z a / inject_Z b) = ((2 * a + b) / (2 * b))%Z.
Proof.
  intros Hb. unfold Math_round. rewrite Zdiv_Qdiv. apply Qfloor_comp.
  rewrite inject_Z_plus, !inject_Z_mult. field.
  intros H. apply (inject_Z_injective b 0) in H. lia.
Qed.

(** ** The expression [(c / n) * 90] of line 99 *)

Lemma ratio_bounds (c n : Z) :
  (0 <= c <= n)%Z -> (0 < n)%Z -> 0 <= inject_Z c / inject_Z n <= 1.
Proof.
  intros Hc Hn. pose proof (inject_Z_pos n Hn).
  split.
  - apply Qle_shift_div_l; [done|]. pose proof (inject_Z_nonneg c ltac:(lia)). lra.
  - apply Qle_shift_div_r; [done|]. rewrite Qmult_1_l, <- Zle_Qle. lia.
Qed.

Lemma scaled_ratio_mono (c c' n : Z) :
  (c <= c')%Z -> (0 < n)%Z ->
  mul64 (div64 (inject_Z c) (inject_Z n)) 90 <= mul64 (div64 (inject_Z c') (inject_Z n)) 90.
Proof.
  intros Hc Hn. pose proof (inject_Z_pos n Hn) as Hn'.
  unfold mul64, div64. apply double_mono.
  assert (double (inject_Z c / inject_Z n) <= double (inject_Z c' / inject_Z n)); [|lra].
  apply double_mono. apply Qmult_le_compat_r.
  - by rewrite <- Zle_Qle.
  - apply Qlt_le_weak, Qinv_lt_0_compat, Hn'.
Qed.

Lemma scaled_ratio_full (n : Z) :
  (0 < n)%Z -> mul64 (div64 (inject_Z n) (inject_Z n)) 90 == 90.
Proof.
  intros Hn. pose proof (inject_Z_pos n Hn) as Hn'. unfold mul64, div64.
  assert (inject_Z n / inject_Z n == inject_Z 1) as E by (field; lra).
  pose proof (double_comp _ _ E) as E1. pose proof (double_Z 1 ltac:(lia)) as E2.
  assert (double (inject_Z n / inject_Z n) * 90 == inject_Z 90) as E3.
  { change (inject_Z 1) with 1 in *. change (inject_Z 90) with 90. lra. }
  pose proof (double_comp _ _ E3) as E4. pose proof (double_Z 90 ltac:(lia)) as E5.
  change (inject_Z 90) with 90 in *. lra.
Qed.

Lemma scaled_ratio_zero (n : Z) :
  mul64 (div64 (inject_Z 0) (inject_Z n)) 90 == 0.
Proof.
  unfold mul64, div64. apply double_0.
  assert (double (inject_Z 0 / inject_Z n) == 0); [|lra].
  apply double_0. unfold Qdiv. ring.
Qed.

Lemma scaled_ratio_bounds (c n : Z) :
  (0 <= c <= n)%Z -> (0 < n)%Z ->
  0 <= mul64 (div64 (inject_Z c) (inject_Z n)) 90 <= 90.
Proof.
  intros Hc Hn.
  pose proof (scaled_ratio_zero n). pose proof (scaled_ratio_full n Hn).
  pose proof (scaled_ratio_mono 0 c n ltac:(lia) Hn).
  pose proof (scaled_ratio_mono c n n ltac:(lia) Hn).
  split; lra.
Qed.

(** The two roundings move the product by less than [181 * 2^-53]. *)
Lemma scaled_ratio_error (c n : Z) :
  (0 <= c <= n)%Z -> (0 < n)%Z ->
  let y := inject_Z c / inject_Z n * 90 in
  let p := mul64 (div64 (inject_Z c) (inject_Z n)) 90 in
  y - (181 # 9007199254740992) <= p <= y + (181 # 9007199254740992).
Proof.
  intros Hc Hn y p. subst y p. unfold mul64, div64.
  destruct (ratio_bounds c n Hc Hn) as [Hq0 Hq1].
  set (q := inject_Z c / inject_Z n) in *.
  destruct (double_error q Hq0) as [Hd1 Hd2].
  pose proof (double_nonneg q Hq0) as Hd0.
  set (d := double q) in *.
  assert (0 <= d * 90) as Hd90 by lra.
  destruct (double_error (d * 90) Hd90) as [Hp1 Hp2].
  set (p := double (d * 90)) in *.
  set (e := 1 # 9007199254740992) in *.
  assert (0 < e) as He0 by done.
  assert (e <= 1 # 90) as He1 by done.
  assert ((181 # 9007199254740992) == 181 * e) as -> by done.
  assert (q * e <= e) as Hqe by nra.
  assert (0 <= q * e) as Hqe0 by nra.
  assert (d <= 1 + e) as Hd by lra.
  assert (d * 90 * e <= (1 + e) * 90 * e) as Hde by nra.
  assert (0 <= d * 90 * e) as Hde0 by nra.
  assert ((1 + e) * 90 * e <= 91 * e) as Hee by nra.
  split; lra.
Qed.

(** [Math.round((c / n) * 90)] against the rounding of the exact quotient
    [90 * c / n]: the same number unless the exact quotient is a half, and
    then the same or one less. *)
Lemma scaled_ratio_round (c n : Z) :
  (0 <= c <= n)%Z -> (0 < n < 2 ^ 32)%Z ->
  let k := ((180 * c + n) / (2 * n))%Z in
  let r := Math_round (mul64 (div64 (inject_Z c) (inject_Z n)) 90) in
  (k - 1 <= r <= k)%Z /\ (((180 * c + n) mod (2 * n))%Z <> 0%Z -> r = k).
Proof.
  intros Hc Hn k r.
  pose proof (scaled_ratio_error c n Hc ltac:(lia)) as [Hl Hu]. simpl in Hl, Hu.
  set (p := mul64 (div64 (inject_Z c) (inject_Z n)) 90) in *.
  pose proof (Z.div_mod (180 * c + n) (2 * n) ltac:(lia)) as Hdm.
  pose proof (Z.mod_pos_bound (180 * c + n) (2 * n) ltac:(lia)) as Hmb.
  fold k in Hdm. set (m := ((180 * c + n) mod (2 * n))%Z) in *.
  pose proof (inject_Z_pos n ltac:(lia)) as Hn0.
  assert (inject_Z n < 4294967296) as Hn1.
  { change 4294967296 with (inject_Z (2 ^ 32)). rewrite <- Zlt_Qlt. lia. }
  assert (inject_Z c / inject_Z n * inject_Z n == inject_Z c) as Hq by (field; lra).
  set (q := inject_Z c / inject_Z n) in *.
  assert (180 * inject_Z c + inject_Z n == 2 * inject_Z n * inject_Z k + inject_Z m) as HN.
  { assert (inject_Z (180 * c + n) == inject_Z (2 * n * k + m)) as HN by (by rewrite <- Hdm).
    rewrite !inject_Z_plus, !inject_Z_mult in HN.
    change (inject_Z 180) with 180 in HN. change (inject_Z 2) with 2 in HN. exact HN. }
  assert (0 <= inject_Z m) as Hm0 by (apply inject_Z_nonneg; lia).
  assert (inject_Z m <= 2 * inject_Z n - 1) as Hm1.
  { assert (inject_Z m <= inject_Z (2 * n - 1)) as HM by (rewrite <- Zle_Qle; lia).
    rewrite inject_Z_sub, inject_Z_mult in HM.
    change (inject_Z 2) with 2 in HM. change (inject_Z 1) with 1 in HM. exact HM. }
  set (e := 181 # 9007199254740992) in *.
  assert (0 < e) as He0 by done.
  assert (2 * inject_Z n * e < 1) as Hne.
  { assert (2 * 4294967296 * e < 1) by done. nra. }
  assert ((p + (1 # 2)) * (2 * inject_Z n)
          <= 2 * inject_Z n * inject_Z k + inject_Z m + 2 * inject_Z n * e) as HU by nra.
  assert (2 * inject_Z n * inject_Z k + inject_Z m - 2 * inject_Z n * e
          <= (p + (1 # 2)) * (2 * inject_Z n)) as HL by nra.
  pose proof (Qfloor_le (p + (1 # 2))) as Hfl. pose proof (Qlt_floor (p + (1 # 2))) as Hfu.
  rewrite inject_Z_plus in Hfu. change (inject_Z 1) with 1 in Hfu.
  fold (Math_round p) in Hfl, Hfu. fold r in Hfl, Hfu.
  assert (inject_Z r < inject_Z (k + 1)) as A.
  { rewrite inject_Z_plus. change (inject_Z 1) with 1. nra. }
  assert (inject_Z (k - 1) < inject_Z (r + 1)) as B.
  { rewrite inject_Z_sub, inject_Z_plus. change (inject_Z 1) with 1. nra. }
  rewrite <- Zlt_Qlt in A, B. split; [lia|].
  intros Hm. assert (1 <= inject_Z m) as Hm2.
  { change 1 with (inject_Z 1). rewrite <- Zle_Qle. lia. }
  assert (inject_Z k < inject_Z (r + 1)) as C.
  { rewrite inject_Z_plus. change (inject_Z 1) with 1. nra. }
  rewrite <- Zlt_Qlt in C. lia.
Qed.

End Numbers.
(* ===================================================================== *)
(** * The chunk plan of [processFile]                                     *)
(* ===================================================================== *)

Section Planner.
Import JS Types App.

Variable b : AudioBuffer.t.
Hypothesis Hvalid : AudioBuffer.valid b.

Lemma chunkTotalSamples_pos : 0 < chunkTotalSamples b.
Proof. destruct Hvalid. unfold chunkTotalSamples, sampleRate, CHUNK_SIZE_SECONDS. lia. Qed.

Lemma totalSamples_double : 0 <= totalSamples b < 2 ^ 53.
Proof. destruct Hvalid as [_ H]. unfold totalSamples. lia. Qed.

(** The quotient of line 45 is rounded to a double; its ceiling is the
    ceiling of the exact quotient. *)
Lemma numChunks_exact :
  numChunks b
  = Qceiling (inject_Z (totalSamples b) / inject_Z (chunkTotalSamples b)).
Proof.
  unfold numChunks. apply Math_ceil_div64.
  - apply totalSamples_double.
  - apply chunkTotalSamples_pos.
Qed.

Lemma numChunks_bounds :
  (numChunks b - 1) * chunkTotalSamples b < totalSamples b <= numChunks b * chunkTotalSamples b.
Proof. rewrite numChunks_exact. apply Math_ceil_div_bounds, chunkTotalSamples_pos. Qed.

Lemma numChunks_nonneg : 0 <= numChunks b.
Proof.
  pose proof numChunks_bounds. pose proof chunkTotalSamples_pos.
  destruct Hvalid. unfold totalSamples in *. nia.
Qed.

Lemma numChunks_zero : numChunks b = 0 <-> totalSamples b = 0.
Proof.
  pose proof numChunks_bounds. pose proof chunkTotalSamples_pos.
  destruct Hvalid. unfold totalSamples in *. split; intros; nia.
Qed.

(** The nominal end [(i + 1) * 20] against the duration, in samples. *)
Lemma nominal_end_le_duration (i : Z) :
  (inject_Z ((i + 1) * CHUNK_SIZE_SECONDS) <= AudioBuffer.duration b)%Q
  <-> (i + 1) * chunkTotalSamples b <= totalSamples b.
Proof.
  pose proof totalSamples_double. destruct Hvalid as [[? ?] ?]. unfold AudioBuffer.duration.
  rewrite Z_le_div64 by done.
  unfold chunkTotalSamples, totalSamples, sampleRate, CHUNK_SIZE_SECONDS. lia.
Qed.

Lemma start_lt_duration (i : Z) :
  (chunkStartTime i < AudioBuffer.duration b)%Q
  <-> i * chunkTotalSamples b < totalSamples b.
Proof.
  pose proof totalSamples_double. destruct Hvalid as [[? ?] ?].
  unfold AudioBuffer.duration, chunkStartTime.
  rewrite Z_lt_div64 by done.
  unfold chunkTotalSamples, totalSamples, sampleRate, CHUNK_SIZE_SECONDS. lia.
Qed.

Lemma chunkStartTime_Q (i : Z) : (chunkStartTime i == inject_Z i * 20)%Q.
Proof. unfold chunkStartTime, CHUNK_SIZE_SECONDS. by rewrite inject_Z_mult. Qed.

Lemma chunkEndTime_inner (i : Z) :
  i + 1 < numChunks b -> chunkEndTime b i = chunkStartTime (i + 1).
Proof.
  intros Hi. unfold chunkEndTime. apply Math_min_le_l.
  apply nominal_end_le_duration.
  pose proof numChunks_bounds. pose proof chunkTotalSamples_pos. nia.
Qed.

Lemma chunkEndTime_last (i : Z) :
  i + 1 = numChunks b -> (chunkEndTime b i == AudioBuffer.duration b)%Q.
Proof.
  intros Hi. unfold chunkEndTime.
  destruct (Math_min_spec (inject_Z ((i + 1) * CHUNK_SIZE_SECONDS)) (AudioBuffer.duration b))
    as (Hl & Hr & [E|E]); [|exact E].
  rewrite E in Hr |- *.
  apply Qle_antisym; [exact Hr|].
  apply Qnot_lt_le. intros Hlt.
  pose proof totalSamples_double. destruct Hvalid as [[? ?] ?].
  unfold AudioBuffer.duration in Hlt. rewrite Z_lt_div64 in Hlt by done.
  pose proof numChunks_bounds.
  unfold chunkTotalSamples, totalSamples, sampleRate, CHUNK_SIZE_SECONDS in *. lia.
Qed.

Lemma chunkEndTime_le_duration (i : Z) : (chunkEndTime b i <= AudioBuffer.duration b)%Q.
Proof. unfold chunkEndTime. apply Math_min_spec. Qed.

Lemma chunkEndTime_le_nominal (i : Z) : (chunkEndTime b i <= inject_Z (i + 1) * 20)%Q.
Proof.
  unfold chunkEndTime.
  pose proof (Math_min_spec (inject_Z ((i + 1) * CHUNK_SIZE_SECONDS)) (AudioBuffer.duration b))
    as (Hl & _).
  unfold CHUNK_SIZE_SECONDS in *. rewrite inject_Z_mult in Hl. done.
Qed.

Lemma chunk_nonempty (i : Z) :
  0 <= i < numChunks b -> (chunkStartTime i < chunkEndTime b i)%Q.
Proof.
  intros Hi. unfold chunkEndTime.
  destruct (Math_min_spec (inject_Z ((i + 1) * CHUNK_SIZE_SECONDS)) (AudioBuffer.duration b))
    as (_ & _ & [E|E]); rewrite E.
  - unfold chunkStartTime. rewrite <- Zlt_Qlt. unfold CHUNK_SIZE_SECONDS. lia.
  - apply start_lt_duration.
    pose proof numChunks_bounds. pose proof chunkTotalSamples_pos. nia.
Qed.

(** Every instant of the source lies in a chunk. *)
Lemma chunk_of_instant (t : Q) :
  (0 <= t < AudioBuffer.duration b)%Q ->
  exists i, 0 <= i < numChunks b /\ (chunkStartTime i <= t < chunkEndTime b i)%Q.
Proof.
  intros [H0 HD]. set (i := Qfloor t / 20).
  pose proof (Qfloor_le t) as Hfl. pose proof (Qlt_floor t) as Hfu.
  assert (0 <= Qfloor t) as Hf0.
  { change 0 with (Qfloor 0). by apply Qfloor_resp_le. }
  pose proof (Z.div_mod (Qfloor t) 20 ltac:(lia)) as Hdm.
  pose proof (Z.mod_pos_bound (Qfloor t) 20 ltac:(lia)) as Hmb.
  fold i in Hdm.
  assert (inject_Z (i * 20) <= t)%Q as Hlo.
  { eapply Qle_trans; [|exact Hfl]. rewrite <- Zle_Qle. lia. }
  assert (t < inject_Z ((i + 1) * 20))%Q as Hhi.
  { eapply Qlt_le_trans; [exact Hfu|]. rewrite <- Zle_Qle. lia. }
  assert (i * chunkTotalSamples b < totalSamples b) as Hin.
  { apply start_lt_duration. unfold chunkStartTime, CHUNK_SIZE_SECONDS. lra. }
  exists i. split.
  - pose proof numChunks_bounds. pose proof chunkTotalSamples_pos.
    split; [apply Z.div_pos; lia | nia].
  - split; [done|]. unfold chunkEndTime.
    destruct (Math_min_spec (inject_Z ((i + 1) * CHUNK_SIZE_SECONDS))
                (AudioBuffer.duration b)) as (_ & _ & [E|E]); by rewrite E.
Qed.

Lemma chunk_of_instant_unique (i j : Z) (t : Q) :
  (chunkStartTime i <= t < chunkEndTime b i)%Q ->
  (chunkStartTime j <= t < chunkEndTime b j)%Q ->
  i = j.
Proof.
  intros [Hi1 Hi2] [Hj1 Hj2].
  pose proof (chunkEndTime_le_nominal i). pose proof (chunkEndTime_le_nominal j).
  rewrite chunkStartTime_Q in Hi1, Hj1.
  assert (inject_Z i < inject_Z (j + 1))%Q as A by lra.
  assert (inject_Z j < inject_Z (i + 1))%Q as B by lra.
  rewrite <- Zlt_Qlt in A, B. lia.
Qed.

(** ** The waves of the loop *)

Lemma chunkBatchIndices_seqZ (i : Z) :
  chunkBatchIndices b i = seqZ i (Z.min CONCURRENCY_LIMIT (numChunks b - i)).
Proof.
  unfold chunkBatchIndices.
  rewrite <- (Z.add_0_r i) at 2. by rewrite <- fmap_add_seqZ.
Qed.

Lemma chunkBatchIndices_length (i : Z) :
  i < numChunks b ->
  Z.of_nat (length (chunkBatchIndices b i)) = Z.min CONCURRENCY_LIMIT (numChunks b - i).
Proof.
  intros. rewrite chunkBatchIndices_seqZ, length_seqZ. unfold CONCURRENCY_LIMIT. lia.
Qed.

Lemma elem_of_chunkBatchIndices (i j : Z) :
  j ∈ chunkBatchIndices b i <-> i <= j < i + CONCURRENCY_LIMIT /\ j < numChunks b.
Proof. rewrite chunkBatchIndices_seqZ, elem_of_seqZ. unfold CONCURRENCY_LIMIT. lia. Qed.

Lemma waves_concat (i : Z) :
  0 <= i -> concat (waves b i) = seqZ i (numChunks b - i).
Proof.
  intros Hi. funelim (waves b i); simpl.
  - rewrite H by (unfold CONCURRENCY_LIMIT; lia).
    rewrite chunkBatchIndices_seqZ.
    destruct (decide (CONCURRENCY_LIMIT <= numChunks b - i0)).
    + rewrite Z.min_l by done.
      rewrite <- seqZ_app by (unfold CONCURRENCY_LIMIT in *; lia).
      f_equal. lia.
    + rewrite Z.min_r by lia.
      rewrite (seqZ_nil (i0 + _)) by lia. by rewrite app_nil_r.
  - by rewrite seqZ_nil by lia.
Qed.

Lemma waves_length (i : Z) :
  Z.of_nat (length (waves b i))
  = Z.max 0 ((numChunks b - i + CONCURRENCY_LIMIT - 1) / CONCURRENCY_LIMIT).
Proof.
  funelim (waves b i); simpl.
  - rewrite Nat2Z.inj_succ, H. unfold CONCURRENCY_LIMIT in *.
    pose proof (Z.div_mod (numChunks b - i0 + 10 - 1) 10 ltac:(lia)).
    pose proof (Z.mod_pos_bound (numChunks b - i0 + 10 - 1) 10 ltac:(lia)).
    pose proof (Z.div_mod (numChunks b - (i0 + 10) + 10 - 1) 10 ltac:(lia)).
    pose proof (Z.mod_pos_bound (numChunks b - (i0 + 10) + 10 - 1) 10 ltac:(lia)).
    lia.
  - unfold CONCURRENCY_LIMIT in *.
    pose proof (Z.div_mod (numChunks b - i0 + 10 - 1) 10 ltac:(lia)).
    pose proof (Z.mod_pos_bound (numChunks b - i0 + 10 - 1) 10 ltac:(lia)).
    lia.
Qed.

Lemma waves_bounded (i : Z) (w : list Z) :
  w ∈ waves b i -> (0 < length w <= Z.to_nat CONCURRENCY_LIMIT)%nat.
Proof.
  funelim (waves b i); simpl.
  - intros [->|Hw]%elem_of_cons; [|by apply H].
    pose proof (chunkBatchIndices_length i0 l). unfold CONCURRENCY_LIMIT in *. lia.
  - by intros ?%elem_of_nil.
Qed.

End Planner.

(* ===================================================================== *)
(** * The aggregation of the results                                      *)
(* ===================================================================== *)

Section Aggregator.
Import JS Types App.

Lemma byStartTime_le (a b : TranscriptionTurn) :
  Qle_bool (byStartTime a b) 0 = true <-> byStart a b.
Proof.
  unfold byStartTime, byStart, sub64. rewrite Qle_bool_iff, double_le_0.
  split; intros; lra.
Qed.

Lemma sort_insert_Permutation {A} (cmp : A -> A -> Q) (x : A) (l : list A) :
  sort_insert cmp x l ≡ₚ x :: l.
Proof.
  induction l as [|y l IH]; simpl; [done|].
  destruct (Qle_bool (cmp x y) 0); [done|].
  rewrite IH. apply Permutation_swap.
Qed.

Lemma sort_Permutation {A} (cmp : A -> A -> Q) (l : list A) : sort cmp l ≡ₚ l.
Proof.
  induction l as [|x l IH]; simpl; [done|].
  by rewrite sort_insert_Permutation, IH.
Qed.

Lemma sort_insert_Sorted (x : TranscriptionTurn) (l : list TranscriptionTurn) :
  Sorted byStart l -> Sorted byStart (sort_insert byStartTime x l).
Proof.
  induction 1 as [|y l Hl IH Hy]; simpl.
  { repeat constructor. }
  destruct (Qle_bool (byStartTime x y) 0) eqn:E.
  - apply byStartTime_le in E. by repeat constructor.
  - assert (byStart y x) as Hyx.
    { unfold byStart. destruct (Qlt_le_dec (startTime x) (startTime y)) as [Hlt|]; [|done].
      assert (byStart x y) as F by (unfold byStart; lra).
      apply byStartTime_le in F. congruence. }
    constructor; [done|].
    destruct Hy as [|z l' Hz]; simpl.
    + by constructor.
    + destruct (Qle_bool (byStartTime x z) 0); by constructor.
Qed.

Lemma sort_Sorted (l : list TranscriptionTurn) : Sorted byStart (sort byStartTime l).
Proof. induction l; simpl; [constructor | by apply sort_insert_Sorted]. Qed.

(** A list already in ascending order is left as it is (the sort is
    stable). *)
Lemma sort_sorted_id (l : list TranscriptionTurn) :
  Sorted byStart l -> sort byStartTime l = l.
Proof.
  induction 1 as [|x l Hl IH Hx]; simpl; [done|].
  rewrite IH. destruct Hx as [|y l' Hxy]; simpl; [done|].
  by apply byStartTime_le in Hxy as ->.
Qed.

Lemma aggregate_Sorted arr : Sorted byStart (aggregate arr).
Proof. apply sort_Sorted. Qed.

Lemma aggregate_Permutation arr : aggregate arr ≡ₚ filter_Boolean arr.
Proof. apply sort_Permutation. Qed.

Lemma filter_Boolean_app {A} (l1 l2 : list (option A)) :
  filter_Boolean (l1 ++ l2) = filter_Boolean l1 ++ filter_Boolean l2.
Proof. apply omap_app. Qed.

Lemma filter_Boolean_Some {A} (l : list A) : filter_Boolean (Some <$> l) = l.
Proof. induction l; simpl; [done|]. unfold filter_Boolean in *. simpl. by f_equal. Qed.

Lemma filter_Boolean_holes {A} (k : nat) : filter_Boolean (replicate k (@None A)) = [].
Proof. induction k; simpl; done. Qed.

(** ** Storing the results of a wave *)

Lemma array_set_length {A} (arr : list (option A)) (j : Z) (v : A) :
  (Z.to_nat j < length arr)%nat -> length (array_set arr j v) = length arr.
Proof. intros. unfold array_set. rewrite decide_True by done. apply length_insert. Qed.

Lemma array_set_commute {A} (arr : list (option A)) (j k : Z) (v w : A) :
  (Z.to_nat j < length arr)%nat -> (Z.to_nat k < length arr)%nat -> Z.to_nat j <> Z.to_nat k ->
  array_set (array_set arr j v) k w = array_set (array_set arr k w) j v.
Proof.
  intros Hj Hk Hne. unfold array_set.
  rewrite (decide_True (P := (Z.to_nat j < length arr)%nat)) by done.
  rewrite (decide_True (P := (Z.to_nat k < length arr)%nat)) by done.
  rewrite !decide_True by (rewrite length_insert; done).
  by apply list_insert_insert_ne.
Qed.

Lemma storeResults_length arr rs :
  Forall (fun r => 0 <= index r < Z.of_nat (length arr)) rs ->
  length (storeResults arr rs) = length arr.
Proof.
  unfold storeResults. revert arr. induction rs as [|r rs IH]; intros arr Hrs; simpl; [done|].
  inversion Hrs as [|?? Hr Hrs']; subst.
  rewrite IH; rewrite array_set_length by lia; done.
Qed.

(** The order in which the results of distinct chunks are stored does
    not matter. *)
Lemma storeResults_Permutation arr rs rs' :
  Forall (fun r => 0 <= index r < Z.of_nat (length arr)) rs ->
  NoDup (index <$> rs) ->
  rs ≡ₚ rs' ->
  storeResults arr rs' = storeResults arr rs.
Proof.
  intros Hrs Hnd Hp. revert arr Hrs Hnd.
  induction Hp as [|r rs rs' Hp IH|r1 r2 rs|rs1 rs2 rs3 Hp1 IH1 Hp2 IH2];
    intros arr Hrs Hnd.
  - done.
  - inversion Hrs; subst. apply NoDup_cons in Hnd as [_ Hnd].
    unfold storeResults in *; simpl. apply IH; [|done].
    by rewrite array_set_length by lia.
  - inversion Hrs as [|?? H2 Hrs']; subst. inversion Hrs' as [|?? H1 _]; subst.
    simpl in Hnd. apply NoDup_cons in Hnd as [Hne _].
    unfold storeResults; simpl. f_equal.
    apply array_set_commute; try lia.
    intros E. apply Hne. rewrite elem_of_cons. left. lia.
  - rewrite IH2, IH1; try done.
    + by rewrite <- Hp1.
    + by rewrite <- Hp1.
Qed.

(** Storing the results of consecutive chunks into the holes that
    follow the filled part of the array. *)
Lemma storeResults_consecutive (pre : list (option TranscriptionTurn)) rs (holes : nat) :
  (forall k r, rs !! k = Some r -> index r = Z.of_nat (length pre + k)) ->
  (length rs <= holes)%nat ->
  storeResults (pre ++ replicate holes None) rs
  = pre ++ (Some ∘ turn <$> rs) ++ replicate (holes - length rs) None.
Proof.
  revert pre holes. induction rs as [|r rs IH]; intros pre holes Hidx Hlen; simpl.
  { by rewrite Nat.sub_0_r. }
  simpl in Hlen. destruct holes as [|holes]; [lia|].
  pose proof (Hidx 0%nat r eq_refl) as Hr. rewrite Nat.add_0_r in Hr.
  unfold storeResults in *. simpl.
  assert (array_set (pre ++ None :: replicate holes None) (index r) (turn r)
          = (pre ++ [Some (turn r)]) ++ replicate holes None) as ->.
  { unfold array_set. rewrite Hr, Nat2Z.id.
    rewrite decide_True by (rewrite length_app; simpl; lia).
    rewrite insert_app_r_alt by lia. rewrite Nat.sub_diag. simpl.
    by rewrite <- app_assoc. }
  rewrite IH.
  - by rewrite <- app_assoc.
  - intros k r' Hk. rewrite (Hidx (S k) r' Hk), length_app. simpl. lia.
  - lia.
Qed.

(** ** Arrays filled at planned slots *)

Lemma filter_Boolean_elem (arr : list (option TranscriptionTurn)) t :
  t ∈ filter_Boolean arr <-> exists j : nat, arr !! j = Some (Some t).
Proof.
  unfold filter_Boolean. rewrite list_elem_of_omap. split.
  - intros (o & Hin & Ho). simpl in Ho. subst o.
    by apply list_elem_of_lookup in Hin.
  - intros (j & Hj). exists (Some t). split; [|done].
    apply list_elem_of_lookup. by exists j.
Qed.

Lemma planned_sorted_from (off : Z) (arr : list (option TranscriptionTurn)) :
  (forall (j : nat) t, arr !! j = Some (Some t) ->
     startTime t = chunkStartTime (off + Z.of_nat j)) ->
  StronglySorted byStart (filter_Boolean arr).
Proof.
  revert off. induction arr as [|o arr IH]; intros off H; [constructor|].
  assert (StronglySorted byStart (filter_Boolean arr)) as Htl.
  { apply (IH (off + 1)). intros j t Hj. rewrite (H (S j) t Hj). f_equal. lia. }
  destruct o as [x|]; [|exact Htl].
  change (filter_Boolean (Some x :: arr)) with (x :: filter_Boolean arr).
  constructor; [done|]. apply Forall_forall. intros t [j Hj]%filter_Boolean_elem.
  unfold byStart. rewrite (H 0%nat x eq_refl), (H (S j) t Hj).
  unfold chunkStartTime, CHUNK_SIZE_SECONDS. rewrite <- Zle_Qle. lia.
Qed.

(** On an array filled at planned slots the sort changes nothing: the
    aggregate is the filled slots in index order. *)
Lemma aggregate_planned arr : planned arr -> aggregate arr = filter_Boolean arr.
Proof.
  intros H. apply sort_sorted_id, StronglySorted_Sorted, (planned_sorted_from 0).
  intros j t Hj. by rewrite (H j t Hj).
Qed.

Lemma filter_Boolean_extends arr arr' :
  extends arr arr' -> filter_Boolean arr `sublist_of` filter_Boolean arr'.
Proof.
  revert arr'. induction arr as [|o arr IH]; intros arr' [Hlen Hext].
  { apply sublist_nil_l. }
  destruct arr' as [|o' arr']; [done|].
  assert (filter_Boolean arr `sublist_of` filter_Boolean arr') as Htl.
  { apply IH. split; [simpl in Hlen; lia|]. intros j t Hj. by apply (Hext (S j)). }
  destruct o as [x|].
  - pose proof (Hext 0%nat x eq_refl) as H0. simpl in H0. injection H0 as ->.
    by apply sublist_skip.
  - destruct o' as [x'|]; [|done]. by apply sublist_cons.
Qed.

(** ** What storing results adds *)

Lemma filter_Boolean_fill (arr : list (option TranscriptionTurn)) (j : nat) v :
  arr !! j = Some None ->
  filter_Boolean (<[j := Some v]> arr) ≡ₚ v :: filter_Boolean arr.
Proof.
  intros Hj. pose proof (lookup_lt_Some _ _ _ Hj) as Hlt.
  rewrite insert_take_drop by done.
  rewrite <- (take_drop_middle arr j None Hj) at 3.
  rewrite !filter_Boolean_app.
  change (filter_Boolean (Some v :: drop (S j) arr)) with (v :: filter_Boolean (drop (S j) arr)).
  change (filter_Boolean (None :: drop (S j) arr)) with (filter_Boolean (drop (S j) arr)).
  by rewrite Permutation_middle.
Qed.

(** Results stored into holes add exactly their turns. *)
Lemma filter_Boolean_storeResults arr rs :
  Forall (fun r => 0 <= index r < Z.of_nat (length arr)) rs ->
  NoDup (index <$> rs) ->
  (forall r, r ∈ rs -> arr !! Z.to_nat (index r) = Some None) ->
  filter_Boolean (storeResults arr rs) ≡ₚ filter_Boolean arr ++ (turn <$> rs).
Proof.
  unfold storeResults. revert arr.
  induction rs as [|r rs IH]; intros arr Hrs Hnd Hholes; simpl.
  { by rewrite app_nil_r. }
  inversion Hrs as [|?? Hr Hrs']; subst. apply NoDup_cons in Hnd as [Hnotin Hnd].
  pose proof (Hholes r ltac:(by left)) as Hhole.
  assert (array_set arr (index r) (turn r) = <[Z.to_nat (index r) := Some (turn r)]> arr) as ->.
  { unfold array_set. by rewrite decide_True by lia. }
  rewrite IH.
  - rewrite filter_Boolean_fill by done. simpl. by rewrite Permutation_middle.
  - by rewrite length_insert.
  - done.
  - intros r' Hr'. rewrite list_lookup_insert_ne.
    + apply Hholes. by right.
    + intros E. apply Hnotin. apply list_elem_of_fmap. exists r'. split; [|done].
      rewrite Forall_forall in Hrs'. specialize (Hrs' r' Hr'). lia.
Qed.

(** Results stored at slot [k] or later leave the slots before [k] as
    they are. *)
Lemma storeResults_take arr rs (k : nat) :
  Forall (fun r => Z.of_nat k <= index r < Z.of_nat (length arr)) rs ->
  take k (storeResults arr rs) = take k arr.
Proof.
  unfold storeResults. revert arr. induction rs as [|r rs IH]; intros arr Hrs; simpl; [done|].
  inversion Hrs as [|?? Hr Hrs']; subst.
  assert (array_set arr (index r) (turn r) = <[Z.to_nat (index r) := Some (turn r)]> arr) as ->.
  { unfold array_set. by rewrite decide_True by lia. }
  rewrite IH by (by rewrite length_insert).
  apply take_insert_ge. lia.
Qed.

Lemma filter_Boolean_no_result (arr : list (option TranscriptionTurn)) :
  (forall (j : nat) t, arr !! j = Some (Some t) -> False) -> filter_Boolean arr = [].
Proof.
  induction arr as [|o arr IH]; intros H; [done|].
  destruct o as [t|]; [by destruct (H 0%nat t)|].
  apply IH. intros j t Hj. by apply (H (S j) t).
Qed.

(** Results of later slots extend the transcript at its end. *)
Lemma aggregate_later_slots arr rs (k : nat) :
  (forall (j : nat) t, arr !! j = Some (Some t) -> (j < k)%nat) ->
  Forall (fun r => Z.of_nat k <= index r < Z.of_nat (length arr)) rs ->
  planned (storeResults arr rs) ->
  aggregate arr `prefix_of` aggregate (storeResults arr rs).
Proof.
  intros Hfilled Hrs Hpl.
  pose proof (storeResults_take arr rs k Hrs) as Htake.
  assert (planned arr) as Hpl0.
  { intros j t Hj. apply Hpl. pose proof (Hfilled j t Hj) as Hlt.
    rewrite <- (lookup_take_lt _ k) by done. rewrite Htake. by rewrite lookup_take_lt. }
  rewrite !aggregate_planned by done.
  rewrite <- (take_drop k arr) at 1.
  rewrite <- (take_drop k (storeResults arr rs)).
  rewrite !filter_Boolean_app, Htake.
  rewrite (filter_Boolean_no_result (drop k arr)), app_nil_r.
  - by apply prefix_app_r.
  - intros j t Hj. rewrite lookup_drop in Hj. apply Hfilled in Hj. lia.
Qed.

End Aggregator.

(* ===================================================================== *)
(** * The invariant of [processFile]                                      *)
(* ===================================================================== *)

Section Pipeline.
Import JS Types GeminiService App.

Variable b : AudioBuffer.t.
Hypothesis Hvalid : AudioBuffer.valid b.

Lemma transcribed_mono evs evs' k t :
  transcribed b evs k t -> transcribed b (evs ++ evs') k t.
Proof.
  intros (part & Hin & Hok & ->). exists part. split_and!; [|done..].
  apply elem_of_app. by left.
Qed.

Lemma turns_of_chunks_mono evs evs' turns :
  turns_of_chunks b evs turns -> turns_of_chunks b (evs ++ evs') turns.
Proof. intros H k t Hk. by apply transcribed_mono, H. Qed.

Lemma promise_ok_mono evs evs' p : promise_ok b evs p -> promise_ok b (evs ++ evs') p.
Proof.
  unfold promise_ok. destruct p.2; [done| |done].
  intros [? ?]. split; [done|]. by apply transcribed_mono.
Qed.

Lemma outstanding_snoc acc evs ev :
  outstanding b acc (evs ++ [ev]) = outstanding b (outstanding b acc evs) [ev].
Proof.
  revert acc. induction evs as [|e evs IH]; intros acc; [done|].
  destruct e; simpl; apply IH.
Qed.

Lemma turns_sorted_from (off : Z) (turns : list TranscriptionTurn) :
  (forall (k : nat) t, turns !! k = Some t -> startTime t = chunkStartTime (off + Z.of_nat k)) ->
  Sorted byStart turns.
Proof.
  revert off. induction turns as [|x turns IH]; intros off H; [constructor|].
  constructor.
  - apply (IH (off + 1)). intros k t Hk.
    rewrite (H (S k) t Hk). f_equal. lia.
  - destruct turns as [|y turns]; constructor.
    unfold byStart. rewrite (H 0%nat x eq_refl), (H 1%nat y eq_refl).
    unfold chunkStartTime, CHUNK_SIZE_SECONDS. rewrite <- Zle_Qle. lia.
Qed.

Lemma turns_of_chunks_sorted evs turns :
  turns_of_chunks b evs turns -> Sorted byStart turns.
Proof.
  intros H. apply (turns_sorted_from 0). intros k t Hk.
  destruct (H k t Hk) as (part & _ & _ & ->). done.
Qed.

(** The aggregate of an array filled in chunk order is its filled part. *)
Lemma aggregate_filled evs arr turns :
  turns_of_chunks b evs turns -> filled_with b arr turns -> aggregate arr = turns.
Proof.
  intros Ht ->. unfold aggregate.
  rewrite filter_Boolean_app, filter_Boolean_Some, filter_Boolean_holes, app_nil_r.
  by eapply sort_sorted_id, turns_of_chunks_sorted.
Qed.

(** ** Promises *)

Lemma settle_fst ps j st : (settle ps j st).*1 = ps.*1.
Proof.
  unfold settle. rewrite <- list_fmap_compose. apply list_fmap_ext.
  intros ? [k st0] _. simpl. by destruct (Z.eqb_spec k j) as [->|].
Qed.

Lemma settle_length ps j st : length (settle ps j st) = length ps.
Proof. unfold settle. apply length_fmap. Qed.

Lemma settle_Forall (P : Z * PromiseState -> Prop) ps j st :
  Forall P ps -> P (j, st) -> Forall P (settle ps j st).
Proof.
  intros H Hj. unfold settle. apply Forall_fmap. eapply Forall_impl; [exact H|].
  intros [k st0] Hk. simpl. by destruct (Z.eqb_spec k j).
Qed.

Lemma pending_indices_cons k st0 ps :
  pending_indices ((k, st0) :: ps)
  = if pending st0 then k :: pending_indices ps else pending_indices ps.
Proof.
  unfold pending_indices. destruct (pending st0) eqn:E.
  - by rewrite filter_cons_True by done.
  - by rewrite filter_cons_False by (simpl; congruence).
Qed.

Lemma pending_indices_settle ps j st :
  pending st = false ->
  pending_indices (settle ps j st) = filter (fun k => k <> j) (pending_indices ps).
Proof.
  intros Hst. induction ps as [|[k st0] ps IH]; [done|].
  unfold settle in *. rewrite fmap_cons. cbn [fst].
  destruct (Z.eqb_spec k j) as [->|Hne]; rewrite !pending_indices_cons, IH.
  - rewrite Hst. destruct (pending st0); [|done].
    by rewrite filter_cons_False by (intros ?; done).
  - destruct (pending st0); [|done].
    by rewrite filter_cons_True by done.
Qed.

Lemma is_pending_elem ps j : is_pending ps j = true -> j ∈ pending_indices ps.
Proof.
  unfold is_pending, pending_indices. intros H.
  apply existsb_exists in H as ([k st] & Hin & Hk). simpl in Hk.
  apply andb_true_iff in Hk as [Hk Hp]. apply Z.eqb_eq in Hk as ->.
  apply list_elem_of_fmap. exists (j, st). split; [done|].
  apply list_elem_of_filter. split; [done|]. by apply list_elem_of_In.
Qed.

Lemma pending_indices_none ps :
  Forall (fun p => pending p.2 = false) ps -> pending_indices ps = [].
Proof.
  induction 1 as [|[k st] ps Hp _ IH]; [done|].
  rewrite pending_indices_cons. simpl in Hp. by rewrite Hp.
Qed.

Lemma pending_indices_all js :
  pending_indices ((fun j => (j, Pending)) <$> js) = js.
Proof.
  induction js as [|j js IH]; [done|].
  rewrite fmap_cons, pending_indices_cons. simpl. by rewrite IH.
Qed.

Lemma pending_indices_length ps : (length (pending_indices ps) <= length ps)%nat.
Proof. unfold pending_indices. rewrite length_fmap. apply length_filter. Qed.

Lemma all_results_spec ps results :
  all_results ps = Some results -> Forall2 (fun p r => p.2 = Resolved r) ps results.
Proof.
  unfold all_results. intros H%mapM_Some_1.
  eapply Forall2_impl; [exact H|]. intros [k st] r. simpl. destruct st; naive_solver.
Qed.

Lemma chunkCallback_Fulfilled j part r :
  chunkCallback b j part = Fulfilled r ->
  exists text, part = Fulfilled text /\ startsWith text (lit "Error:") = false
               /\ r = {| turn := makeTurn b j text; index := j |}.
Proof.
  unfold chunkCallback. destruct part as [text|e]; [|done].
  destruct (startsWith text (lit "Error:")) eqn:E; [done|].
  intros [= <-]. by exists text.
Qed.

Lemma chunkCallback_Rejected j part e :
  chunkCallback b j part = Rejected e ->
  (exists text, part = Fulfilled text /\ startsWith text (lit "Error:") = true
                /\ e = ErrorObject text)
  \/ part = Rejected e.
Proof.
  unfold chunkCallback. destruct part as [text|e']; [|intros [= ->]; by right].
  destruct (startsWith text (lit "Error:")) eqn:E; [|done].
  intros [= <-]. left. by exists text.
Qed.

Lemma chunkBatchIndices_bound (i0 : Z) :
  (length (chunkBatchIndices b i0) <= Z.to_nat CONCURRENCY_LIMIT)%nat.
Proof. rewrite chunkBatchIndices_seqZ, length_seqZ. unfold CONCURRENCY_LIMIT. lia. Qed.


(** ** The transitions keep the invariant *)

Lemma loop_invariant_frame evs evs' s s' turns :
  loop_invariant b evs s turns ->
  job s' = job s -> i s' = i s ->
  fullTranscriptionTurns s' = fullTranscriptionTurns s ->
  chunksProcessed s' = chunksProcessed s ->
  loop_invariant b (evs ++ evs') s' turns.
Proof.
  intros [] Hj Hi Hf Hc. split; rewrite ?Hj, ?Hi, ?Hf, ?Hc; try done.
  by apply turns_of_chunks_mono.
Qed.

Lemma step_begin evs s s' :
  invariant b evs s -> phase s = NotStarted -> step b s EvBegin = Some s' ->
  invariant b (evs ++ [EvBegin]) s'.
Proof.
  intros (Hph & Hout & Hnd & Hlen) Hp Hstep.
  unfold phase_invariant in Hph. rewrite Hp in Hph. subst s.
  unfold step in Hstep. simpl in Hstep. injection Hstep as <-.
  split_and!; try done.
  rewrite outstanding_snoc, Hout. done.
Qed.

Lemma step_decoded evs s s' :
  invariant b evs s -> phase s = Decoding -> step b s EvDecoded = Some s' ->
  invariant b (evs ++ [EvDecoded]) s'.
Proof.
  intros (Hph & Hout & Hnd & Hlen) Hp Hstep.
  unfold phase_invariant in Hph. rewrite Hp in Hph. destruct Hph as (Hjob & Hi & Hps).
  unfold step in Hstep. rewrite Hp in Hstep. injection Hstep as <-.
  pose proof (numChunks_nonneg b Hvalid) as Hn.
  split_and!; simpl.
  - unfold phase_invariant; simpl. split; [|constructor].
    exists []. split; simpl; rewrite ?Hjob; simpl; try done.
    + split; [done|]. by exists 0.
    + lia.
    + unfold filled_with, new_Array. simpl. by rewrite Nat.sub_0_r.
    + lia.
    + rewrite Z.min_l by lia. done.
  - rewrite outstanding_snoc, Hout, Hps. done.
  - constructor.
  - simpl. lia.
Qed.

Lemma step_decode_failed evs s s' e :
  invariant b evs s -> phase s = Decoding -> step b s (EvDecodeFailed e) = Some s' ->
  invariant b (evs ++ [EvDecodeFailed e]) s'.
Proof.
  intros (Hph & Hout & Hnd & Hlen) Hp Hstep.
  unfold phase_invariant in Hph. rewrite Hp in Hph. destruct Hph as (Hjob & Hi & Hps).
  unfold step in Hstep. rewrite Hp in Hstep. injection Hstep as <-.
  pose proof (numChunks_nonneg b Hvalid) as Hn.
  split_and!; simpl; try done.
  - unfold phase_invariant; simpl. right. rewrite Hjob, Hi. simpl.
    split_and!; try done; lia.
  - by rewrite outstanding_snoc, Hout.
Qed.

Lemma step_issue evs s s' i0 :
  invariant b evs s -> phase s = AtLoopHead -> step b s (EvIssue i0) = Some s' ->
  invariant b (evs ++ [EvIssue i0]) s'.
Proof.
  intros (Hph & Hout & Hnd & Hlen) Hp Hstep.
  unfold phase_invariant in Hph. rewrite Hp in Hph. destruct Hph as ((turns & Hinv) & Hnone).
  unfold step in Hstep. rewrite Hp in Hstep.
  destruct (decide (i0 = i s /\ i s < numChunks b)) as [[-> Hlt]|]; [|done].
  injection Hstep as <-.
  split_and!; simpl.
  - unfold phase_invariant; simpl. split_and!.
    + exists turns. by eapply loop_invariant_frame.
    + done.
    + rewrite <- list_fmap_compose. apply list_fmap_id.
    + apply Forall_fmap, Forall_true. by intros j.
    + apply Forall_fmap, Forall_true. by intros j.
  - rewrite outstanding_snoc, Hout, (pending_indices_none _ Hnone). simpl.
    by rewrite pending_indices_all.
  - rewrite <- list_fmap_compose, list_fmap_id, chunkBatchIndices_seqZ. apply NoDup_seqZ.
  - rewrite length_fmap. apply chunkBatchIndices_bound.
Qed.

Lemma step_done evs s s' :
  invariant b evs s -> phase s = AtLoopHead -> step b s EvDone = Some s' ->
  invariant b (evs ++ [EvDone]) s'.
Proof.
  intros (Hph & Hout & Hnd & Hlen) Hp Hstep.
  unfold phase_invariant in Hph. rewrite Hp in Hph. destruct Hph as ((turns & Hinv) & Hnone).
  unfold step in Hstep. rewrite Hp in Hstep.
  destruct (decide (i s < numChunks b)) as [|Hge]; [done|].
  injection Hstep as <-. destruct Hinv.
  assert (aggregate (fullTranscriptionTurns s) = turns) as Hagg by by eapply aggregate_filled.
  split_and!; simpl; try done.
  - unfold phase_invariant; simpl. left. rewrite Hagg, inv_error0.
    split_and!; try done.
    + lia.
    + by apply turns_of_chunks_mono.
    + by apply pending_indices_none.
  - by rewrite outstanding_snoc, Hout.
Qed.

Lemma step_settle_awaiting evs s s' j part :
  invariant b evs s -> phase s = AwaitingAll -> step b s (EvSettle j part) = Some s' ->
  invariant b (evs ++ [EvSettle j part]) s'.
Proof.
  intros (Hph & Hout & Hnd & Hlen) Hp Hstep.
  unfold phase_invariant in Hph. rewrite Hp in Hph.
  destruct Hph as ((turns & Hinv) & Hlt & Hfst & Hok & Hnf).
  unfold step in Hstep. rewrite Hp in Hstep.
  destruct (is_pending (promises s) j) eqn:Hpend; [|done].
  destruct (chunkCallback b j part) as [r|e] eqn:Hcb; injection Hstep as <-.
  - apply chunkCallback_Fulfilled in Hcb as (text & -> & Htext & ->).
    split_and!; simpl.
    + unfold phase_invariant; simpl. split_and!.
      * exists turns. by eapply loop_invariant_frame.
      * done.
      * by rewrite settle_fst.
      * apply settle_Forall.
        -- eapply Forall_impl; [exact Hok|]. intros p. apply promise_ok_mono.
        -- split; [done|]. simpl. exists text. split_and!; [|done..].
           apply elem_of_app. right. by apply list_elem_of_singleton.
      * by apply settle_Forall.
    + rewrite outstanding_snoc, Hout. simpl. by rewrite pending_indices_settle.
    + by rewrite settle_fst.
    + by rewrite settle_length.
  - destruct Hinv. split_and!; simpl.
    + unfold phase_invariant; simpl. right. split_and!; try done.
      * by rewrite inv_transcription0.
      * rewrite inv_transcription0. by apply turns_of_chunks_mono.
    + rewrite outstanding_snoc, Hout. simpl. by rewrite pending_indices_settle.
    + by rewrite settle_fst.
    + by rewrite settle_length.
Qed.

Lemma step_settle_returned evs s s' j part :
  invariant b evs s -> phase s = Returned -> step b s (EvSettle j part) = Some s' ->
  invariant b (evs ++ [EvSettle j part]) s'.
Proof.
  intros (Hph & Hout & Hnd & Hlen) Hp Hstep.
  unfold phase_invariant in Hph. rewrite Hp in Hph.
  unfold step in Hstep. rewrite Hp in Hstep.
  destruct (is_pending (promises s) j) eqn:Hpend; [|done].
  injection Hstep as <-.
  assert (pending match chunkCallback b j part with
                  | Fulfilled r => Resolved r
                  | Rejected e => Failed e
                  end = false) as Hnp by by destruct (chunkCallback b j part).
  split_and!; simpl.
  - unfold phase_invariant; simpl.
    destruct Hph as [(_ & _ & _ & _ & _ & Hnone)|(? & ? & ? & ? & ?)].
    + apply is_pending_elem in Hpend. rewrite Hnone in Hpend. by apply elem_of_nil in Hpend.
    + right. split_and!; try done. by apply turns_of_chunks_mono.
  - rewrite outstanding_snoc, Hout. simpl. by rewrite pending_indices_settle.
  - by rewrite settle_fst.
  - by rewrite settle_length.
Qed.

(** What [Promise.all] hands over when the wave at [i s] is complete. *)
Lemma wave_results evs s results :
  invariant b evs s -> phase s = AwaitingAll ->
  all_results (promises s) = Some results ->
  Z.of_nat (length results) = Z.min CONCURRENCY_LIMIT (numChunks b - i s)
  /\ Forall (fun p => pending p.2 = false) (promises s)
  /\ forall (k : nat) r, results !! k = Some r ->
       index r = i s + Z.of_nat k /\ transcribed b evs (i s + Z.of_nat k) (turn r).
Proof.
  intros (Hph & Hout & Hnd & Hlen) Hp Hall.
  unfold phase_invariant in Hph. rewrite Hp in Hph.
  destruct Hph as ((turns & Hinv) & Hlt & Hfst & Hok & Hnf).
  apply all_results_spec in Hall.
  split_and!.
  - rewrite <- (Forall2_length _ _ _ Hall), <- (length_fmap fst), Hfst.
    by apply chunkBatchIndices_length.
  - clear -Hall. induction Hall as [|p r ps rs Hp _ IH]; constructor; [|done].
    by rewrite Hp.
  - intros k r Hk.
    destruct (Forall2_lookup_r _ _ _ _ _ Hall Hk) as (p & Hpk & Hpr).
    assert (p.1 = i s + Z.of_nat k) as Hidx.
    { assert ((promises s).*1 !! k = Some p.1) as H1 by by rewrite list_lookup_fmap, Hpk.
      rewrite Hfst, chunkBatchIndices_seqZ in H1. by apply lookup_seqZ in H1 as [-> _]. }
    rewrite Forall_lookup in Hok. specialize (Hok k p Hpk).
    unfold promise_ok in Hok. rewrite Hpr, Hidx in Hok. done.
Qed.

(** Storing a complete wave: the filled part of the array grows by the
    turns of the wave, in chunk order. *)
Lemma wave_store evs s results turns :
  loop_invariant b evs s turns ->
  i s < numChunks b ->
  Z.of_nat (length results) = Z.min CONCURRENCY_LIMIT (numChunks b - i s) ->
  (forall (k : nat) r, results !! k = Some r ->
     index r = i s + Z.of_nat k /\ transcribed b evs (i s + Z.of_nat k) (turn r)) ->
  let turns' := turns ++ (turn <$> results) in
  turns_of_chunks b evs turns'
  /\ filled_with b (storeResults (fullTranscriptionTurns s) results) turns'
  /\ aggregate (storeResults (fullTranscriptionTurns s) results) = turns'.
Proof.
  intros [] Hlt Hlen_r Hres turns'.
  assert (Z.of_nat (length turns) = i s) as Hlt_turns by lia.
  assert (turns_of_chunks b evs turns') as Hturns'.
  { intros k t Hk. unfold turns' in Hk.
    apply lookup_app_Some in Hk as [Hk|[Hge Hk]]; [by apply inv_turns0|].
    rewrite list_lookup_fmap in Hk.
    destruct (results !! (k - length turns)%nat) as [r|] eqn:Hr; [|done].
    injection Hk as <-. destruct (Hres _ _ Hr) as [_ Ht].
    replace (Z.of_nat k) with (i s + Z.of_nat (k - length turns)) by lia. done. }
  assert (filled_with b (storeResults (fullTranscriptionTurns s) results) turns') as Hfill.
  { unfold filled_with in *. rewrite inv_array0. unfold turns'.
    rewrite storeResults_consecutive.
    - rewrite fmap_app, <- list_fmap_compose, <- app_assoc, length_app, length_fmap.
      do 2 f_equal. f_equal. lia.
    - intros k r Hr. destruct (Hres _ _ Hr) as [-> _]. rewrite length_fmap. lia.
    - unfold CONCURRENCY_LIMIT in *. lia. }
  split_and!; [done..|]. by eapply aggregate_filled.
Qed.

(** The state after a wave is complete. *)
Lemma wave_done_spec evs s s' :
  invariant b evs s -> step b s EvWaveDone = Some s' ->
  exists results turns,
    phase s = AwaitingAll
    /\ loop_invariant b evs s turns
    /\ i s < numChunks b
    /\ Z.of_nat (length results) = Z.min CONCURRENCY_LIMIT (numChunks b - i s)
    /\ Forall (fun p => pending p.2 = false) (promises s)
    /\ turns_of_chunks b evs (turns ++ (turn <$> results))
    /\ filled_with b (fullTranscriptionTurns s') (turns ++ (turn <$> results))
    /\ s' = {| job := {| status := status (job s);
                         progress := progressAfter b (chunksProcessed s
                                                      + Z.of_nat (length results));
                         transcription := turns ++ (turn <$> results);
                         error := error (job s) |};
               phase := AtLoopHead;
               i := i s + CONCURRENCY_LIMIT;
               fullTranscriptionTurns := storeResults (fullTranscriptionTurns s) results;
               chunksProcessed := chunksProcessed s + Z.of_nat (length results);
               promises := promises s |}.
Proof.
  intros Hinv0 Hstep.
  destruct (phase s) eqn:Hp; try (unfold step in Hstep; rewrite Hp in Hstep; discriminate).
  unfold step in Hstep. rewrite Hp in Hstep.
  destruct (all_results (promises s)) as [results|] eqn:Hall; [|done].
  destruct (wave_results evs s results Hinv0 Hp Hall) as (Hlen_r & Hnone & Hres).
  destruct Hinv0 as (Hph & Hout & Hnd & Hlen).
  unfold phase_invariant in Hph. rewrite Hp in Hph.
  destruct Hph as ((turns & Hinv) & Hlt & Hfst & Hok & Hnf).
  destruct (wave_store evs s results turns Hinv Hlt Hlen_r Hres) as (Ht & Hf & Hagg).
  injection Hstep as <-. exists results, turns. simpl.
  split_and!; try done. unfold updateFileState. simpl. by rewrite Hagg.
Qed.

Lemma step_wave_done evs s s' :
  invariant b evs s -> phase s = AwaitingAll -> step b s EvWaveDone = Some s' ->
  invariant b (evs ++ [EvWaveDone]) s'.
Proof.
  intros Hinv0 Hp Hstep.
  destruct (wave_done_spec evs s s' Hinv0 Hstep)
    as (results & turns & _ & Hinv & Hlt & Hlen_r & Hnone & Ht & Hf & ->).
  destruct Hinv0 as (Hph & Hout & Hnd & Hlen).
  destruct Hinv. destruct inv_i0 as [Hi0 [w Hw]].
  split_and!; simpl; try done.
  - unfold phase_invariant; simpl. split; [|done].
    exists (turns ++ (turn <$> results)). split; simpl; try done.
    + split; [unfold CONCURRENCY_LIMIT; lia|]. exists (w + 1). lia.
    + by apply turns_of_chunks_mono.
    + rewrite length_app, length_fmap. unfold CONCURRENCY_LIMIT in *. lia.
    + unfold CONCURRENCY_LIMIT in *. lia.
    + unfold shown_progress. rewrite decide_False by (unfold CONCURRENCY_LIMIT in *; lia).
      f_equal. unfold CONCURRENCY_LIMIT in *. lia.
  - by rewrite outstanding_snoc, Hout.
Qed.

(** Every transition keeps the invariant. *)
Lemma step_invariant evs s ev s' :
  invariant b evs s -> step b s ev = Some s' -> invariant b (evs ++ [ev]) s'.
Proof.
  intros Hinv Hstep. destruct (phase s) eqn:Hp, ev;
    try (unfold step in Hstep; rewrite Hp in Hstep; discriminate).
  - by apply (step_begin evs s).
  - by apply (step_decoded evs s).
  - by apply (step_decode_failed evs s).
  - by apply (step_issue evs s).
  - by apply (step_done evs s).
  - by apply (step_settle_awaiting evs s).
  - by apply (step_wave_done evs s).
  - by apply (step_settle_returned evs s).
Qed.

Lemma initial_invariant : invariant b [] (initial).
Proof. split_and!; simpl; try done. constructor. lia. Qed.

Lemma run_app s evs evs' :
  run b s (evs ++ evs') = match run b s evs with Some s' => run b s' evs' | None => None end.
Proof.
  revert s. induction evs as [|ev evs IH]; intros s; simpl; [done|].
  destruct (step b s ev); [apply IH|done].
Qed.

Lemma run_invariant_from evs0 s evs s' :
  invariant b evs0 s -> run b s evs = Some s' -> invariant b (evs0 ++ evs) s'.
Proof.
  revert evs0 s. induction evs as [|ev evs IH]; intros evs0 s Hinv Hrun; simpl in Hrun.
  - injection Hrun as <-. by rewrite app_nil_r.
  - destruct (step b s ev) as [s1|] eqn:Hstep; [|done].
    replace (evs0 ++ ev :: evs) with ((evs0 ++ [ev]) ++ evs) by by rewrite <- app_assoc.
    eapply IH; [|done]. by apply (step_invariant evs0 s).
Qed.

(** The invariant holds after every run of [processFile]. *)
Lemma run_invariant evs s :
  run b initial evs = Some s -> invariant b evs s.
Proof. intros H. apply (run_invariant_from [] initial _ _ initial_invariant H). Qed.


(** ** Consequences of the invariant *)

(** Once [processFile] has returned, only requests still in flight can
    complete, and the job no longer changes. *)
Lemma returned_run s evs s' :
  phase s = Returned -> run b s evs = Some s' ->
  phase s' = Returned /\ job s' = job s
  /\ Forall (fun ev => exists j part, ev = EvSettle j part) evs.
Proof.
  revert s. induction evs as [|ev evs IH]; intros s Hp Hrun; simpl in Hrun.
  { injection Hrun as <-. by split_and!. }
  destruct (step b s ev) as [s1|] eqn:Hstep; [|done].
  unfold step in Hstep. rewrite Hp in Hstep.
  destruct ev as [| | | |j part| |]; try done.
  destruct (is_pending (promises s) j); [|done]. injection Hstep as <-.
  destruct (IH _ (eq_refl : phase (with_promises s _ Returned) = Returned) Hrun)
    as (? & ? & ?).
  split_and!; try done. constructor; [by exists j, part|done].
Qed.

Lemma step_transcription_prefix evs s ev s' :
  invariant b evs s -> step b s ev = Some s' ->
  transcription (job s) `prefix_of` transcription (job s').
Proof.
  intros Hinv Hstep.
  destruct (phase s) eqn:Hp, ev;
    try (unfold step in Hstep; rewrite Hp in Hstep; discriminate).
  - unfold step in Hstep. rewrite Hp in Hstep. by injection Hstep as <-.
  - unfold step in Hstep. rewrite Hp in Hstep. by injection Hstep as <-.
  - unfold step in Hstep. rewrite Hp in Hstep. by injection Hstep as <-.
  - unfold step in Hstep. rewrite Hp in Hstep.
    destruct (decide _); [|done]. by injection Hstep as <-.
  - destruct Hinv as (Hph & _). unfold phase_invariant in Hph. rewrite Hp in Hph.
    destruct Hph as ((turns & Hinv) & _). destruct Hinv.
    unfold step in Hstep. rewrite Hp in Hstep.
    destruct (decide _); [done|]. injection Hstep as <-. simpl.
    erewrite aggregate_filled by done. by rewrite inv_transcription0.
  - unfold step in Hstep. rewrite Hp in Hstep.
    destruct (is_pending _ _); [|done].
    destruct (chunkCallback _ _ _); by injection Hstep as <-.
  - destruct (wave_done_spec evs s s' Hinv Hstep)
      as (results & turns & _ & [] & _ & _ & _ & _ & _ & ->). simpl.
    rewrite inv_transcription0. by apply prefix_app_r.
  - unfold step in Hstep. rewrite Hp in Hstep.
    destruct (is_pending _ _); [|done]. by injection Hstep as <-.
Qed.

Lemma run_transcription_prefix evs s evs' s' :
  invariant b evs s -> run b s evs' = Some s' ->
  transcription (job s) `prefix_of` transcription (job s').
Proof.
  revert evs s. induction evs' as [|ev evs' IH]; intros evs s Hinv Hrun; simpl in Hrun.
  { by injection Hrun as <-. }
  destruct (step b s ev) as [s1|] eqn:Hstep; [|done].
  etrans; [by eapply step_transcription_prefix|].
  eapply IH; [|done]. by apply (step_invariant evs s).
Qed.

(** Every turn the job shows stands in the place of its chunk and is made
    of the text that came back for that chunk. *)
Lemma invariant_transcription evs s :
  invariant b evs s -> turns_of_chunks b evs (transcription (job s)).
Proof.
  intros (Hph & _). unfold phase_invariant in Hph.
  destruct (phase s).
  - subst s. by intros k t ?.
  - destruct Hph as (-> & _). by intros k t ?.
  - destruct Hph as ((turns & Hl) & _).
    rewrite (inv_transcription _ _ _ _ Hl). apply (inv_turns _ _ _ _ Hl).
  - destruct Hph as ((turns & Hl) & _).
    rewrite (inv_transcription _ _ _ _ Hl). apply (inv_turns _ _ _ _ Hl).
  - destruct Hph as [(_ & _ & _ & _ & ? & _)|(_ & _ & _ & _ & ?)]; done.
Qed.

(** When the loop is at its head, every chunk of the waves before is in
    the transcript. *)
Lemma invariant_loop_head evs s :
  invariant b evs s -> phase s = AtLoopHead ->
  Z.of_nat (length (transcription (job s))) = Z.min (i s) (numChunks b).
Proof.
  intros (Hph & _) Hp. unfold phase_invariant in Hph. rewrite Hp in Hph.
  destruct Hph as ((turns & Hl) & _).
  rewrite (inv_transcription _ _ _ _ Hl). apply (inv_length _ _ _ _ Hl).
Qed.

(** ** Progress *)

Lemma numChunks_small : numChunks b < 2 ^ 32.
Proof.
  pose proof (numChunks_bounds b Hvalid). pose proof (chunkTotalSamples_pos b Hvalid).
  destruct Hvalid as [_ ?]. unfold totalSamples in *. nia.
Qed.

Lemma progressAfter_bounds (m : Z) :
  0 <= m <= numChunks b -> 0 < numChunks b -> 5 <= progressAfter b m <= 95.
Proof.
  intros Hm Hn. unfold progressAfter.
  destruct (scaled_ratio_bounds m (numChunks b) Hm Hn) as [H0 H90].
  apply Math_round_mono in H0, H90.
  change (Math_round 0) with 0 in H0. change (Math_round 90) with 90 in H90. lia.
Qed.

Lemma progressAfter_mono (m m' : Z) :
  m <= m' -> 0 < numChunks b -> progressAfter b m <= progressAfter b m'.
Proof.
  intros Hm Hn. unfold progressAfter.
  pose proof (scaled_ratio_mono m m' (numChunks b) Hm Hn) as H.
  apply Math_round_mono in H. lia.
Qed.

(** Against the rounding of the exact quotient. *)
Lemma progressAfter_exact (m : Z) :
  0 <= m <= numChunks b -> 0 < numChunks b ->
  let exact := progress_by_spec m (numChunks b) in
  exact - 1 <= progressAfter b m <= exact
  /\ ((180 * m + numChunks b) mod (2 * numChunks b) <> 0 -> progressAfter b m = exact).
Proof.
  intros Hm Hn exact. subst exact. unfold progress_by_spec. rewrite Math_round_div by done.
  replace (2 * (90 * m)) with (180 * m) by lia.
  pose proof numChunks_small as Hs.
  destruct (scaled_ratio_round m (numChunks b) Hm ltac:(lia)) as [H1 H2].
  unfold progressAfter. split; [lia|]. intros H. rewrite H2 by done. done.
Qed.

Lemma shown_progress_bounds (m : Z) :
  0 <= m <= numChunks b -> 5 <= shown_progress b m <= 95.
Proof.
  intros Hm. unfold shown_progress. destruct (decide (m = 0)); [lia|].
  apply progressAfter_bounds; lia.
Qed.

Lemma shown_progress_mono (m m' : Z) :
  0 <= m <= m' -> m' <= numChunks b -> shown_progress b m <= shown_progress b m'.
Proof.
  intros Hm Hm'. pose proof (shown_progress_bounds m' ltac:(lia)).
  unfold shown_progress in *. destruct (decide (m = 0)); [lia|].
  rewrite decide_False in * by lia.
  apply progressAfter_mono; lia.
Qed.

(** A job that is Transcribing is in the loop, and shows the progress of
    the waves completed so far. *)
Lemma transcribing_state evs s :
  invariant b evs s -> status (job s) = TRANSCRIBING ->
  (phase s = AtLoopHead \/ phase s = AwaitingAll)
  /\ 0 <= i s
  /\ progress (job s) = shown_progress b (Z.min (i s) (numChunks b)).
Proof.
  intros (Hph & _) Hst. unfold phase_invariant in Hph.
  destruct (phase s) eqn:Hp.
  - subst s. done.
  - destruct Hph as (Hjob & _). by rewrite Hjob in Hst.
  - destruct Hph as ((turns & []) & _). split_and!; [by left|lia|done].
  - destruct Hph as ((turns & []) & _). split_and!; [by right|lia|done].
  - destruct Hph as [(? & _)|(? & _)]; congruence.
Qed.

Lemma invariant_progress evs s :
  invariant b evs s ->
  0 <= progress (job s) <= 100
  /\ (progress (job s) = 100 <-> status (job s) = DONE).
Proof.
  intros Hinv. pose proof (numChunks_nonneg b Hvalid) as Hn.
  destruct (decide (status (job s) = TRANSCRIBING)) as [Hst|Hst].
  { destruct (transcribing_state evs s Hinv Hst) as (_ & Hi & ->).
    pose proof (shown_progress_bounds (Z.min (i s) (numChunks b)) ltac:(lia)).
    rewrite Hst. split; [lia|]. split; [lia|done]. }
  destruct Hinv as (Hph & _). unfold phase_invariant in Hph.
  destruct (phase s) eqn:Hp.
  - subst s. simpl. split; [lia|]. split; [lia|done].
  - destruct Hph as (-> & _). simpl. split; [lia|]. split; [lia|done].
  - destruct Hph as ((turns & []) & _). done.
  - destruct Hph as ((turns & []) & _). done.
  - destruct Hph as [(-> & -> & _)|(-> & -> & _)]; (split; [lia|]); split; done.
Qed.

Lemma step_i_mono evs s ev s' :
  invariant b evs s -> status (job s) = TRANSCRIBING -> step b s ev = Some s' ->
  i s <= i s'.
Proof.
  intros Hinv Hst Hstep.
  destruct (transcribing_state evs s Hinv Hst) as ([Hp|Hp] & _ & _);
    unfold step in Hstep; rewrite Hp in Hstep; destruct ev; try done.
  - destruct (decide _); [|done]. by injection Hstep as <-.
  - destruct (decide _); [done|]. by injection Hstep as <-.
  - destruct (is_pending _ _); [|done].
    destruct (chunkCallback _ _ _); by injection Hstep as <-.
  - destruct (all_results _); [|done]. injection Hstep as <-. simpl.
    unfold CONCURRENCY_LIMIT. lia.
Qed.

Lemma step_transcribing evs s ev s' :
  invariant b evs s -> status (job s) = TRANSCRIBING -> step b s ev = Some s' ->
  status (job s') = TRANSCRIBING \/ phase s' = Returned.
Proof.
  intros Hinv Hst Hstep.
  destruct (transcribing_state evs s Hinv Hst) as ([Hp|Hp] & _ & _);
    unfold step in Hstep; rewrite Hp in Hstep; destruct ev; try done.
  - destruct (decide _); [|done]. injection Hstep as <-. by left.
  - destruct (decide _); [done|]. injection Hstep as <-. by right.
  - destruct (is_pending _ _); [|done].
    destruct (chunkCallback _ _ _); injection Hstep as <-; [by left|by right].
  - destruct (all_results _); [|done]. injection Hstep as <-. by left.
Qed.

Lemma run_progress_mono evs s evs' s' :
  invariant b evs s -> run b s evs' = Some s' ->
  status (job s) = TRANSCRIBING -> status (job s') = TRANSCRIBING ->
  progress (job s) <= progress (job s').
Proof.
  intros Hinv Hrun Hst Hst'.
  assert (i s <= i s') as Hi.
  { revert evs s Hinv Hrun Hst. induction evs' as [|ev evs' IH]; intros evs s Hinv Hrun Hst.
    { simpl in Hrun. by injection Hrun as <-. }
    simpl in Hrun. destruct (step b s ev) as [s1|] eqn:Hstep; [|done].
    pose proof (step_invariant evs s ev s1 Hinv Hstep) as Hinv1.
    pose proof (step_i_mono evs s ev s1 Hinv Hst Hstep).
    destruct (step_transcribing evs s ev s1 Hinv Hst Hstep) as [Hst1|Hp1].
    { etrans; [done|]. by eapply IH. }
    destruct (returned_run s1 evs' s' Hp1 Hrun) as (_ & Hjob & _).
    destruct Hinv1 as (Hph & _). unfold phase_invariant in Hph. rewrite Hp1 in Hph.
    rewrite Hjob in Hst'. destruct Hph as [(? & _)|(? & _)]; congruence. }
  pose proof (run_invariant_from evs s evs' s' Hinv Hrun) as Hinv'.
  destruct (transcribing_state evs s Hinv Hst) as (_ & H0 & ->).
  destruct (transcribing_state _ s' Hinv' Hst') as (_ & H0' & ->).
  pose proof (numChunks_nonneg b Hvalid).
  apply shown_progress_mono; lia.
Qed.

(** ** Waves *)

Lemma waves_elem (i0 : Z) (w : nat) :
  i0 + Z.of_nat w * CONCURRENCY_LIMIT < numChunks b ->
  chunkBatchIndices b (i0 + Z.of_nat w * CONCURRENCY_LIMIT) ∈ waves b i0.
Proof.
  revert i0. induction w as [|w IH]; intros i0 Hlt.
  - rewrite Z.add_0_r in *. simp waves.
    destruct (decide (i0 < numChunks b)); [|lia]. simpl. apply list_elem_of_here.
  - simp waves. destruct (decide (i0 < numChunks b)); [|unfold CONCURRENCY_LIMIT in *; lia].
    simpl. apply list_elem_of_further.
    replace (i0 + Z.of_nat (S w) * CONCURRENCY_LIMIT)
      with ((i0 + CONCURRENCY_LIMIT) + Z.of_nat w * CONCURRENCY_LIMIT) by lia.
    apply IH. lia.
Qed.

End Pipeline.

(* ===================================================================== *)
(** * The batch pipeline: the claims                                      *)
(* ===================================================================== *)

Section BatchClaims.
Import JS Types GeminiService App.

(** C1 (chunk planning coverage).  For a decoded source of [totalSamples]
    samples at [sampleRate] and duration [D], [processFile] goes through
    [n = ceil(totalSamples / (20 * sampleRate))] chunks, the indices
    [0 .. n-1] in order.  Chunk [i] has the time range
    [[i * 20, min((i + 1) * 20, D))]; the range is not empty, each range
    ends where the next one starts, the last one ends at [D], and every
    instant of [[0, D)] lies in exactly one range. *)
Theorem chunk_planning_coverage (b : AudioBuffer.t) :
  AudioBuffer.valid b ->
  let n := numChunks b in
  let D := AudioBuffer.duration b in
  n = Qceiling (inject_Z (AudioBuffer.length b) / inject_Z (20 * AudioBuffer.sampleRate b))
  /\ (n - 1) * (20 * AudioBuffer.sampleRate b) < AudioBuffer.length b
     <= n * (20 * AudioBuffer.sampleRate b)
  /\ concat (waves b 0) = seqZ 0 n
  /\ (forall i, 0 <= i < n ->
        (chunkStartTime i == inject_Z i * 20)%Q
        /\ (chunkEndTime b i == Qmin (inject_Z (i + 1) * 20) D)%Q
        /\ (chunkStartTime i < chunkEndTime b i)%Q
        /\ (i + 1 < n -> chunkEndTime b i = chunkStartTime (i + 1))
        /\ (i + 1 = n -> (chunkEndTime b i == D)%Q))
  /\ (forall t : Q,
        (0 <= t < D)%Q <->
        exists i, 0 <= i < n /\ (chunkStartTime i <= t < chunkEndTime b i)%Q)
  /\ (forall i j (t : Q),
        (chunkStartTime i <= t < chunkEndTime b i)%Q ->
        (chunkStartTime j <= t < chunkEndTime b j)%Q -> i = j).
Proof.
  intros Hvalid n D. subst n D.
  split; [|split; [|split; [|split; [|split]]]].
  - apply (numChunks_exact b Hvalid).
  - apply (numChunks_bounds b Hvalid).
  - pose proof (waves_concat b 0 ltac:(lia)) as H. by rewrite Z.sub_0_r in H.
  - intros i Hi. split_and!.
    + apply chunkStartTime_Q.
    + unfold chunkEndTime, Math_min, CHUNK_SIZE_SECONDS. rewrite inject_Z_mult.
      destruct (Qle_bool _ _) eqn:E.
      * apply Qle_bool_iff in E. by rewrite Q.min_l.
      * assert (~ (inject_Z (i + 1) * inject_Z 20 <= AudioBuffer.duration b)%Q) as E'
          by (rewrite <- Qle_bool_iff; congruence).
        rewrite Q.min_r; [reflexivity|]. apply Qlt_le_weak, Qnot_le_lt, E'.
    + by apply chunk_nonempty.
    + by apply chunkEndTime_inner.
    + by apply chunkEndTime_last.
  - intros t. split.
    + by apply chunk_of_instant.
    + intros (i & Hi & Hlo & Hhi). split.
      * eapply Qle_trans; [|exact Hlo]. rewrite chunkStartTime_Q.
        assert (0 <= inject_Z i)%Q by (change 0%Q with (inject_Z 0); rewrite <- Zle_Qle; lia).
        lra.
      * eapply Qlt_le_trans; [exact Hhi|]. apply chunkEndTime_le_duration.
  - intros i j t. apply chunk_of_instant_unique.
Qed.

(** C2 (order restoration).  The aggregate of the results known so far is
    sorted by ascending start time and holds exactly the turns of the
    filled slots.  Results stored into free slots, in any order, add
    exactly their turns to it, and the order in which they are stored does
    not matter: from an array of holes the transcript is the turns of the
    results, sorted.  Adding results to an array filled at planned slots drops
    and reorders nothing, and results of later slots extend the transcript
    at its end.  Along every run of [processFile] each transcript the job
    shows is a prefix of every later one, holds in place [k] the turn made
    of the text that came back for chunk [k], and, whenever the loop is at
    its head, holds the turns of all the chunks of the waves before. *)
Theorem aggregation_order_restoration (b : AudioBuffer.t) :
  AudioBuffer.valid b ->
  (forall arr,
     Sorted byStart (aggregate arr)
     /\ aggregate arr ≡ₚ filter_Boolean arr
     /\ forall t, t ∈ aggregate arr <-> exists j : nat, arr !! j = Some (Some t))
  /\ (forall arr rs,
        Forall (fun r => 0 <= index r < Z.of_nat (length arr)) rs ->
        NoDup (index <$> rs) ->
        (forall r, r ∈ rs -> arr !! Z.to_nat (index r) = Some None) ->
        aggregate (storeResults arr rs) ≡ₚ aggregate arr ++ (turn <$> rs))
  /\ (forall arr rs rs',
        Forall (fun r => 0 <= index r < Z.of_nat (length arr)) rs ->
        NoDup (index <$> rs) ->
        rs ≡ₚ rs' ->
        aggregate (storeResults arr rs') = aggregate (storeResults arr rs))
  /\ (forall n rs rs',
        Forall (fun r => 0 <= index r < n) rs ->
        NoDup (index <$> rs) ->
        rs ≡ₚ rs' ->
        Sorted byStart (aggregate (storeResults (new_Array n) rs'))
        /\ aggregate (storeResults (new_Array n) rs') ≡ₚ turn <$> rs)
  /\ (forall arr arr',
        planned arr' -> extends arr arr' ->
        aggregate arr `sublist_of` aggregate arr')
  /\ (forall arr rs (k : nat),
        (forall (j : nat) t, arr !! j = Some (Some t) -> (j < k)%nat) ->
        Forall (fun r => Z.of_nat k <= index r < Z.of_nat (length arr)) rs ->
        planned (storeResults arr rs) ->
        aggregate arr `prefix_of` aggregate (storeResults arr rs))
  /\ (forall evs s evs' s',
        run b initial evs = Some s -> run b s evs' = Some s' ->
        transcription (job s) `prefix_of` transcription (job s'))
  /\ (forall evs s,
        run b initial evs = Some s ->
        (forall (k : nat) t,
           transcription (job s) !! k = Some t ->
           exists part,
             EvSettle (Z.of_nat k) (Fulfilled part) ∈ evs
             /\ t = makeTurn b (Z.of_nat k) part)
        /\ (phase s = AtLoopHead ->
            Z.of_nat (length (transcription (job s))) = Z.min (i s) (numChunks b))).
Proof.
  intros Hvalid. split_and!.
  - intros arr. split; [apply aggregate_Sorted|]. split; [apply aggregate_Permutation|].
    intros t. rewrite aggregate_Permutation. apply filter_Boolean_elem.
  - intros arr rs Hrs Hnd Hholes.
    rewrite !aggregate_Permutation. by apply filter_Boolean_storeResults.
  - intros arr rs rs' Hrs Hnd Hp. by rewrite (storeResults_Permutation arr rs rs').
  - intros n rs rs' Hrs Hnd Hp. split; [apply aggregate_Sorted|].
    assert (Forall (fun r => 0 <= index r < Z.of_nat (length (@new_Array TranscriptionTurn n)))
                   rs) as Hrs'.
    { eapply Forall_impl; [exact Hrs|]. intros r Hr. simpl in Hr.
      unfold new_Array. rewrite length_replicate. lia. }
    rewrite (storeResults_Permutation _ rs rs') by done.
    rewrite aggregate_Permutation, filter_Boolean_storeResults; try done.
    + unfold new_Array. by rewrite filter_Boolean_holes.
    + intros r Hr. rewrite Forall_forall in Hrs. specialize (Hrs r Hr).
      unfold new_Array. apply lookup_replicate_2. lia.
  - intros arr arr' Hpl Hext.
    assert (planned arr) as Hpl0.
    { intros j t Hj. apply Hpl. by apply Hext. }
    rewrite !aggregate_planned by done. by apply filter_Boolean_extends.
  - intros arr rs k. apply aggregate_later_slots.
  - intros evs s evs' s' Hrun Hrun'.
    eapply (run_transcription_prefix b Hvalid); [|done].
    by apply run_invariant.
  - intros evs s Hrun. pose proof (run_invariant b Hvalid evs s Hrun) as Hinv. split.
    + intros k t Hk.
      destruct (invariant_transcription b evs s Hinv k t Hk) as (part & Hin & _ & ->).
      by exists part.
    + by apply (invariant_loop_head b evs).
Qed.

(** C3 (wave barrier).  The [n] chunks are split into [ceil(n / 10)] waves
    of at most 10 chunks each.  Along every run of [processFile] at most
    10 requests are in flight, and when the requests of a wave go out no
    request is in flight and every chunk of the earlier waves has
    completed. *)
Theorem wave_barrier (b : AudioBuffer.t) :
  AudioBuffer.valid b ->
  let n := numChunks b in
  concat (waves b 0) = seqZ 0 n
  /\ Z.of_nat (length (waves b 0)) = (n + CONCURRENCY_LIMIT - 1) / CONCURRENCY_LIMIT
  /\ (forall w, w ∈ waves b 0 -> 0 < Z.of_nat (length w) <= CONCURRENCY_LIMIT)
  /\ (forall evs s,
        run b initial evs = Some s ->
        Z.of_nat (length (outstanding b [] evs)) <= CONCURRENCY_LIMIT
        /\ forall evs1 i0 evs2,
             evs = evs1 ++ EvIssue i0 :: evs2 ->
             chunkBatchIndices b i0 ∈ waves b 0
             /\ outstanding b [] evs1 = []
             /\ forall j, 0 <= j < i0 -> exists part, EvSettle j part ∈ evs1).
Proof.
  intros Hvalid n. subst n. pose proof (numChunks_nonneg b Hvalid) as Hn. split_and!.
  - pose proof (waves_concat b 0 ltac:(lia)) as H. by rewrite Z.sub_0_r in H.
  - rewrite waves_length, Z.sub_0_r. apply Z.max_r.
    apply Z.div_pos; unfold CONCURRENCY_LIMIT; lia.
  - intros w Hw. pose proof (waves_bounded b 0 w Hw). unfold CONCURRENCY_LIMIT in *. lia.
  - intros evs s Hrun. split.
    + destruct (run_invariant b Hvalid evs s Hrun) as (_ & -> & _ & Hlen).
      pose proof (pending_indices_length (promises s)). unfold CONCURRENCY_LIMIT in *. lia.
    + intros evs1 i0 evs2 ->. rewrite run_app in Hrun.
      destruct (run b initial evs1) as [s1|] eqn:Hrun1; [|done].
      simpl in Hrun. destruct (step b s1 (EvIssue i0)) as [s2|] eqn:Hstep; [|done].
      destruct (run_invariant b Hvalid evs1 s1 Hrun1) as (Hph & Hout & _).
      unfold step in Hstep. unfold phase_invariant in Hph.
      destruct (phase s1); try done.
      destruct (decide (i0 = i s1 /\ i s1 < numChunks b)) as [[-> Hlt]|]; [|done].
      destruct Hph as ((turns & []) & Hnone). destruct inv_i0 as [Hi0 [w Hw]].
      split_and!.
      * assert (0 <= w) by (unfold CONCURRENCY_LIMIT in *; lia).
        rewrite Hw, <- (Z2Nat.id w), <- (Z.add_0_l (_ * _)) by done.
        apply waves_elem. unfold CONCURRENCY_LIMIT in *. lia.
      * by rewrite Hout, pending_indices_none.
      * intros j Hj.
        destruct (lookup_lt_is_Some_2 turns (Z.to_nat j) ltac:(lia)) as [t Ht].
        destruct (inv_turns0 _ _ Ht) as (part & Hin & _).
        rewrite Z2Nat.id in Hin by lia. by exists (Fulfilled part).
Qed.

(** C4 (fail fast, partial work kept).  While a job is Transcribing, when
    the request of a chunk [j] fails -- the client's text starts with
    ["Error:"], or the request throws -- the job becomes Error with the
    description of the failure as its error message and progress 0; its
    transcript stays what it was, the turns of all the chunks of the
    earlier waves; and from then on no request is issued and the job no
    longer changes. *)
Theorem fail_fast_preserves_partial (b : AudioBuffer.t) evs s j part e s' :
  AudioBuffer.valid b ->
  run b initial evs = Some s ->
  status (job s) = TRANSCRIBING ->
  chunkCallback b j part = Rejected e ->
  step b s (EvSettle j part) = Some s' ->
  status (job s') = ERROR
  /\ progress (job s') = 0
  /\ error (job s') = Some (errorMessage e)
  /\ match part with
     | Fulfilled transcriptionPart =>
         startsWith transcriptionPart (lit "Error:") = true
         /\ error (job s') = Some transcriptionPart
     | Rejected (ErrorObject message) => error (job s') = Some message
     | Rejected NotAnError => error (job s') = Some (lit "An unknown error occurred.")
     end
  /\ j ∈ chunkBatchIndices b (i s)
  /\ transcription (job s') = transcription (job s)
  /\ Z.of_nat (length (transcription (job s'))) = i s
  /\ turns_of_chunks b evs (transcription (job s'))
  /\ forall evs' s'',
       run b s' evs' = Some s'' ->
       job s'' = job s' /\ forall i0, EvIssue i0 ∉ evs'.
Proof.
  intros Hvalid Hrun Hst Hcb Hstep.
  pose proof (run_invariant b Hvalid evs s Hrun) as Hinv.
  destruct (transcribing_state b evs s Hinv Hst) as ([Hp|Hp] & _ & _);
    unfold step in Hstep; rewrite Hp in Hstep; [done|].
  destruct (is_pending (promises s) j) eqn:Hpend; [|done].
  rewrite Hcb in Hstep. injection Hstep as <-.
  destruct Hinv as (Hph & _). unfold phase_invariant in Hph. rewrite Hp in Hph.
  destruct Hph as ((turns & []) & Hlt & Hfst & _). simpl.
  split_and!; try done.
  - apply chunkCallback_Rejected in Hcb as [(text & -> & Htext & ->)| ->]; [done|].
    by destruct e.
  - rewrite <- Hfst. apply is_pending_elem in Hpend.
    unfold pending_indices in Hpend.
    apply list_elem_of_fmap in Hpend as (p & -> & Hin%list_elem_of_filter).
    apply list_elem_of_fmap. exists p. by destruct Hin.
  - rewrite inv_transcription0. lia.
  - by rewrite inv_transcription0.
  - intros evs' s'' Hrun'.
    match type of Hrun' with run _ ?s1 _ = _ =>
      destruct (returned_run b s1 evs' s'' eq_refl Hrun') as (_ & Hjob & Hall) end.
    split; [done|]. intros i0 Hin.
    rewrite Forall_forall in Hall. by destruct (Hall _ Hin) as (? & ? & ?).
Qed.

(** C5 (progress formula), amended.  When a wave completes, the progress
    of the job is set to [5 + Math.round((chunksProcessed / numChunks) * 90)],
    the quotient and the product each rounded to a double;
    [chunksProcessed] is the number of chunks of all the waves completed
    so far (and the number of turns in the job's transcript).  This is
    [5 + round(90 * chunksProcessed / numChunks)] or one less, and it is
    that number whenever [90 * chunksProcessed / numChunks] is not an
    integer and a half. *)
Theorem progress_formula (b : AudioBuffer.t) evs s s' :
  AudioBuffer.valid b ->
  run b initial evs = Some s ->
  step b s EvWaveDone = Some s' ->
  let c := chunksProcessed s' in
  let n := numChunks b in
  progress (job s') = 5 + Math_round (mul64 (div64 (inject_Z c) (inject_Z n)) 90)
  /\ progress_by_spec c n - 1 <= progress (job s') <= progress_by_spec c n
  /\ ((180 * c + n) mod (2 * n) <> 0 -> progress (job s') = progress_by_spec c n)
  /\ c = Z.min (i s + CONCURRENCY_LIMIT) n
  /\ c = i s + Z.of_nat (length (chunkBatchIndices b (i s)))
  /\ Z.of_nat (length (transcription (job s'))) = c.
Proof.
  intros Hvalid Hrun Hstep c n. subst c n.
  pose proof (run_invariant b Hvalid evs s Hrun) as Hinv.
  destruct (wave_done_spec b evs s s' Hinv Hstep)
    as (results & turns & _ & [] & Hlt & Hlen_r & _ & _ & _ & ->). simpl.
  destruct inv_i0 as [Hi0 _].
  assert (0 <= chunksProcessed s + Z.of_nat (length results) <= numChunks b) as Hc
    by (unfold CONCURRENCY_LIMIT in *; lia).
  destruct (progressAfter_exact b Hvalid _ Hc ltac:(lia)) as [Hnear Hexact].
  split; [done|]. split; [exact Hnear|]. split; [exact Hexact|].
  split_and!.
  - unfold CONCURRENCY_LIMIT in *. lia.
  - rewrite chunkBatchIndices_length by done. unfold CONCURRENCY_LIMIT in *. lia.
  - rewrite length_app, length_fmap. lia.
Qed.

(** C6 (progress monotonicity).  Along every run of [processFile] the
    progress of the job is between 0 and 100, it is 100 exactly when the
    job is Done, and between two states in which the job is Transcribing
    it does not decrease. *)
Theorem progress_monotone (b : AudioBuffer.t) evs s :
  AudioBuffer.valid b ->
  run b initial evs = Some s ->
  0 <= progress (job s) <= 100
  /\ (progress (job s) = 100 <-> status (job s) = DONE)
  /\ forall evs' s',
       run b s evs' = Some s' ->
       status (job s) = TRANSCRIBING -> status (job s') = TRANSCRIBING ->
       progress (job s) <= progress (job s').
Proof.
  intros Hvalid Hrun.
  pose proof (run_invariant b Hvalid evs s Hrun) as Hinv.
  destruct (invariant_progress b Hvalid evs s Hinv) as [? ?].
  split; [done|]. split; [done|].
  intros evs' s' Hrun'. by apply (run_progress_mono b Hvalid evs s evs' s').
Qed.

(** C10 (the client never throws).  [transcribeAudio] always fulfils: with
    the text of the response, with the empty string when the response has
    no text, and with a string that starts with ["Error:"] when the call
    throws (it carries the message of a thrown [Error]).  A chunk fails in
    [processFile] exactly when the client's string starts with
    ["Error:"]; so does a transcript that itself starts with ["Error:"]. *)
Theorem transcribeAudio_total (collaborator : jsstring -> GenerateContent)
    (base64Audio : jsstring) :
  (exists r, transcribeAudio collaborator base64Audio = Fulfilled r)
  /\ (forall t, collaborator base64Audio = Response (Some t) ->
        transcribeAudio collaborator base64Audio = Fulfilled t)
  /\ (collaborator base64Audio = Response None ->
        transcribeAudio collaborator base64Audio = Fulfilled [])
  /\ (forall e, collaborator base64Audio = Fails e ->
        exists r, transcribeAudio collaborator base64Audio = Fulfilled r
                  /\ startsWith r (lit "Error:") = true
                  /\ forall message, e = ErrorObject message ->
                       r = lit "Error: API call failed - " ++ message)
  /\ (forall b chunkIndex r,
        transcribeAudio collaborator base64Audio = Fulfilled r ->
        if startsWith r (lit "Error:")
        then chunkCallback b chunkIndex (transcribeAudio collaborator base64Audio)
             = Rejected (ErrorObject r)
        else chunkCallback b chunkIndex (transcribeAudio collaborator base64Audio)
             = Fulfilled {| turn := makeTurn b chunkIndex r; index := chunkIndex |})
  /\ (forall b chunkIndex t,
        collaborator base64Audio = Response (Some t) ->
        startsWith t (lit "Error:") = true ->
        chunkCallback b chunkIndex (transcribeAudio collaborator base64Audio)
        = Rejected (ErrorObject t)).
Proof.
  unfold transcribeAudio. split_and!.
  - destruct (collaborator base64Audio) as [[t|]|[m|]]; eauto.
  - by intros t ->.
  - by intros ->.
  - intros e ->. destruct e as [m|]; eexists; split_and!; try done.
    by intros ? [= ->].
  - intros b chunkIndex r ->. unfold chunkCallback. by destruct (startsWith _ _).
  - intros b chunkIndex t -> Ht. unfold chunkCallback. by rewrite Ht.
Qed.

End BatchClaims.

(* ===================================================================== *)
(** * The live session                                                    *)
(* ===================================================================== *)

Section Strings.
Import JS.

Lemma trimStart_nil (s : jsstring) : trimStart s = [] <-> forallb is_white_space s = true.
Proof.
  induction s as [|c s IH]; simpl; [done|].
  destruct (is_white_space c); simpl; [done|]. split; intros; done.
Qed.

Lemma trimStart_head (s : jsstring) c s' :
  trimStart s = c :: s' -> is_white_space c = false.
Proof.
  induction s as [|d s IH]; simpl; [done|].
  destruct (is_white_space d) eqn:E; [done|]. by intros [= <- <-].
Qed.

Lemma forallb_rev {A} (f : A -> bool) (l : list A) : forallb f (rev l) = forallb f l.
Proof.
  induction l as [|x l IH]; simpl; [done|].
  rewrite forallb_app, IH. simpl. rewrite andb_true_r. apply andb_comm.
Qed.

(** A string trims to the empty string exactly when it is made of white
    space only. *)
Lemma trim_nil (s : jsstring) : trim s = [] <-> forallb is_white_space s = true.
Proof.
  unfold trim, trimEnd. split.
  - intros H. apply (f_equal (@rev _)) in H. rewrite rev_involutive in H. simpl in H.
    apply trimStart_nil in H. rewrite forallb_rev in H.
    destruct (trimStart s) as [|c s'] eqn:E; [by apply trimStart_nil|].
    apply trimStart_head in E. simpl in H. by rewrite E in H.
  - intros H. apply trimStart_nil in H. by rewrite H.
Qed.

Lemma truthy_trim (s : jsstring) :
  truthy_string (trim s) = negb (forallb is_white_space s).
Proof.
  destruct (forallb is_white_space s) eqn:E.
  - apply trim_nil in E. by rewrite E.
  - destruct (trim s) eqn:T; [|done]. apply trim_nil in T. congruence.
Qed.

End Strings.

Section Live.
Import JS Types RealtimeTranscriber.

Variable performance_now : nat -> Q.

(** The clock never goes back. *)
Hypothesis Hclock : forall k, (performance_now k <= performance_now (S k))%Q.

Lemma clock_mono (k k' : nat) : (k <= k')%nat -> (performance_now k <= performance_now k')%Q.
Proof.
  induction 1 as [|k' _ IH]; [apply Qle_refl|].
  eapply Qle_trans; [exact IH|apply Hclock].
Qed.

Lemma onModelAudio_frame m w :
  component (onModelAudio m w) = component w
  /\ refs (onModelAudio m w) = refs w
  /\ clockReads (onModelAudio m w) = clockReads w.
Proof.
  unfold onModelAudio.
  destruct (modelAudio m), (outputAudioContextRef (refs w)), (outputGainNodeRef (refs w));
    try done.
  by destruct (truthy_string _).
Qed.

Lemma onTurnComplete_currentTurn w :
  currentTurn (component (onTurnComplete performance_now w)) = None
  /\ refs (onTurnComplete performance_now w) = refs w.
Proof.
  unfold onTurnComplete, turnCompleteUpdater.
  destruct (currentTurn (component w)) as [prev|]; [|done].
  destruct (truthy_string _); [|done]. by destruct (elapsedTime _ _ _).
Qed.

Lemma stopUpdater_turn reads recordingStartTime prevTurn :
  (stopUpdater performance_now reads recordingStartTime prevTurn).1.1 = None.
Proof.
  unfold stopUpdater. destruct prevTurn, recordingStartTime; try done.
  by destruct (_ && _).
Qed.

Lemma stopRecording_currentTurn schedule w :
  currentTurn (component (stopRecording performance_now schedule w)) = None
  /\ recordingStartTimeRef (refs (stopRecording performance_now schedule w)) = None.
Proof.
  unfold stopRecording.
  match goal with |- context [stopUpdater ?p ?r ?s ?t] =>
    pose proof (stopUpdater_turn r s t) as H;
    destruct (stopUpdater p r s t) as [[turn appended] reads] end.
  simpl in H. subst turn.
  by destruct (audioContextRef (refs w)) as [[]|],
              (outputAudioContextRef (refs w)) as [[]|].
Qed.

Lemma onInputTranscription_session m w :
  turn_started_in_session performance_now w ->
  turn_started_in_session performance_now (onInputTranscription performance_now m w).
Proof.
  intros Hinv. unfold onInputTranscription.
  destruct (inputTranscriptionText m) as [text|]; [|done].
  destruct (truthy_string text); [|done].
  unfold textUpdater. destruct (currentTurn (component w)) as [prev|] eqn:Hprev.
  - intros ct t0 [= <-] Ht0. simpl in *.
    destruct (Hinv prev t0 Hprev Ht0) as (k & Hk & Hstart). by exists k.
  - unfold elapsedTime. destruct (recordingStartTimeRef (refs w)) as [t0|] eqn:Href.
    + intros ct t1 [= <-] Ht1. simpl in *. rewrite Href in Ht1. injection Ht1 as <-.
      exists (clockReads w). split; [lia|done].
    + intros ct t1 _ Ht1. simpl in *. congruence.
Qed.

(** Every callback keeps the start of the turn in progress in the past of
    the session. *)
Lemma handle_session w ev :
  turn_started_in_session performance_now w ->
  turn_started_in_session performance_now (handle performance_now w ev).
Proof.
  intros Hinv. destruct ev as [outcome| |m|message schedule|schedule]; simpl.
  - unfold startRecording. destruct outcome; by intros ct t0 ?.
  - intros ct t0 Hct Ht0. simpl in *.
    destruct (Hinv ct t0 Hct Ht0) as (k & ? & ?). by exists k.
  - unfold onmessage.
    pose proof (onInputTranscription_session m w Hinv) as H1.
    destruct (onModelAudio_frame m
                (if turnComplete m
                 then onTurnComplete performance_now (onInputTranscription performance_now m w)
                 else onInputTranscription performance_now m w)) as (Hc & Hr & Hk).
    intros ct t0. unfold turn_started_in_session in H1.
    rewrite Hc, Hr, Hk. destruct (turnComplete m).
    + destruct (onTurnComplete_currentTurn (onInputTranscription performance_now m w))
        as [-> _]. done.
    + apply H1.
  - intros ct t0 Hct. unfold onerror in Hct.
    by rewrite (proj1 (stopRecording_currentTurn _ _)) in Hct.
  - intros ct t0 Hct.
    by rewrite (proj1 (stopRecording_currentTurn _ _)) in Hct.
Qed.

Lemma run_session evs :
  turn_started_in_session performance_now (run performance_now mounted evs).
Proof.
  unfold run. induction evs as [|ev evs IH] using rev_ind; simpl.
  - by intros ct t0 ?.
  - rewrite foldl_app. simpl. by apply handle_session.
Qed.

End Live.

Section StopRecording.
Import JS Types RealtimeTranscriber.

Variable performance_now : nat -> Q.

(** When the updater of [stopRecording] runs at the next render, the
    start reference is already cleared and nothing is appended. *)
Lemma stopRecording_at_render w :
  transcript (component (stopRecording performance_now AtRender w))
  = transcript (component w)
  /\ clockReads (stopRecording performance_now AtRender w) = clockReads w.
Proof.
  unfold stopRecording.
  assert (stopUpdater performance_now (clockReads w) None (currentTurn (component w))
          = (None, [], clockReads w)) as ->.
  { unfold stopUpdater. by destruct (currentTurn (component w)). }
  destruct (audioContextRef (refs w)) as [[]|], (outputAudioContextRef (refs w)) as [[]|];
    simpl; by rewrite app_nil_r.
Qed.

(** When it runs at once, it finalizes the turn in progress. *)
Lemma stopRecording_eager w ct t0 :
  currentTurn (component w) = Some ct ->
  forallb is_white_space (CurrentTurn.text ct) = false ->
  recordingStartTimeRef (refs w) = Some t0 ->
  ~ (t0 == 0)%Q ->
  transcript (component (stopRecording performance_now Eager w))
  = transcript (component w)
    ++ [finalized ct (div64 (sub64 (performance_now (clockReads w)) t0) 1000)].
Proof.
  intros Hct Hws Ht0 Hnz. unfold stopRecording.
  assert (stopUpdater performance_now (clockReads w) (recordingStartTimeRef (refs w))
                      (currentTurn (component w))
          = (None, [finalized ct (div64 (sub64 (performance_now (clockReads w)) t0) 1000)],
             S (clockReads w))) as ->.
  { unfold stopUpdater. rewrite Hct, Ht0, truthy_trim, Hws. simpl.
    unfold truthy_number. destruct (Qeq_bool t0 0) eqn:E; [|done].
    by apply Qeq_bool_iff in E. }
  by destruct (audioContextRef (refs w)) as [[]|], (outputAudioContextRef (refs w)) as [[]|].
Qed.

(** What [stopRecording] does to the outside in a session that is open:
    capture stops, both audio contexts and the channel are closed. *)
Lemma stopRecording_effects schedule w closeThrows :
  streamRef (refs w) = Some () ->
  scriptProcessorRef (refs w) = Some () ->
  audioContextRef (refs w) = Some running ->
  outputAudioContextRef (refs w) = Some running ->
  sessionPromiseRef (refs w) = Some (SessionResolves closeThrows) ->
  let w' := stopRecording performance_now schedule w in
  effects w' = effects w ++ [StopTracks; DisconnectProcessor; CloseInputContext;
                             CloseOutputContext; CloseSession]
                         ++ (if closeThrows then [LogError] else [])
  /\ isRecording (component w') = false
  /\ streamRef (refs w') = None /\ scriptProcessorRef (refs w') = None
  /\ audioContextRef (refs w') = None /\ outputAudioContextRef (refs w') = None
  /\ outputGainNodeRef (refs w') = None /\ sessionPromiseRef (refs w') = None.
Proof.
  intros H1 H2 H3 H4 H5. unfold stopRecording. rewrite H1, H2, H3, H4, H5.
  destruct (stopUpdater _ _ _ _) as [[turn appended] reads]. simpl.
  split_and!; done.
Qed.

(** A state on which [stopRecording] has nothing left to do. *)
Lemma stopRecording_fixed schedule w :
  isRecording (component w) = false ->
  currentTurn (component w) = None ->
  sessionPromiseRef (refs w) = None ->
  streamRef (refs w) = None ->
  scriptProcessorRef (refs w) = None ->
  recordingStartTimeRef (refs w) = None ->
  (audioContextRef (refs w) = None \/ audioContextRef (refs w) = Some closed) ->
  (outputAudioContextRef (refs w) = None \/ outputAudioContextRef (refs w) = Some closed) ->
  stopRecording performance_now schedule w = w.
Proof.
  destruct w as [[rec tr ct err] [s st a o g p t0] reads fx]. simpl.
  intros -> -> -> -> -> -> Ha Ho. unfold stopRecording, stopUpdater. simpl.
  destruct Ha as [-> | ->], Ho as [-> | ->]; simpl; by rewrite !app_nil_r.
Qed.

(** Stopping twice is stopping once. *)
Lemma stopRecording_twice schedule schedule' w :
  stopRecording performance_now schedule' (stopRecording performance_now schedule w)
  = stopRecording performance_now schedule w.
Proof.
  destruct (stopRecording_currentTurn performance_now schedule w) as [Hct Href].
  apply stopRecording_fixed; try done; unfold stopRecording;
    destruct (stopUpdater _ _ _ _) as [[turn appended] reads];
    destruct (audioContextRef (refs w)) as [[]|], (outputAudioContextRef (refs w)) as [[]|];
    simpl; auto.
Qed.

End StopRecording.

(* ===================================================================== *)
(** * The live session: the claims                                        *)
(* ===================================================================== *)

Section LiveClaims.
Import JS Types RealtimeTranscriber.

(** C7 (turn-complete finalization).  In a state the component can be in,
    a turn-complete event always resets the turn in progress.  With no
    turn in progress, or one whose text is white space only, the
    transcript is left as it is.  With a turn whose text is not white
    space only, exactly one turn is appended, with the start time and the
    text of the turn in progress.  While the start reference of the
    session is set, its end time is the time elapsed since then, in
    seconds, and is not before the start time.  Once [stopRecording] has
    cleared the reference, line 165 reads the clock twice: the end time is
    the first reading minus the second, in seconds, which is zero or
    less. *)
Theorem turn_complete_finalization (performance_now : nat -> Q) evs w :
  (forall k, (performance_now k <= performance_now (S k))%Q) ->
  w = run performance_now mounted evs ->
  let w' := onTurnComplete performance_now w in
  let now := performance_now (clockReads w) in
  currentTurn (component w') = None
  /\ refs w' = refs w
  /\ match currentTurn (component w) with
     | None => transcript (component w') = transcript (component w)
     | Some ct =>
         if forallb is_white_space (CurrentTurn.text ct)
         then transcript (component w') = transcript (component w)
         else
           match recordingStartTimeRef (refs w) with
           | Some sessionStart =>
               let endTime := div64 (sub64 now sessionStart) 1000 in
               transcript (component w')
               = transcript (component w)
                 ++ [{| startTime := CurrentTurn.startTime ct;
                        endTime := endTime;
                        text := CurrentTurn.text ct |}]
               /\ (CurrentTurn.startTime ct <= endTime)%Q
           | None =>
               let endTime :=
                 div64 (sub64 now (performance_now (S (clockReads w)))) 1000 in
               transcript (component w')
               = transcript (component w)
                 ++ [{| startTime := CurrentTurn.startTime ct;
                        endTime := endTime;
                        text := CurrentTurn.text ct |}]
               /\ (endTime <= 0)%Q
           end
     end.
Proof.
  intros Hclock -> w' now.
  pose proof (run_session performance_now evs) as Hsession.
  set (w := run performance_now mounted evs) in *.
  destruct (onTurnComplete_currentTurn performance_now w) as [Hnone Hrefs].
  split; [done|]. split; [done|].
  subst w'. unfold onTurnComplete, turnCompleteUpdater.
  destruct (currentTurn (component w)) as [ct|] eqn:Hct; simpl.
  2: { by rewrite app_nil_r. }
  rewrite truthy_trim. destruct (forallb is_white_space (CurrentTurn.text ct)); simpl.
  { by rewrite app_nil_r. }
  unfold elapsedTime. destruct (recordingStartTimeRef (refs w)) as [t0|] eqn:Ht0; simpl.
  - split; [done|].
    destruct (Hsession ct t0 Hct Ht0) as (k & Hk & ->).
    pose proof (clock_mono performance_now Hclock k (clockReads w) ltac:(lia)).
    unfold div64, sub64. apply double_mono.
    apply Qmult_le_compat_r; [|done]. apply double_mono. subst now. lra.
  - split; [done|]. unfold div64, sub64.
    apply double_le_0. apply Qle_shift_div_r; [done|]. rewrite Qmult_0_l.
    apply double_le_0. pose proof (Hclock (clockReads w)). subst now. lra.
Qed.

(** C9 (stop idempotence).  On a stopped session -- every handle released
    and no turn in progress -- [stopRecording] leaves the transcript, the
    turn in progress and every handle as they are, does nothing to the
    outside and reads no clock; the session is still stopped.  When in
    addition the component is not recording and the start reference is
    cleared, the whole state is unchanged.  And on any state, stopping
    twice is stopping once. *)
Theorem stop_idempotent (performance_now : nat -> Q) schedule w :
  stopped w ->
  let w' := stopRecording performance_now schedule w in
  transcript (component w') = transcript (component w)
  /\ currentTurn (component w') = currentTurn (component w)
  /\ sessionPromiseRef (refs w') = sessionPromiseRef (refs w)
  /\ streamRef (refs w') = streamRef (refs w)
  /\ audioContextRef (refs w') = audioContextRef (refs w)
  /\ outputAudioContextRef (refs w') = outputAudioContextRef (refs w)
  /\ outputGainNodeRef (refs w') = outputGainNodeRef (refs w)
  /\ scriptProcessorRef (refs w') = scriptProcessorRef (refs w)
  /\ effects w' = effects w
  /\ clockReads w' = clockReads w
  /\ stopped w'
  /\ (isRecording (component w) = false ->
      recordingStartTimeRef (refs w) = None -> w' = w)
  /\ forall schedule' w0,
       stopRecording performance_now schedule' (stopRecording performance_now schedule w0)
       = stopRecording performance_now schedule w0.
Proof.
  intros (Hs & Hst & Ha & Ho & Hp & Hc) w'.
  destruct w as [[rec tr ct err] [s st a o g p t0] reads fx]. simpl in *. subst.
  subst w'. unfold stopRecording, stopUpdater. simpl.
  rewrite !app_nil_r.
  split_and!; try done.
  - by intros -> ->.
  - intros schedule' w0. apply stopRecording_twice.
Qed.

(** C8 (stop and the turn in progress), at a session that has heard
    ["hello"]: the clock reads 1000 ms at the start and 1250 ms when the
    text arrives.  [stopRecording] closes the session either way.  When
    its updater runs at once, the turn is appended with the elapsed time
    as its end time.  When the updater runs at the next render, as queued
    updaters do, line 99 has already cleared the start reference: the turn
    in progress is dropped and the transcript stays empty. *)
Theorem stop_drops_turn_at_render :
  let w := run session_clock mounted session_hello in
  currentTurn (component w)
    = Some {| CurrentTurn.startTime := div64 (sub64 (session_clock 1) (session_clock 0)) 1000;
              CurrentTurn.text := lit "hello" |}
  /\ recordingStartTimeRef (refs w) = Some (session_clock 0)
  /\ transcript (component (stopRecording session_clock Eager w))
     = [{| startTime := div64 (sub64 (session_clock 1) (session_clock 0)) 1000;
           endTime := div64 (sub64 (session_clock 2) (session_clock 0)) 1000;
           text := lit "hello" |}]
  /\ transcript (component (stopRecording session_clock AtRender w)) = []
  /\ currentTurn (component (stopRecording session_clock AtRender w)) = None
  /\ effects (stopRecording session_clock AtRender w)
     = [StopTracks; DisconnectProcessor; CloseInputContext; CloseOutputContext;
        CloseSession].
Proof. by vm_compute. Qed.

End LiveClaims.
(* ===================================================================== *)
(** * [processFile]: sample ranges, edge cases, runs that succeed         *)
(* ===================================================================== *)

Section SampleRanges.
Import JS Types App.

Variable b : AudioBuffer.t.
Hypothesis Hvalid : AudioBuffer.valid b.

Lemma chunk_samples (i : Z) :
  0 <= i < numChunks b ->
  0 <= startSample b i < endSample b i
  /\ endSample b i <= totalSamples b
  /\ 0 < chunkLength b i <= chunkTotalSamples b
  /\ (i + 1 < numChunks b ->
      endSample b i = startSample b (i + 1) /\ chunkLength b i = chunkTotalSamples b)
  /\ (i + 1 = numChunks b -> endSample b i = totalSamples b).
Proof.
  intros Hi. pose proof (numChunks_bounds b Hvalid) as Hn.
  pose proof (chunkTotalSamples_pos b Hvalid) as Hc.
  unfold chunkLength, endSample, startSample.
  split_and!; try nia.
Qed.

Lemma chunkLength_sum (k : Z) :
  0 <= k <= numChunks b ->
  foldr Z.add 0 (chunkLength b <$> seqZ 0 k) = Z.min (k * chunkTotalSamples b) (totalSamples b).
Proof.
  intros Hk. pose proof (numChunks_bounds b Hvalid) as Hn.
  pose proof (chunkTotalSamples_pos b Hvalid) as Hc.
  assert (0 <= totalSamples b) by (destruct Hvalid as [_ ?]; unfold totalSamples; lia).
  destruct Hk as [Hk0 Hk]. rewrite <- (Z2Nat.id k) in Hk |- * by lia.
  clear Hk0. induction (Z.to_nat k) as [|m IH].
  - simpl. lia.
  - rewrite Nat2Z.inj_succ, <- Z.add_1_r in Hk |- *.
    rewrite (seqZ_app 0 (Z.of_nat m) 1) by lia.
    rewrite fmap_app, foldr_app.
    assert (seqZ (0 + Z.of_nat m) 1 = [Z.of_nat m]) as ->
      by (unfold seqZ; simpl; f_equal; lia).
    simpl.
    assert (forall l a, foldr Z.add a l = foldr Z.add 0 l + a) as Hfold.
    { clear. induction l as [|x l IHl]; intros a; simpl; [lia|]. rewrite IHl. lia. }
    rewrite Hfold, IH by lia.
    unfold chunkLength, endSample, startSample. nia.
Qed.

End SampleRanges.

Section Edges.
Import JS Types GeminiService App.

Variable b : AudioBuffer.t.

Lemma no_issue_without_chunks evs s :
  AudioBuffer.valid b ->
  numChunks b <= 0 -> run b initial evs = Some s -> forall i0, EvIssue i0 ∉ evs.
Proof.
  intros Hvalid Hn Hrun i0 Hin.
  apply list_elem_of_split in Hin as (evs1 & evs2 & ->).
  rewrite run_app in Hrun.
  destruct (run b initial evs1) as [s1|] eqn:Hrun1; [|done].
  simpl in Hrun. destruct (step b s1 (EvIssue i0)) as [s2|] eqn:Hstep; [|done].
  destruct (run_invariant b Hvalid evs1 s1 Hrun1) as (Hph & _).
  unfold step in Hstep. unfold phase_invariant in Hph.
  destruct (phase s1); try done.
  destruct (decide _) as [[_ ?]|]; [|done].
  destruct Hph as ((turns & []) & _). lia.
Qed.

Lemma decode_failed_run e evs s :
  run b initial (EvBegin :: EvDecodeFailed e :: evs) = Some s ->
  job s = {| status := ERROR; progress := 0; transcription := [];
             error := Some (errorMessage e) |}
  /\ forall i0, EvIssue i0 ∉ evs.
Proof.
  intros Hrun. cbn in Hrun.
  match type of Hrun with run _ ?s1 _ = _ =>
    destruct (returned_run b s1 evs s eq_refl Hrun) as (_ & Hjob & Hall) end.
  split; [by rewrite Hjob|].
  intros i0 Hin. rewrite Forall_forall in Hall.
  by destruct (Hall _ Hin) as (? & ? & ?).
Qed.

End Edges.

Section SuccessfulRuns.
Import JS Types GeminiService App Scenario.

Variable b : AudioBuffer.t.
Variable parts : Z -> jsstring.

(** The result the callback of chunk [j] fulfils with. *)
Let result (j : Z) : ChunkResult := {| turn := makeTurn b j (parts j); index := j |}.

Lemma settle_notin ps j st : j ∉ ps.*1 -> settle ps j st = ps.
Proof.
  induction ps as [|[k st0] ps IH]; intros Hj; simpl; [done|].
  rewrite fmap_cons, not_elem_of_cons in Hj. destruct Hj as [Hjk Hj]. simpl in Hjk.
  unfold settle in *. simpl.
  destruct (k =? j) eqn:E; [apply Z.eqb_eq in E; congruence|].
  f_equal. by apply IH.
Qed.

Lemma settle_app ps qs j st : settle (ps ++ qs) j st = settle ps j st ++ settle qs j st.
Proof. unfold settle. apply fmap_app. Qed.

Lemma settle_here k st0 ps st : settle ((k, st0) :: ps) k st = (k, st) :: settle ps k st.
Proof. unfold settle. rewrite fmap_cons. simpl. by rewrite Z.eqb_refl. Qed.

Lemma settle_all s pre js :
  phase s = AwaitingAll ->
  NoDup js ->
  (forall j, j ∈ js -> j ∉ pre.*1) ->
  (forall j, j ∈ js -> startsWith (parts j) (lit "Error:") = false) ->
  promises s = pre ++ ((fun j => (j, Pending)) <$> js) ->
  run b s ((fun j => EvSettle j (Fulfilled (parts j))) <$> js)
  = Some (with_promises s (pre ++ ((fun j => (j, Resolved (result j))) <$> js)) AwaitingAll).
Proof.
  revert s pre. induction js as [|j js IH]; intros s pre Hph Hnd Hpre Hok Hps.
  - simpl. f_equal. destruct s. simpl in *. by subst.
  - apply NoDup_cons in Hnd as [Hj Hnd]. rewrite fmap_cons. simpl.
    assert (step b s (EvSettle j (Fulfilled (parts j)))
            = Some (with_promises s
                      ((pre ++ [(j, Resolved (result j))]) ++ ((fun j => (j, Pending)) <$> js))
                      AwaitingAll)) as ->.
    { unfold step. rewrite Hph.
      assert (is_pending (promises s) j = true) as ->.
      { unfold is_pending. rewrite Hps. apply existsb_exists.
        exists (j, Pending). split; [|simpl; by rewrite Z.eqb_refl].
        apply in_or_app. right. by left. }
      unfold chunkCallback. rewrite Hok by left. do 2 f_equal.
      rewrite Hps, fmap_cons, settle_app, settle_here, <- app_assoc. simpl.
      rewrite !settle_notin; [done| |].
      - rewrite <- list_fmap_compose. simpl. by rewrite list_fmap_id.
      - apply Hpre. left. }
    rewrite (IH _ (pre ++ [(j, Resolved (result j))])); try done.
    + unfold with_promises. simpl. by rewrite <- app_assoc.
    + intros k Hk. rewrite fmap_app, not_elem_of_app. split.
      * apply Hpre. by right.
      * simpl. rewrite list_elem_of_singleton. intros ->. done.
    + intros k Hk. apply Hok. by right.
Qed.

Lemma all_results_resolved js :
  all_results ((fun j => (j, Resolved (result j))) <$> js) = Some (result <$> js).
Proof.
  unfold all_results. induction js as [|j js IH]; [done|].
  rewrite !fmap_cons. cbn. cbn in IH. by rewrite IH.
Qed.

Lemma wave_run s :
  phase s = AtLoopHead ->
  i s < numChunks b ->
  (forall j, j ∈ chunkBatchIndices b (i s) -> startsWith (parts j) (lit "Error:") = false) ->
  exists s',
    run b s (wave_events b parts (i s)) = Some s'
    /\ phase s' = AtLoopHead
    /\ i s' = i s + CONCURRENCY_LIMIT.
Proof.
  intros Hph Hlt Hok. unfold wave_events. cbn [run].
  assert (step b s (EvIssue (i s))
          = Some (with_promises s ((fun j => (j, Pending)) <$> chunkBatchIndices b (i s))
                                AwaitingAll)) as ->.
  { unfold step. rewrite Hph. by rewrite decide_True. }
  rewrite run_app.
  rewrite (settle_all _ []); try done.
  - cbn [run app]. unfold step. cbn [phase with_promises promises].
    rewrite all_results_resolved. eexists. split; [done|]. done.
  - rewrite chunkBatchIndices_seqZ. apply NoDup_seqZ.
  - intros j _. apply not_elem_of_nil.
Qed.

Lemma loop_run (i0 : Z) :
  forall s,
    phase s = AtLoopHead -> i s = i0 ->
    (forall j, i0 <= j < numChunks b -> startsWith (parts j) (lit "Error:") = false) ->
    exists s',
      run b s (loop_events b parts i0) = Some s'
      /\ phase s' = Returned /\ status (job s') = DONE.
Proof.
  funelim (loop_events b parts i0); intros s Hph Hi Hok.
  - destruct (wave_run s Hph ltac:(lia)) as (s1 & Hrun1 & Hph1 & Hi1).
    { intros j Hj. apply elem_of_chunkBatchIndices in Hj. apply Hok. lia. }
    destruct (H s1 Hph1 ltac:(lia)) as (s' & Hrun' & Hph' & Hst').
    { intros j Hj. apply Hok. unfold CONCURRENCY_LIMIT in *. lia. }
    exists s'. rewrite run_app. rewrite Hi in Hrun1. rewrite Hrun1. done.
  - cbn [run]. unfold step. rewrite Hph. rewrite decide_False by lia.
    eexists. split; [done|]. done.
Qed.

Lemma loop_events_settles (i0 : Z) ev :
  ev ∈ loop_events b parts i0 ->
  match ev with
  | EvSettle j part => part = Fulfilled (parts j)
  | _ => True
  end.
Proof.
  funelim (loop_events b parts i0); intros Hin.
  - apply elem_of_app in Hin as [Hin|Hin]; [|by apply H].
    unfold wave_events in Hin.
    apply elem_of_cons in Hin as [->|Hin]; [done|].
    apply elem_of_app in Hin as [Hin|Hin].
    + apply list_elem_of_fmap in Hin as (j & -> & _). done.
    + apply list_elem_of_singleton in Hin as ->. done.
  - apply list_elem_of_singleton in Hin as ->. done.
Qed.

End SuccessfulRuns.

Section BatchExtras.
Import JS Types GeminiService App Scenario.

(** X1 (sample ranges of the chunks).  The sample ranges
    [[startSample, endSample)] that [processFile] cuts are inside the
    buffer and not empty, of at most [20 * sampleRate] samples; each ends
    where the next one starts, the last one ends at the last sample, and
    the lengths of all the chunks add up to the length of the buffer. *)
Theorem chunk_samples_partition (b : AudioBuffer.t) :
  AudioBuffer.valid b ->
  (forall i, 0 <= i < numChunks b ->
     0 <= startSample b i < endSample b i
     /\ endSample b i <= totalSamples b
     /\ 0 < chunkLength b i <= chunkTotalSamples b
     /\ (i + 1 < numChunks b ->
         endSample b i = startSample b (i + 1) /\ chunkLength b i = chunkTotalSamples b)
     /\ (i + 1 = numChunks b -> endSample b i = totalSamples b))
  /\ foldr Z.add 0 (chunkLength b <$> seqZ 0 (numChunks b)) = AudioBuffer.length b.
Proof.
  intros Hvalid. split.
  - intros i Hi. by apply chunk_samples.
  - pose proof (numChunks_bounds b Hvalid). pose proof (numChunks_nonneg b Hvalid).
    rewrite (chunkLength_sum b Hvalid) by lia. unfold totalSamples in *. lia.
Qed.

(** X2 (empty audio).  For a decoded buffer of no samples there is no
    chunk: the job goes from Processing to Done with progress 100 and an
    empty transcript, and on no run is a request issued. *)
Theorem empty_audio_done (b : AudioBuffer.t) :
  AudioBuffer.valid b ->
  AudioBuffer.length b = 0 ->
  numChunks b = 0
  /\ (exists s,
        run b initial [EvBegin; EvDecoded; EvDone] = Some s
        /\ phase s = Returned
        /\ job s = {| status := DONE; progress := 100; transcription := []; error := None |})
  /\ forall evs s, run b initial evs = Some s -> forall i0, EvIssue i0 ∉ evs.
Proof.
  intros Hvalid Hlen.
  assert (numChunks b = 0) as Hn by (by apply (numChunks_zero b Hvalid)).
  split; [done|]. split.
  - cbn [run]. unfold step at 1. cbn [phase initial]. unfold step at 1. cbn [phase with_job].
    unfold step. cbn [phase i]. rewrite decide_False by lia.
    eexists. split; [done|]. split; [done|].
    unfold with_job, updateFileState, aggregate. simpl. rewrite Hn. done.
  - intros evs s Hrun. eapply no_issue_without_chunks; [done|lia|done].
Qed.

(** X3 (decoding fails).  When the file cannot be read or decoded the job
    becomes Error with the message of the failure (a fixed text when what
    was thrown is not an [Error]), progress 0 and no transcript; no
    request is issued afterwards. *)
Theorem decode_failure_no_requests (b : AudioBuffer.t) (e : Thrown) evs s :
  run b initial (EvBegin :: EvDecodeFailed e :: evs) = Some s ->
  status (job s) = ERROR
  /\ progress (job s) = 0
  /\ transcription (job s) = []
  /\ error (job s)
     = Some match e with
            | ErrorObject message => message
            | NotAnError => lit "An unknown error occurred."
            end
  /\ forall i0, EvIssue i0 ∉ evs.
Proof.
  intros Hrun. destruct (decode_failed_run b e evs s Hrun) as [-> Hno].
  by destruct e.
Qed.

(** X4 (a run in which every request succeeds).  When every request comes
    back with a text that does not start with ["Error:"], [processFile]
    goes through all its waves and returns with the job Done: progress
    100, no error, and as transcript one turn per chunk, in the order of
    the chunks, each with the trimmed text of its chunk and the time
    range of its chunk. *)
Theorem processFile_succeeds (b : AudioBuffer.t) (parts : Z -> jsstring) :
  AudioBuffer.valid b ->
  (forall j, 0 <= j < numChunks b -> startsWith (parts j) (lit "Error:") = false) ->
  exists s,
    run b initial (successful_run b parts) = Some s
    /\ phase s = Returned
    /\ job s = {| status := DONE; progress := 100;
                  transcription :=
                    (fun j => {| text := trim (parts j);
                                 startTime := chunkStartTime j;
                                 endTime := chunkEndTime b j |}) <$> seqZ 0 (numChunks b);
                  error := None |}.
Proof.
  intros Hvalid Hok. unfold successful_run.
  change (EvBegin :: EvDecoded :: loop_events b parts 0)
    with ([EvBegin; EvDecoded] ++ loop_events b parts 0).
  destruct (run b initial [EvBegin; EvDecoded]) as [s2|] eqn:Hrun2; [|done].
  assert (phase s2 = AtLoopHead /\ i s2 = 0) as [Hph2 Hi2].
  { cbn in Hrun2. by injection Hrun2 as <-. }
  destruct (loop_run b parts 0 s2 Hph2 Hi2 Hok) as (s & Hrun & Hph & Hst).
  exists s. rewrite run_app, Hrun2. split; [done|]. split; [done|].
  assert (run b initial ([EvBegin; EvDecoded] ++ loop_events b parts 0) = Some s) as Hall
    by (by rewrite run_app, Hrun2).
  destruct (run_invariant b Hvalid _ _ Hall) as (Hinv & _).
  unfold phase_invariant in Hinv. rewrite Hph in Hinv.
  destruct Hinv as [(_ & Hpr & Herr & Hlen & Hturns & _)|(Hst' & _)]; [|congruence].
  destruct (job s) as [st pr tr er]. simpl in *. subst. f_equal.
  apply list_eq. intros k. rewrite list_lookup_fmap.
  destruct (decide (Z.of_nat k < numChunks b)) as [Hk|Hk].
  - rewrite lookup_seqZ_lt by lia. simpl.
    destruct (lookup_lt_is_Some_2 tr k ltac:(lia)) as [t Ht]. rewrite Ht. f_equal.
    destruct (Hturns k t Ht) as (part & Hin & _ & ->).
    apply elem_of_cons in Hin as [?|Hin]; [done|].
    apply elem_of_cons in Hin as [?|Hin]; [done|].
    apply (loop_events_settles b parts) in Hin. injection Hin as ->. done.
  - rewrite lookup_seqZ_ge by lia. simpl. apply lookup_ge_None_2. lia.
Qed.

End BatchExtras.
(* ===================================================================== *)
(** * Strings: [split], [join], [slice], numbers written in decimal       *)
(* ===================================================================== *)

Section Text.
Import JS JSLib Reading.

Lemma split_nonempty sep s : split sep s <> [].
Proof. destruct s as [|c s]; simpl; [done|]. destruct (c =? sep)%N; [done|]. by destruct (split sep s). Qed.

Lemma join_cons sep x l : l <> [] -> join sep (x :: l) = x ++ sep ++ join sep l.
Proof. by destruct l. Qed.

Lemma join_app sep l1 l2 :
  l1 <> [] -> l2 <> [] -> join sep (l1 ++ l2) = join sep l1 ++ sep ++ join sep l2.
Proof.
  intros H1 H2. induction l1 as [|x l1 IH]; [done|].
  destruct l1 as [|y l1].
  - simpl app. by rewrite join_cons.
  - rewrite <- app_comm_cons, join_cons by done.
    rewrite IH by done. rewrite (join_cons _ x) by done. by rewrite <- !app_assoc.
Qed.

(** Joining what [split] gives is the string again. *)
Lemma join_split sep s : join [sep] (split sep s) = s.
Proof.
  induction s as [|c s IH]; [done|]. simpl.
  destruct (c =? sep)%N eqn:E.
  - apply N.eqb_eq in E as ->. rewrite join_cons by apply split_nonempty.
    simpl. by rewrite IH.
  - destruct (split sep s) as [|w ws] eqn:Hs; [by apply split_nonempty in Hs|].
    destruct ws as [|w' ws]; simpl in *; by rewrite <- IH.
Qed.

Lemma split_no_sep sep s : Forall (fun w => sep ∉ w) (split sep s).
Proof.
  induction s as [|c s IH]; simpl.
  - constructor; [apply not_elem_of_nil|constructor].
  - destruct (c =? sep)%N eqn:E.
    + constructor; [apply not_elem_of_nil|done].
    + destruct (split sep s) as [|w ws] eqn:Hs; [by apply split_nonempty in Hs|].
      apply Forall_cons in IH as [Hw Hws]. constructor; [|done].
      apply not_elem_of_cons. split; [|done]. intros ->. by rewrite N.eqb_refl in E.
Qed.

Lemma split_one sep s : sep ∉ s -> split sep s = [s].
Proof.
  induction s as [|c s IH]; [done|]. intros [Hc Hs]%not_elem_of_cons. simpl.
  destruct (c =? sep)%N eqn:E; [apply N.eqb_eq in E; congruence|].
  by rewrite IH.
Qed.

Lemma split_app_sep sep s1 s2 :
  sep ∉ s1 -> split sep (s1 ++ sep :: s2) = s1 :: split sep s2.
Proof.
  induction s1 as [|c s1 IH]; intros Hs; simpl.
  - by rewrite N.eqb_refl.
  - apply not_elem_of_cons in Hs as [Hc Hs].
    destruct (c =? sep)%N eqn:E; [apply N.eqb_eq in E; congruence|].
    by rewrite IH.
Qed.

(** Splitting what [join] gave gives the strings again, when none of
    them holds the separator. *)
Lemma split_join sep l :
  l <> [] -> Forall (fun w => sep ∉ w) l -> split sep (join [sep] l) = l.
Proof.
  induction l as [|x l IH]; [done|]. intros _ [Hx Hl]%Forall_cons.
  destruct l as [|y l].
  - simpl. by apply split_one.
  - rewrite join_cons by done. cbn [app]. rewrite split_app_sep by done.
    by rewrite IH.
Qed.

Lemma split_length_one sep s : length (split sep s) = 1%nat <-> sep ∉ s.
Proof.
  split; [|by intros ->%split_one].
  induction s as [|c s IH]; [intros _; apply not_elem_of_nil|]. simpl.
  destruct (c =? sep)%N eqn:E.
  - simpl. pose proof (split_nonempty sep s). destruct (split sep s); [done|]. done.
  - destruct (split sep s) as [|w ws] eqn:Hs; [by apply split_nonempty in Hs|].
    simpl in *. intros Hl. apply not_elem_of_cons. split; [|by apply IH].
    intros ->. by rewrite N.eqb_refl in E.
Qed.

Lemma slice_init {A} (l : list A) (x : A) : slice (l ++ [x]) 0 (-1) = l.
Proof.
  unfold slice. cbv zeta. change (0 <? 0) with false. change (-1 <? 0) with true.
  cbv iota. rewrite length_app. simpl length.
  rewrite Z.min_l, Z.max_l by lia.
  replace (Z.to_nat (_ - 0)) with (length l) by lia.
  change (Z.to_nat 0) with 0%nat. by rewrite drop_0, take_app_length.
Qed.

Lemma list_init_last {A} (l : list A) : l <> [] -> exists l' x, l = l' ++ [x].
Proof.
  intros Hl. destruct (exists_last Hl) as (l' & x & ->). by exists l', x.
Qed.

(** ** Decimal digits *)

(** A checker for all integers from 0 below [n]. *)
Lemma below_by_cases (n : nat) (P : Z -> bool) :
  forallb P (seqZ 0 (Z.of_nat n)) = true -> forall k, 0 <= k < Z.of_nat n -> P k = true.
Proof.
  intros H k Hk. rewrite forallb_forall in H. apply H.
  apply list_elem_of_In, elem_of_seqZ. lia.
Qed.

Lemma digits_chars d : Forall (fun c => is_digit c = true) (digits d).
Proof. induction d; simpl; by repeat constructor. Qed.

Lemma Number_toString_chars n :
  Forall (fun c => is_digit c = true \/ c = 45%N) (Number_toString n).
Proof.
  unfold Number_toString. destruct (Z.to_int n) as [d|d].
  - eapply Forall_impl; [apply digits_chars|]. by left.
  - constructor; [by right|]. eapply Forall_impl; [apply digits_chars|]. by left.
Qed.

Lemma padStart_chars (P : code_unit -> Prop) s n fill :
  Forall P s -> Forall P fill -> Forall P (padStart s n fill).
Proof.
  intros Hs Hf. unfold padStart. destruct (n <=? length s)%nat; [done|].
  destruct fill as [|c fill]; [done|].
  apply Forall_app. split; [|done].
  apply Forall_take, Forall_concat, Forall_replicate. done.
Qed.

Lemma padStart_long s n fill : (n <= length s)%nat -> padStart s n fill = s.
Proof. intros H. unfold padStart. by apply Nat.leb_le in H as ->. Qed.

Lemma length_concat_singletons {A} (k : nat) (c : A) :
  length (concat (replicate k [c])) = k.
Proof. induction k as [|m IH]; simpl; [done|]. by rewrite IH. Qed.

Lemma padStart_length s n c :
  length (padStart s n [c]) = Nat.max n (length s).
Proof.
  unfold padStart. destruct (n <=? length s)%nat eqn:E.
  - apply Nat.leb_le in E. lia.
  - apply Nat.leb_gt in E. cbv beta iota zeta. rewrite length_app, length_take.
    unfold jsstring. rewrite length_concat_singletons. lia.
Qed.

End Text.
(* ===================================================================== *)
(** * [utils/download]: the timestamps                                    *)
(* ===================================================================== *)

Section Timestamps.
Import JS JSLib Reading Download.
Local Open Scope Q_scope.

Lemma Qfloor_unique (x : Q) (k : Z) :
  inject_Z k <= x < inject_Z (k + 1) -> Qfloor x = k.
Proof.
  intros [H1 H2]. pose proof (Qfloor_le x) as Hl. pose proof (Qlt_floor x) as Hu.
  assert (inject_Z (Qfloor x) < inject_Z (k + 1)) as A by lra.
  assert (inject_Z k < inject_Z (Qfloor x + 1)) as B by lra.
  rewrite <- Zlt_Qlt in A, B. lia.
Qed.

Lemma Math_floor_div64 (n d : Z) :
  (0 <= n < 2 ^ 53)%Z -> (0 < d)%Z ->
  Math_floor (div64 (inject_Z n) (inject_Z d)) = (n / d)%Z.
Proof.
  intros Hn Hd. unfold Math_floor. apply Qfloor_unique.
  pose proof (Z.div_mod n d ltac:(lia)) as Hdm.
  pose proof (Z.mod_pos_bound n d Hd) as Hmb.
  split.
  - apply Z_le_div64; [done..|]. nia.
  - apply Qnot_le_lt. rewrite Z_le_div64 by done. nia.
Qed.

Lemma trunc_nonneg (x : Q) : 0 <= x -> trunc x = Qfloor x.
Proof. intros H. unfold trunc. by apply Qle_bool_iff in H as ->. Qed.

Lemma trunc_comp (x y : Q) : x == y -> trunc x = trunc y.
Proof.
  intros H. unfold trunc.
  assert (Qle_bool 0 x = Qle_bool 0 y) as ->.
  { apply eq_true_iff_eq. rewrite !Qle_bool_iff. split; intros; lra. }
  destruct (Qle_bool 0 y); [by apply Qfloor_comp|].
  unfold Qceiling. f_equal. apply Qfloor_comp. lra.
Qed.

Lemma rem_comp (x x' y : Q) : x == x' -> rem x y == rem x' y.
Proof.
  intros H. unfold rem.
  assert (x / y == x' / y) as Hq by (unfold Qdiv; nra).
  rewrite (trunc_comp _ _ Hq). lra.
Qed.

Lemma rem_Z (n d : Z) :
  (0 <= n)%Z -> (0 < d)%Z -> rem (inject_Z n) (inject_Z d) == inject_Z (n mod d).
Proof.
  intros Hn Hd. unfold rem.
  assert (0 <= inject_Z n / inject_Z d) as Hq.
  { apply Qle_shift_div_l; [by apply inject_Z_pos|].
    pose proof (inject_Z_nonneg n Hn). lra. }
  rewrite trunc_nonneg by done. rewrite <- Zdiv_Qdiv.
  rewrite <- inject_Z_mult, <- inject_Z_sub.
  apply inject_Z_injective. f_equal.
  pose proof (Z.div_mod n d ltac:(lia)). lia.
Qed.

Lemma div64_comp (x x' y : Q) : x == x' -> div64 x y == div64 x' y.
Proof. intros H. unfold div64. apply double_comp. unfold Qdiv. nra. Qed.

(** The three fields of a whole number of seconds. *)
Lemma time_fields (t : Q) (n : Z) :
  t == inject_Z n -> (0 <= n < 2 ^ 53)%Z ->
  Math_floor (div64 t 3600) = (n / 3600)%Z
  /\ Math_floor (div64 (rem t 3600) 60) = (n mod 3600 / 60)%Z
  /\ Math_floor (rem t 60) = (n mod 60)%Z.
Proof.
  intros Ht Hn.
  pose proof (Z.mod_pos_bound n 3600 ltac:(lia)) as H3600.
  split; [|split].
  - unfold Math_floor. rewrite (Qfloor_comp _ _ (div64_comp _ _ 3600 Ht)).
    apply (Math_floor_div64 n 3600); lia.
  - unfold Math_floor.
    assert (rem t 3600 == inject_Z (n mod 3600)) as Hr.
    { rewrite (rem_comp _ _ 3600 Ht). apply (rem_Z n 3600); lia. }
    rewrite (Qfloor_comp _ _ (div64_comp _ _ 60 Hr)).
    apply (Math_floor_div64 (n mod 3600) 60); lia.
  - unfold Math_floor.
    assert (rem t 60 == inject_Z (n mod 60)) as Hr.
    { rewrite (rem_comp _ _ 60 Ht). apply (rem_Z n 60); lia. }
    rewrite (Qfloor_comp _ _ Hr). apply Qfloor_Z.
Qed.

(** Two digits, for a number below 100. *)
Lemma pad2_digits (k : Z) :
  (0 <= k < 100)%Z ->
  exists a b, padStart (Number_toString k) 2 (lit "0") = [a; b] /\ two_digits a b = Some k.
Proof.
  intros Hk.
  pose proof (below_by_cases 100
    (fun k => match padStart (Number_toString k) 2 (lit "0") with
              | [a; b] => match two_digits a b with
                          | Some v => (v =? k)%Z
                          | None => false
                          end
              | _ => false
              end) ltac:(vm_compute; reflexivity) k Hk) as H.
  simpl in H.
  destruct (padStart (Number_toString k) 2 (lit "0")) as [|a [|b [|? ?]]]; try done.
  exists a, b. split; [done|].
  destruct (two_digits a b) as [v|]; [|done]. apply Z.eqb_eq in H. by subst.
Qed.

(** ** The milliseconds of [formatSrtTimestamp] *)

Lemma fraction_bounds (t : Q) : 0 <= t - inject_Z (Qfloor t) < 1.
Proof.
  pose proof (Qfloor_le t). pose proof (Qlt_floor t) as Hu.
  rewrite inject_Z_plus in Hu. change (inject_Z 1) with 1 in Hu. split; lra.
Qed.

Lemma double_1 : double 1 == 1.
Proof. apply (double_Z 1). lia. Qed.

Lemma double_1000 : double 1000 == 1000.
Proof. apply (double_Z 1000). lia. Qed.

Lemma milliseconds_bounds (t : Q) : (0 <= milliseconds t <= 1000)%Z.
Proof.
  unfold milliseconds, Math_floor, mul64, sub64.
  destruct (fraction_bounds t) as [Hf0 Hf1].
  set (f := t - inject_Z (Qfloor t)) in *.
  pose proof (double_nonneg f Hf0) as Hd0.
  pose proof (double_mono f 1 ltac:(lra)) as Hd1. pose proof double_1.
  set (d := double f) in *.
  pose proof (double_nonneg (d * 1000) ltac:(lra)) as Hp0.
  pose proof (double_mono (d * 1000) 1000 ltac:(lra)) as Hp1. pose proof double_1000.
  set (p := double (d * 1000)) in *.
  assert (0 <= p) as A by lra. assert (p <= 1000) as B by lra.
  apply Math_round_mono in A, B.
  change (Math_round 0) with 0%Z in A. change (Math_round 1000) with 1000%Z in B. lia.
Qed.

Lemma milliseconds_overflow (t : Q) :
  9996 # 10000 <= t - inject_Z (Qfloor t) -> milliseconds t = 1000%Z.
Proof.
  intros Hf. pose proof (milliseconds_bounds t) as Hb.
  unfold milliseconds, Math_floor, mul64, sub64 in *.
  destruct (fraction_bounds t) as [Hf0 Hf1].
  set (f := t - inject_Z (Qfloor t)) in *.
  destruct (double_error f Hf0) as [Hd _].
  pose proof (double_nonneg f Hf0) as Hd0.
  set (d := double f) in *.
  destruct (double_error (d * 1000) ltac:(lra)) as [Hp _].
  set (p := double (d * 1000)) in *.
  set (e := 1 # 9007199254740992) in *.
  assert (0 < e) as He0 by done. assert (e <= 1 # 100000) as He1 by done.
  assert (f * e <= e) as Hfe by nra.
  assert (d <= 1 + e) as Hd1.
  { pose proof (double_mono f 1 ltac:(lra)) as H1. pose proof double_1. fold d in H1. lra. }
  assert (d * 1000 * e <= (1 + e) * 1000 * e) as Hde by nra.
  assert ((1 + e) * 1000 * e <= 1 # 50) as Hee by nra.
  assert (1999 # 2 <= p) as A by lra.
  apply Math_round_mono in A. change (Math_round (1999 # 2)) with 1000%Z in A. lia.
Qed.

Lemma milliseconds_below (t : Q) :
  t - inject_Z (Qfloor t) <= 9994 # 10000 -> (milliseconds t <= 999)%Z.
Proof.
  intros Hf. unfold milliseconds, Math_floor, mul64, sub64 in *.
  destruct (fraction_bounds t) as [Hf0 Hf1].
  set (f := t - inject_Z (Qfloor t)) in *.
  destruct (double_error f Hf0) as [_ Hd].
  pose proof (double_nonneg f Hf0) as Hd0.
  set (d := double f) in *.
  destruct (double_error (d * 1000) ltac:(lra)) as [_ Hp].
  set (p := double (d * 1000)) in *.
  set (e := 1 # 9007199254740992) in *.
  assert (0 < e) as He0 by done. assert (e <= 1 # 100000) as He1 by done.
  assert (f * e <= e) as Hfe by nra.
  assert (d <= 1 + e) as Hd1 by lra.
  assert (d * 1000 * e <= (1 + e) * 1000 * e) as Hde by nra.
  assert ((1 + e) * 1000 * e <= 1 # 50) as Hee by nra.
  assert (p <= 99945 # 100) as A by lra.
  apply Math_round_mono in A. change (Math_round (99945 # 100)) with 999%Z in A. lia.
Qed.

End Timestamps.
(* ===================================================================== *)
(** * A double rounds to itself                                           *)
(* ===================================================================== *)

Section DoubleFixed.
Import JS JSLib.
Local Open Scope Q_scope.

Lemma significand_bounds (x : Q) :
  0 < x ->
  (2 ^ 52 <= round_half_even (x / 2 ^ (ilog2 x - 52)) <= 2 ^ 53)%Z.
Proof.
  intros Hx. destruct (scaled_bounds x Hx) as [H1 H2].
  split.
  - rewrite <- (round_half_even_Z (2 ^ 52)%Z). apply round_half_even_mono.
    rewrite pow2_Z by done. done.
  - rewrite <- (round_half_even_Z (2 ^ 53)%Z). apply round_half_even_mono.
    rewrite pow2_Z by done. lra.
Qed.

Lemma nearest53_idem (x : Q) : 0 < x -> nearest53 (nearest53 x) == nearest53 x.
Proof.
  intros Hx. pose proof (significand_bounds x Hx) as [Hm1 Hm2].
  pose proof (nearest53_pos x Hx) as Hy.
  unfold nearest53 at 2 3. unfold nearest53 in Hy.
  set (e := (ilog2 x - 52)%Z) in *.
  set (m := round_half_even (x / 2 ^ e)) in *.
  pose proof (pow2_pos e) as Hu.
  assert (2 ^ ilog2 x == 2 ^ 52 * 2 ^ e) as E1.
  { rewrite <- pow2_plus. unfold e. by replace (52 + (ilog2 x - 52))%Z with (ilog2 x) by lia. }
  assert (2 ^ (ilog2 x + 1) == 2 ^ 53 * 2 ^ e) as E2.
  { rewrite <- pow2_plus. unfold e.
    by replace (53 + (ilog2 x - 52))%Z with (ilog2 x + 1)%Z by lia. }
  assert (2 ^ 52 <= inject_Z m) as L.
  { rewrite <- pow2_Z by done. by rewrite <- Zle_Qle. }
  set (y := inject_Z m * 2 ^ e) in *.
  destruct (decide (m = 2 ^ 53)%Z) as [Hm|Hm].
  - assert (inject_Z m == 2 ^ 53) as Em by (rewrite Hm; by rewrite pow2_Z).
    assert (2 ^ (ilog2 x + 1 + 1) == 2 * 2 ^ (ilog2 x + 1)) as E3 by apply pow2_succ.
    assert (ilog2 y = (ilog2 x + 1)%Z) as Hl.
    { apply ilog2_unique. unfold y. split; nra. }
    unfold nearest53. rewrite Hl.
    replace (ilog2 x + 1 - 52)%Z with (e + 1)%Z by (unfold e; lia).
    assert (2 ^ (e + 1) == 2 * 2 ^ e) as E4 by apply pow2_succ.
    rewrite (round_half_even_comp _ (inject_Z (2 ^ 52))).
    2: { rewrite pow2_Z by done. unfold y. rewrite E4, Em.
         change (2 ^ 53) with (2 * 2 ^ 52). field. lra. }
    rewrite round_half_even_Z, pow2_Z by done. unfold y. rewrite E4, Em.
    change (2 ^ 53) with (2 * 2 ^ 52). ring.
  - assert (inject_Z m < 2 ^ 53) as U.
    { rewrite <- pow2_Z by done. rewrite <- Zlt_Qlt. lia. }
    assert (ilog2 y = ilog2 x) as Hl.
    { apply ilog2_unique. unfold y. split; nra. }
    unfold nearest53. rewrite Hl. fold e.
    rewrite (round_half_even_comp _ (inject_Z m)).
    2: { unfold y. field. lra. }
    rewrite round_half_even_Z. reflexivity.
Qed.

Lemma double_idem (x : Q) : double (double x) == double x.
Proof.
  unfold double at 2 3. destruct (Qcompare_spec x 0) as [E|E|E].
  - by apply double_0.
  - pose proof (nearest53_pos (- x) ltac:(lra)) as Hy.
    assert (double (- nearest53 (- x)) == - nearest53 (- - nearest53 (- x))) as ->.
    { unfold double. destruct (Qcompare_spec (- nearest53 (- x)) 0); [lra|reflexivity|lra]. }
    apply Qopp_comp. rewrite (nearest53_comp (- - nearest53 (- x)) (nearest53 (- x))).
    + apply nearest53_idem. lra.
    + ring.
    + lra.
  - rewrite double_pos by (by apply nearest53_pos). by apply nearest53_idem.
Qed.

(** Adding a number that is not negative to a double does not give less. *)
Lemma add64_ge (x y : Q) : 0 <= y -> double x <= add64 (double x) y.
Proof.
  intros Hy. unfold add64. rewrite <- (double_idem x) at 1.
  apply double_mono. lra.
Qed.

End DoubleFixed.

Section DownloadExtras.
Import JS JSLib Reading Types Download FileCard.

Lemma formatTimestamp_chars (t : Q) :
  Forall (fun c => is_digit c = true \/ c = 45%N \/ c = 58%N) (formatTimestamp t).
Proof.
  assert (forall n, Forall (fun c => is_digit c = true \/ c = 45%N \/ c = 58%N)
                      (padStart (Number_toString n) 2 (lit "0"))) as Hpad.
  { intros n. apply padStart_chars.
    - eapply Forall_impl; [apply Number_toString_chars|]. simpl. tauto.
    - repeat constructor. }
  unfold formatTimestamp. repeat apply Forall_app_2; try apply Hpad;
    repeat constructor; by right; right.
Qed.

Lemma txtLine_no_LF (turn : TranscriptionTurn) :
  10%N ∉ text turn -> 10%N ∉ txtLine turn.
Proof.
  intros Ht. unfold txtLine. rewrite !not_elem_of_app. split_and!; try done.
  - by intros ?%list_elem_of_singleton.
  - intros Hin. pose proof (formatTimestamp_chars (startTime turn)) as Hc.
    rewrite Forall_forall in Hc. by destruct (Hc _ Hin) as [?|[?|?]].
  - intros Hin. apply elem_of_cons in Hin as [?|Hin]; [done|].
    by apply list_elem_of_singleton in Hin.
Qed.

(** The eight characters of a whole number of seconds below 100 hours. *)
Lemma formatTimestamp_digits (t : Q) (n : Z) :
  (t == inject_Z n)%Q ->
  0 <= n < 360000 ->
  exists h1 h0 m1 m0 s1 s0,
    formatTimestamp t = [h1; h0; 58%N; m1; m0; 58%N; s1; s0]
    /\ two_digits h1 h0 = Some (n / 3600)
    /\ two_digits m1 m0 = Some (n mod 3600 / 60)
    /\ two_digits s1 s0 = Some (n mod 60).
Proof.
  intros Ht Hn. unfold formatTimestamp.
  destruct (time_fields t n Ht ltac:(lia)) as (-> & -> & ->).
  pose proof (Z.mod_pos_bound n 3600 ltac:(lia)) as Hmb.
  destruct (pad2_digits (n / 3600)) as (h1 & h0 & -> & Hh).
  { split; [apply Z.div_pos; lia|]. apply Z.div_lt_upper_bound; lia. }
  destruct (pad2_digits (n mod 3600 / 60)) as (m1 & m0 & -> & Hm).
  { split; [apply Z.div_pos; lia|]. apply Z.div_lt_upper_bound; lia. }
  destruct (pad2_digits (n mod 60)) as (s1 & s0 & -> & Hsec).
  { pose proof (Z.mod_pos_bound n 60 ltac:(lia)). lia. }
  by exists h1, h0, m1, m0, s1, s0.
Qed.

Lemma read_timestamp_fields (n : Z) h1 h0 m1 m0 s1 s0 :
  0 <= n ->
  two_digits h1 h0 = Some (n / 3600) ->
  two_digits m1 m0 = Some (n mod 3600 / 60) ->
  two_digits s1 s0 = Some (n mod 60) ->
  read_timestamp [h1; h0; 58%N; m1; m0; 58%N; s1; s0] = Some n.
Proof.
  intros Hn Hh Hm Hsec. cbn. rewrite Hh, Hm, Hsec.
  pose proof (Z.div_mod n 3600 ltac:(lia)) as Hdm.
  pose proof (Z.mod_pos_bound n 3600 ltac:(lia)) as Hmb.
  pose proof (Z.div_mod (n mod 3600) 60 ltac:(lia)) as Hdm'.
  pose proof (Z.mod_pos_bound (n mod 3600) 60 ltac:(lia)) as Hmb'.
  assert (n mod 60 = (n mod 3600) mod 60) as Hs.
  { symmetry. apply Z.mod_mod_divide. by exists 60. }
  assert ((n mod 3600 / 60 <? 60) = true) as ->.
  { apply Z.ltb_lt. apply Z.div_lt_upper_bound; lia. }
  assert ((n mod 60 <? 60) = true) as ->.
  { apply Z.ltb_lt. apply Z.mod_pos_bound. lia. }
  simpl. f_equal. lia.
Qed.

(** X5 (timestamps of whole seconds).  For a whole number of seconds
    below 100 hours, [formatTimestamp] gives the eight characters
    [HH:MM:SS], and reading the three fields back gives the number of
    seconds again. *)
Theorem formatTimestamp_round_trip (t : Q) (n : Z) :
  (t == inject_Z n)%Q ->
  0 <= n < 360000 ->
  length (formatTimestamp t) = 8%nat
  /\ read_timestamp (formatTimestamp t) = Some n.
Proof.
  intros Ht Hn.
  destruct (formatTimestamp_digits t n Ht Hn)
    as (h1 & h0 & m1 & m0 & s1 & s0 & -> & Hh & Hm & Hsec).
  split; [done|]. apply read_timestamp_fields; [lia|done..].
Qed.

(** X6 (the milliseconds of an SRT timestamp).  The millisecond field of
    [formatSrtTimestamp] is [Math.round] of the fraction of the second
    times 1000: a number from 0 to 1000.  It is at most 999 when the
    fraction is at most 0.9994; when the fraction is 0.9996 or more it is
    1000, written with four digits, and the seconds are not carried. *)
Theorem srt_milliseconds_field (t : Q) :
  let fraction := (t - inject_Z (Qfloor t))%Q in
  0 <= milliseconds t <= 1000
  /\ ((fraction <= 9994 # 10000)%Q -> milliseconds t <= 999)
  /\ ((9996 # 10000 <= fraction)%Q ->
      milliseconds t = 1000
      /\ formatSrtTimestamp t
         = padStart (Number_toString (Math_floor (div64 t 3600))) 2 (lit "0") ++ lit ":"
           ++ padStart (Number_toString (Math_floor (div64 (rem t 3600) 60))) 2 (lit "0")
           ++ lit ":"
           ++ padStart (Number_toString (Math_floor (rem t 60))) 2 (lit "0")
           ++ lit ",1000").
Proof.
  intros fraction. split; [apply milliseconds_bounds|]. split.
  - apply milliseconds_below.
  - intros Hf. pose proof (milliseconds_overflow t Hf) as Hms.
    split; [done|]. unfold formatSrtTimestamp. rewrite Hms. done.
Qed.

(** X7 (the lines of the text export).  When no turn has a line feed in
    its text, [generateTxt] gives one line per turn, in the order of the
    turns: the lines of the result are exactly [[HH:MM:SS] text] of every
    turn.  For no turn the result is the empty string. *)
Theorem generateTxt_lines (transcript : list TranscriptionTurn) :
  Forall (fun turn => 10%N ∉ text turn) transcript ->
  generateTxt [] = []
  /\ (transcript <> [] ->
      split 10%N (generateTxt transcript)
      = (fun turn => lit "[" ++ formatTimestamp (startTime turn) ++ lit "] " ++ text turn)
          <$> transcript).
Proof.
  intros Hno. split; [done|]. intros Hne. unfold generateTxt, LF.
  apply split_join.
  - by destruct transcript.
  - apply Forall_fmap. eapply Forall_impl; [exact Hno|].
    intros turn Ht. by apply txtLine_no_LF.
Qed.

(** X8 (the cues of the SRT export).  [generateSrt] of a transcript with
    one more turn is [generateSrt] of the transcript followed by the cue
    of the new turn: its number (one more than the number of turns
    before it), its two timestamps, its text, each on a line; an empty
    line separates it from the cue before. *)
Theorem generateSrt_append (transcript : list TranscriptionTurn) (turn : TranscriptionTurn) :
  generateSrt [] = []
  /\ generateSrt (transcript ++ [turn])
     = match transcript with
       | [] => []
       | _ :: _ => generateSrt transcript ++ LF
       end
       ++ Number_toString (Z.of_nat (length transcript) + 1) ++ LF
       ++ formatSrtTimestamp (startTime turn) ++ lit " --> "
       ++ formatSrtTimestamp (endTime turn) ++ LF
       ++ text turn ++ LF.
Proof.
  split; [done|]. unfold generateSrt. rewrite imap_app. cbn [imap].
  rewrite Nat.add_0_r. fold (srtCue (length transcript) turn).
  destruct transcript as [|t0 tr]; [done|].
  rewrite join_app; [|done|done]. by rewrite <- !app_assoc.
Qed.

(** X9 (the name of a download).  The name [handleDownload] gives a
    download is the file's name up to its last dot, followed by
    ["-transcription"].  For a name without a dot that stem is empty: the
    download is called ["-transcription"]. *)
Theorem fileName_stem (name : jsstring) :
  exists stem,
    fileName name = stem ++ lit "-transcription"
    /\ (46%N ∉ name -> stem = [])
    /\ (46%N ∈ name ->
        exists extension, (46%N ∉ extension) /\ name = stem ++ (lit "." ++ extension)).
Proof.
  unfold fileName.
  destruct (list_init_last (split 46%N name) (split_nonempty _ _)) as (init & last & Hsplit).
  rewrite Hsplit, slice_init. exists (join (lit ".") init). split; [done|].
  pose proof (join_split 46%N name) as Hjoin. rewrite Hsplit in Hjoin.
  pose proof (split_no_sep 46%N name) as Hno. rewrite Hsplit in Hno.
  apply Forall_app in Hno as [_ Hlast]. apply Forall_cons in Hlast as [Hlast _].
  pose proof (split_length_one 46%N name) as Hone. rewrite Hsplit, length_app in Hone.
  simpl in Hone. split.
  - intros Hdot. apply Hone in Hdot. destruct init; [done|simpl in Hdot; lia].
  - intros Hdot. exists last. split; [done|].
    destruct init as [|x init].
    + exfalso. assert (46%N ∉ name) as Hn by (by apply Hone). done.
    + rewrite <- Hjoin. change [46%N] with (lit "."). by rewrite join_app.
Qed.

End DownloadExtras.

Section FileExtras.
Import JS Types GeminiService App FileCard.

Lemma getTranscriptionForDisplay_spec (item : TranscribedFile) :
  getTranscriptionForDisplay item
  = if bool_decide (status item = TRANSCRIBING \/ status item = DONE)
    then transcription item else [].
Proof.
  unfold getTranscriptionForDisplay.
  destruct (status item), (transcription item); done.
Qed.

(** X10 (what the card shows of a failed job).  While a job is
    Transcribing its card shows the transcript so far.  When the request
    of a chunk then fails, [processFile] keeps that transcript in the job,
    but the card of the job, now in Error, shows no transcript and no
    copy or download button. *)
Theorem failed_job_shows_no_transcript (b : AudioBuffer.t) evs s j part e s' :
  AudioBuffer.valid b ->
  run b initial evs = Some s ->
  status (job s) = TRANSCRIBING ->
  chunkCallback b j part = Rejected e ->
  step b s (EvSettle j part) = Some s' ->
  getTranscriptionForDisplay (job s) = transcription (job s)
  /\ transcription (job s') = transcription (job s)
  /\ status (job s') = ERROR
  /\ getTranscriptionForDisplay (job s') = []
  /\ showsActions (job s') = false.
Proof.
  intros Hvalid Hrun Hst Hcb Hstep.
  pose proof (run_invariant b Hvalid evs s Hrun) as Hinv.
  destruct (transcribing_state b evs s Hinv Hst) as ([Hp|Hp] & _ & _);
    unfold step in Hstep; rewrite Hp in Hstep; [done|].
  destruct (is_pending (promises s) j); [|done].
  rewrite Hcb in Hstep. injection Hstep as <-.
  rewrite !getTranscriptionForDisplay_spec. unfold showsActions. simpl. rewrite Hst.
  done.
Qed.

End FileExtras.

Section ListExtras.
Import JS Types App.

(** X11 (updating one job of the list).  [updateFileState] changes
    neither the number, the order nor the ids of the files; a file with
    another id is left as it is; when no file has the id -- after
    [clearAll], say -- the list is unchanged; and it commutes with the
    upload of files with other ids. *)
Theorem updateFileState_frame (fileId : jsstring) (updates : PartialFile)
    (files : list Files.Entry) :
  Files.id <$> Files.updateFileState fileId updates files = Files.id <$> files
  /\ (forall (k : nat) f, files !! k = Some f -> Files.id f <> fileId ->
        Files.updateFileState fileId updates files !! k = Some f)
  /\ (forall (k : nat) f, files !! k = Some f -> Files.id f = fileId ->
        Files.updateFileState fileId updates files !! k
        = Some {| Files.id := fileId;
                  Files.item := updateFileState (Files.item f) updates |})
  /\ (fileId ∉ Files.id <$> files -> Files.updateFileState fileId updates files = files)
  /\ Files.updateFileState fileId updates (Files.clearAll files) = []
  /\ (forall newIds, fileId ∉ newIds ->
        Files.updateFileState fileId updates (Files.handleFileChange newIds files)
        = Files.handleFileChange newIds (Files.updateFileState fileId updates files)).
Proof.
  assert (forall l, fileId ∉ Files.id <$> l -> Files.updateFileState fileId updates l = l)
    as Hfresh.
  { induction l as [|f l IH]; [done|]. rewrite fmap_cons.
    intros [Hf Hl]%not_elem_of_cons. unfold Files.updateFileState in *.
    rewrite fmap_cons, IH by done. by rewrite decide_False by done. }
  unfold Files.updateFileState. split_and!.
  - rewrite <- list_fmap_compose. apply list_fmap_ext. intros k f _. simpl.
    by destruct (decide _).
  - intros k f Hk Hf. rewrite list_lookup_fmap, Hk. simpl. by rewrite decide_False.
  - intros k f Hk Hf. rewrite list_lookup_fmap, Hk. simpl. rewrite decide_True by done.
    by rewrite Hf.
  - apply Hfresh.
  - done.
  - intros newIds Hnew. unfold Files.handleFileChange. rewrite fmap_app. f_equal.
    apply Hfresh. rewrite <- list_fmap_compose. simpl. by rewrite list_fmap_id.
Qed.

(** X12 (which job is taken next).  The effect of [App] starts no job
    while one is being processed.  Otherwise it takes the first job of the
    list that is Queued; and when a job is queued, uploading more files
    does not change which one is taken. *)
Theorem nextToProcess_first_queued (files : list Files.Entry) :
  Files.nextToProcess files true = None
  /\ (forall f, Files.nextToProcess files false = Some f ->
        exists pre entry post,
          files = pre ++ entry :: post
          /\ Files.id entry = f
          /\ status (Files.item entry) = QUEUED
          /\ Forall (fun g => status (Files.item g) <> QUEUED) pre)
  /\ (Files.nextToProcess files false = None ->
        Forall (fun g => status (Files.item g) <> QUEUED) files)
  /\ (forall f newIds, Files.nextToProcess files false = Some f ->
        Files.nextToProcess (Files.handleFileChange newIds files) false = Some f).
Proof.
  unfold Files.nextToProcess, Files.findQueued. split_and!.
  - by destruct (List.find _ _).
  - induction files as [|g files IH]; [done|]. simpl.
    destruct (bool_decide (status (Files.item g) = QUEUED)) eqn:E.
    + simpl. intros f [= <-]. apply bool_decide_eq_true in E.
      exists [], g, files. by repeat split.
    + intros f Hf. apply bool_decide_eq_false in E.
      destruct (IH f Hf) as (pre & entry & post & -> & ? & ? & ?).
      exists (g :: pre), entry, post. repeat split; try done. by constructor.
  - induction files as [|g files IH]; [done|]. simpl.
    destruct (bool_decide (status (Files.item g) = QUEUED)) eqn:E; [done|].
    intros Hf. apply bool_decide_eq_false in E. constructor; [done|]. by apply IH.
  - intros f newIds. unfold Files.handleFileChange.
    induction files as [|g files IH]; [done|]. simpl.
    destruct (bool_decide (status (Files.item g) = QUEUED)); [done|]. apply IH.
Qed.

End ListExtras.
(* ===================================================================== *)
(** * The live session: the order of the turns                            *)
(* ===================================================================== *)

Section LiveOrder.
Import JS JSLib Types RealtimeTranscriber Session Realtime.

Variable performance_now : nat -> Q.
Hypothesis Hclock : forall k, (performance_now k <= performance_now (S k))%Q.

Lemma elapsed_mono (k0 k k' : nat) :
  (k <= k')%nat -> (elapsed performance_now k0 k <= elapsed performance_now k0 k')%Q.
Proof.
  intros Hk. unfold elapsed, div64, sub64. apply double_mono.
  apply Qmult_le_compat_r; [|done]. apply double_mono.
  pose proof (clock_mono performance_now Hclock k k' Hk). lra.
Qed.

Lemma elapsed_nonneg (k0 k : nat) :
  (k0 <= k)%nat -> (0 <= elapsed performance_now k0 k)%Q.
Proof.
  intros Hk. unfold elapsed, div64, sub64. apply double_nonneg.
  apply Qle_shift_div_l; [done|]. rewrite Qmult_0_l. apply double_nonneg.
  pose proof (clock_mono performance_now Hclock k0 k Hk). lra.
Qed.

Lemma Timed_weaken k0 l hi hi' :
  Timed performance_now k0 l hi -> (hi <= hi')%nat -> Timed performance_now k0 l hi'.
Proof.
  intros H Hhi. destruct H.
  - constructor. lia.
  - econstructor; try done. lia.
Qed.

Lemma Timed_chronological k0 l hi :
  Timed performance_now k0 l hi ->
  chronological l
  /\ Forall (fun t => (endTime t <= elapsed performance_now k0 hi)%Q) l
  /\ (k0 <= hi)%nat.
Proof.
  induction 1 as [hi Hhi|l p ks ke hi t Hl IH Hp Hks Hke Hs He].
  - split; [|split; [constructor|done]]. split; [constructor|]. by intros k a b' ?.
  - destruct IH as ((Hall & Hadj) & Hend & Hk0).
    pose proof (elapsed_mono k0 p ks Hp) as Hpks.
    pose proof (elapsed_mono k0 ks ke Hks) as Hkske.
    pose proof (elapsed_mono k0 ke hi Hke) as Hkehi.
    pose proof (elapsed_nonneg k0 ks ltac:(lia)) as H0.
    split; [split|split].
    + apply Forall_app. split; [done|]. constructor; [|constructor].
      rewrite Hs, He. done.
    + intros k a b' Ha Hb.
      destruct (decide (S k < length l)%nat) as [Hlt|Hge].
      * rewrite lookup_app_l in Ha, Hb by lia. by eapply Hadj.
      * assert (S k = length l) as Hk.
        { apply lookup_lt_Some in Hb. rewrite length_app in Hb. simpl in Hb. lia. }
        rewrite lookup_app_l in Ha by lia.
        rewrite lookup_app_r, Hk, Nat.sub_diag in Hb by lia. injection Hb as <-.
        rewrite Forall_forall in Hend.
        pose proof (Hend a ltac:(by eapply list_elem_of_lookup_2)) as Ha'. simpl in Ha'.
        rewrite Hs. lra.
    + apply Forall_app. split.
      * eapply Forall_impl; [exact Hend|]. intros a Ha. simpl in *. lra.
      * constructor; [|constructor]. rewrite He. done.
    + lia.
Qed.

Lemma startRecording_session session w0 :
  session_invariant performance_now (startRecording performance_now (Connected session) w0).
Proof.
  exists (clockReads w0). simpl. split; [done|]. split; [lia|]. constructor. lia.
Qed.

Lemma onInputTranscription_order m w :
  session_invariant performance_now w ->
  session_invariant performance_now (onInputTranscription performance_now m w).
Proof.
  intros (k0 & Href & Hk0 & Hinv). unfold onInputTranscription.
  destruct (inputTranscriptionText m) as [text|]; [|by exists k0].
  destruct (truthy_string text); [|by exists k0].
  unfold textUpdater. destruct (currentTurn (component w)) as [prev|] eqn:Hprev.
  - exists k0. simpl. rewrite app_nil_r. split; [done|]. split; [done|].
    destruct Hinv as (ks & ? & ? & ?). by exists ks.
  - unfold elapsedTime. rewrite Href. exists k0. simpl. rewrite app_nil_r.
    split; [done|]. split; [lia|]. exists (clockReads w). split; [done|]. split; [lia|done].
Qed.

Lemma onTurnComplete_order w :
  session_invariant performance_now w ->
  session_invariant performance_now (onTurnComplete performance_now w).
Proof.
  intros (k0 & Href & Hk0 & Hinv). unfold onTurnComplete, turnCompleteUpdater.
  destruct (currentTurn (component w)) as [prev|] eqn:Hprev.
  - destruct Hinv as (ks & Htimed & Hks & Hstart).
    destruct (truthy_string (trim (CurrentTurn.text prev))).
    + unfold elapsedTime. rewrite Href. exists k0. simpl.
      split; [done|]. split; [lia|].
      eapply (Timed_snoc _ _ _ ks ks (clockReads w)); try done; lia.
    + exists k0. simpl. rewrite app_nil_r. split; [done|]. split; [done|].
      by eapply Timed_weaken.
  - exists k0. simpl. rewrite app_nil_r. done.
Qed.

Lemma handle_order w ev :
  session_event ev ->
  session_invariant performance_now w ->
  session_invariant performance_now (handle performance_now w ev).
Proof.
  intros Hev Hinv. destruct ev as [outcome| |m|message schedule|schedule]; try done; simpl.
  unfold onmessage.
  pose proof (onInputTranscription_order m w Hinv) as H1.
  assert (session_invariant performance_now
            (if turnComplete m
             then onTurnComplete performance_now (onInputTranscription performance_now m w)
             else onInputTranscription performance_now m w)) as H2.
  { destruct (turnComplete m); [by apply onTurnComplete_order|done]. }
  destruct (onModelAudio_frame m
              (if turnComplete m
               then onTurnComplete performance_now (onInputTranscription performance_now m w)
               else onInputTranscription performance_now m w)) as (Hc & Hr & Hk).
  destruct H2 as (k0 & ? & ? & ?). exists k0. by rewrite Hc, Hr, Hk.
Qed.

Lemma run_order w evs :
  Forall session_event evs ->
  session_invariant performance_now w ->
  session_invariant performance_now (run performance_now w evs).
Proof.
  unfold run. revert w. induction evs as [|ev evs IH]; intros w Hevs Hinv; [done|].
  apply Forall_cons in Hevs as [Hev Hevs]. simpl. apply IH; [done|].
  by apply handle_order.
Qed.

(** In a session, the transcript with the turn in progress ended now. *)
Lemma session_ended_now w :
  session_invariant performance_now w ->
  chronological (transcript (component w))
  /\ forall ct,
       currentTurn (component w) = Some ct ->
       chronological
         (transcript (component w)
            ++ [finalized ct
                  (div64 (sub64 (performance_now (clockReads w))
                                (default 0%Q (recordingStartTimeRef (refs w)))) 1000)]).
Proof.
  intros (k0 & Href & Hk0 & Hinv). rewrite Href. simpl.
  destruct (currentTurn (component w)) as [prev|].
  - destruct Hinv as (ks & Htimed & Hks & Hstart). split.
    + by apply (Timed_chronological k0 _ ks).
    + intros ct [= <-].
      apply (Timed_chronological k0 _ (clockReads w)).
      eapply (Timed_snoc _ _ _ ks ks (clockReads w)); try done; lia.
  - split; [|done]. by apply (Timed_chronological k0 _ (clockReads w)).
Qed.

End LiveOrder.

Section LiveExtras.
Import JS JSLib Types RealtimeTranscriber Session Realtime.

Variable performance_now : nat -> Q.

Lemma chronological_snoc (l : list TranscriptionTurn) (t : TranscriptionTurn) :
  chronological l ->
  Forall (fun a => (endTime a <= startTime t)%Q) l ->
  (0 <= startTime t)%Q -> (startTime t <= endTime t)%Q ->
  chronological (l ++ [t]).
Proof.
  intros [Hall Hadj] Hend H0 Ht. split.
  - apply Forall_app. split; [done|]. by repeat constructor.
  - intros k a b' Ha Hb.
    destruct (decide (S k < length l)%nat) as [Hlt|Hge].
    + rewrite lookup_app_l in Ha, Hb by lia. by eapply Hadj.
    + assert (S k = length l) as Hk.
      { apply lookup_lt_Some in Hb. rewrite length_app in Hb. simpl in Hb. lia. }
      rewrite lookup_app_l in Ha by lia.
      rewrite lookup_app_r, Hk, Nat.sub_diag in Hb by lia. injection Hb as <-.
      rewrite Forall_forall in Hend. apply Hend. by eapply list_elem_of_lookup_2.
Qed.

(** What [stopRecording] leaves in the component. *)
Lemma stopRecording_component schedule w :
  exists appended,
    component (stopRecording performance_now schedule w)
    = {| isRecording := false;
         transcript := transcript (component w) ++ appended;
         currentTurn := None;
         error := error (component w) |}
    /\ (appended = []
        \/ exists ct t0,
             currentTurn (component w) = Some ct
             /\ recordingStartTimeRef (refs w) = Some t0
             /\ appended
                = [finalized ct (div64 (sub64 (performance_now (clockReads w)) t0) 1000)]).
Proof.
  unfold stopRecording.
  set (seen := match schedule with
               | Eager => recordingStartTimeRef (refs w)
               | AtRender => None
               end).
  assert (exists turn appended reads,
            stopUpdater performance_now (clockReads w) seen (currentTurn (component w))
            = (turn, appended, reads)
            /\ turn = None
            /\ (appended = []
                \/ exists ct t0,
                     currentTurn (component w) = Some ct
                     /\ recordingStartTimeRef (refs w) = Some t0
                     /\ appended
                        = [finalized ct
                             (div64 (sub64 (performance_now (clockReads w)) t0) 1000)]))
    as (turn & appended & reads & -> & -> & Happ).
  { unfold stopUpdater.
    destruct (currentTurn (component w)) as [ct|]; [|by eexists _, _, _; eauto].
    destruct seen as [t0|] eqn:Hseen; [|by eexists _, _, _; eauto].
    destruct (_ && _); [|by eexists _, _, _; eauto].
    eexists _, _, _. split; [done|]. split; [done|]. right. exists ct, t0.
    split; [done|]. split; [|done]. unfold seen in Hseen. by destruct schedule. }
  exists appended. split; [|done].
  by destruct (audioContextRef (refs w)) as [[]|], (outputAudioContextRef (refs w)) as [[]|].
Qed.

Lemma handle_transcript w ev :
  (forall outcome, ev <> Start outcome) ->
  transcript (component w) `prefix_of` transcript (component (handle performance_now w ev)).
Proof.
  intros Hev. destruct ev as [outcome| |m|message schedule|schedule]; simpl.
  - by destruct (Hev outcome).
  - done.
  - unfold onmessage.
    destruct (onModelAudio_frame m
                (if turnComplete m
                 then onTurnComplete performance_now (onInputTranscription performance_now m w)
                 else onInputTranscription performance_now m w)) as (-> & _ & _).
    assert (transcript (component (onInputTranscription performance_now m w))
            = transcript (component w)) as Hin.
    { unfold onInputTranscription. destruct (inputTranscriptionText m); [|done].
      destruct (truthy_string _); [|done].
      destruct (textUpdater _ _ _ _ _). simpl. by rewrite app_nil_r. }
    destruct (turnComplete m); [|by rewrite Hin].
    unfold onTurnComplete. destruct (turnCompleteUpdater _ _ _ _) as [[turn appended] reads].
    simpl. rewrite Hin. by apply prefix_app_r.
  - unfold onerror.
    match goal with |- context [stopRecording _ _ ?w1] =>
      destruct (stopRecording_component schedule w1) as (appended & -> & _) end.
    simpl. by apply prefix_app_r.
  - destruct (stopRecording_component schedule w) as (appended & -> & _).
    simpl. by apply prefix_app_r.
Qed.

Lemma texts_append (texts : list jsstring) :
  forall w ct,
    currentTurn (component w) = Some ct ->
    run performance_now w (Message <$> (text_message <$> texts))
    = {| component := {| isRecording := isRecording (component w);
                         transcript := transcript (component w);
                         currentTurn :=
                           Some {| CurrentTurn.startTime := CurrentTurn.startTime ct;
                                   CurrentTurn.text := CurrentTurn.text ct ++ concat texts |};
                         error := error (component w) |};
         refs := refs w; clockReads := clockReads w; effects := effects w |}.
Proof.
  unfold run. induction texts as [|t texts IH]; intros w ct Hct.
  - simpl. rewrite app_nil_r. destruct w as [[] ? ? ?], ct. simpl in *. by subst.
  - rewrite !fmap_cons. cbn [foldl handle].
    unfold onmessage, onInputTranscription, onModelAudio. cbn [text_message
      inputTranscriptionText turnComplete modelAudio]. 
    destruct (truthy_string t) eqn:Ht.
    + unfold textUpdater. rewrite Hct. cbn [with_turns].
      erewrite IH by done. simpl. rewrite !app_nil_r, <- app_assoc. done.
    + destruct t; [|done]. erewrite IH by done. done.
Qed.

End LiveExtras.

Section LiveExtraClaims.
Import JS JSLib Types RealtimeTranscriber Session Realtime.

(** X13 (the turns of a session are in order).  With a clock that never
    goes back: from [startRecording] on, while the channel opens and
    messages arrive, every finalized turn starts at 0 or later and ends
    no earlier than it starts, and every turn starts no earlier than the
    turn before it ends.  The same holds of the transcript with the turn
    in progress that [getFullTranscript] gives for copies and downloads,
    and of the transcript [stopRecording] leaves. *)
Theorem live_turns_chronological (performance_now : nat -> Q)
    (w0 : World) (session : SessionPromise) (evs : list Event) (schedule : UpdaterSchedule) :
  (forall k, (performance_now k <= performance_now (S k))%Q) ->
  Forall session_event evs ->
  let w := run performance_now
             (startRecording performance_now (Connected session) w0) evs in
  chronological (transcript (component w))
  /\ chronological (getFullTranscript performance_now w).1
  /\ chronological (transcript (component (stopRecording performance_now schedule w))).
Proof.
  intros Hclock Hevs w.
  pose proof (run_order performance_now _ evs Hevs
                (startRecording_session performance_now session w0)) as Hinv.
  fold w in Hinv.
  destruct (session_ended_now performance_now Hclock w Hinv) as [Htr Hend].
  split; [done|]. split.
  - unfold getFullTranscript.
    destruct (currentTurn (component w)) as [ct|] eqn:Hct; [|done].
    destruct (truthy_string _); [|done].
    destruct Hinv as (k0 & Href & Hk0 & Hinv). rewrite Hct in Hinv.
    destruct Hinv as (ks & Htimed & Hks & Hstart).
    specialize (Hend ct eq_refl). rewrite Href in Hend |- *. simpl in Hend.
    destruct (truthy_number _); [done|]. simpl.
    destruct (Timed_chronological performance_now Hclock k0 _ ks Htimed) as (_ & Hends & ?).
    apply chronological_snoc; simpl; try done.
    + eapply Forall_impl; [exact Hends|]. intros a Ha. simpl in Ha. by rewrite Hstart.
    + rewrite Hstart. apply elapsed_nonneg; [done|lia].
    + rewrite Hstart. unfold elapsed, div64. by apply add64_ge.
  - destruct (stopRecording_component performance_now schedule w)
      as (appended & -> & [->|(ct & t0 & Hct & Ht0 & ->)]); simpl.
    + by rewrite app_nil_r.
    + specialize (Hend ct Hct). by rewrite Ht0 in Hend.
Qed.

(** X14 (text gathers into one turn).  With no turn in progress, messages
    that carry transcribed text start one turn.  Its start time is taken
    when the first text that is not empty arrives: the time elapsed since
    the start of the session, in seconds, while the start reference is
    set, and the first of two clock readings minus the second once it is
    cleared.  Its text is the texts of all the messages one after the
    other.  Nothing is finalized meanwhile, and empty texts change
    nothing. *)
Theorem text_accumulates (performance_now : nat -> Q) (texts : list jsstring) (w : World) :
  currentTurn (component w) = None ->
  let w' := run performance_now w (Message <$> (text_message <$> texts)) in
  let now := performance_now (clockReads w) in
  (concat texts = [] -> w' = w)
  /\ (concat texts <> [] ->
      currentTurn (component w')
      = Some {| CurrentTurn.startTime :=
                  match recordingStartTimeRef (refs w) with
                  | Some sessionStart => div64 (sub64 now sessionStart) 1000
                  | None =>
                      div64 (sub64 now (performance_now (S (clockReads w)))) 1000
                  end;
                CurrentTurn.text := concat texts |}
      /\ transcript (component w') = transcript (component w)
      /\ refs w' = refs w
      /\ effects w' = effects w).
Proof.
  intros Hct w' now. subst w' now.
  assert ((elapsedTime performance_now (clockReads w) (recordingStartTimeRef (refs w))).1
          = match recordingStartTimeRef (refs w) with
            | Some sessionStart =>
                div64 (sub64 (performance_now (clockReads w)) sessionStart) 1000
            | None =>
                div64 (sub64 (performance_now (clockReads w))
                             (performance_now (S (clockReads w)))) 1000
            end) as <-.
  { unfold elapsedTime. by destruct (recordingStartTimeRef (refs w)). }
  induction texts as [|t texts IH].
  - split; [done|]. intros H. by destruct H.
  - rewrite !fmap_cons. unfold run. cbn [foldl handle].
    unfold onmessage, onInputTranscription, onModelAudio.
    cbn [text_message inputTranscriptionText turnComplete modelAudio].
    destruct (truthy_string t) eqn:Ht.
    + unfold textUpdater. rewrite Hct.
      destruct (elapsedTime performance_now (clockReads w)
                            (recordingStartTimeRef (refs w))) as [elapsed reads'] eqn:He.
      cbn [with_turns].
      fold (run performance_now
              (with_turns w (Some {| CurrentTurn.startTime := elapsed;
                                     CurrentTurn.text := t |}) [] reads')
              (Message <$> (text_message <$> texts))).
      erewrite texts_append by done. simpl. rewrite app_nil_r. split.
      * intros H. destruct t; simpl in *; done.
      * intros _. done.
    + destruct t; [|done]. simpl. apply IH.
Qed.

(** X15 (finalized turns stay).  Whatever happens to the component other
    than a new [startRecording] -- the channel opens, a message arrives,
    the channel fails, recording is stopped -- the finalized turns it had
    stay, in the same places; turns are only added after them. *)
Theorem transcript_only_grows (performance_now : nat -> Q) (w : World) (evs : list Event) :
  Forall (fun ev => forall outcome, ev <> Start outcome) evs ->
  transcript (component w) `prefix_of` transcript (component (run performance_now w evs)).
Proof.
  unfold run. revert w. induction evs as [|ev evs IH]; intros w Hevs; [done|].
  apply Forall_cons in Hevs as [Hev Hevs]. simpl.
  etrans; [|by apply IH]. by apply handle_transcript.
Qed.

(** X16 (a failing channel).  When the channel reports an error the
    component shows ["Error: "] followed by the message of the event, or
    by a fixed text when the event has no message; it stops recording and
    releases the stream, the processor and the session; no turn stays in
    progress, the finalized turns stay; and a later [stopRecording]
    changes nothing. *)
Theorem channel_error_stops (performance_now : nat -> Q) (message : jsstring)
    (schedule schedule' : UpdaterSchedule) (w : World) :
  let w' := onerror performance_now message schedule w in
  error (component w')
  = Some (lit "Error: "
          ++ match message with
             | [] => lit "A network error occurred with the transcription service."
             | _ :: _ => message
             end)
  /\ isRecording (component w') = false
  /\ currentTurn (component w') = None
  /\ sessionPromiseRef (refs w') = None
  /\ streamRef (refs w') = None
  /\ scriptProcessorRef (refs w') = None
  /\ recordingStartTimeRef (refs w') = None
  /\ transcript (component w) `prefix_of` transcript (component w')
  /\ stopRecording performance_now schedule' w' = w'.
Proof.
  intros w'. subst w'.
  pose proof (handle_transcript performance_now w (ChannelError message schedule)
                ltac:(done)) as Hpre.
  simpl in Hpre. unfold onerror in *.
  match goal with |- context [stopRecording _ _ ?w1] => set (w1' := w1) in * end.
  destruct (stopRecording_component performance_now schedule w1') as (appended & Hc & _).
  rewrite Hc. simpl. split_and!; try done.
  - by destruct message.
  - unfold stopRecording. destruct (stopUpdater _ _ _ _) as [[? ?] ?].
    by destruct (audioContextRef (refs w1')) as [[]|],
                (outputAudioContextRef (refs w1')) as [[]|].
  - unfold stopRecording. destruct (stopUpdater _ _ _ _) as [[? ?] ?].
    by destruct (audioContextRef (refs w1')) as [[]|],
                (outputAudioContextRef (refs w1')) as [[]|].
  - unfold stopRecording. destruct (stopUpdater _ _ _ _) as [[? ?] ?].
    by destruct (audioContextRef (refs w1')) as [[]|],
                (outputAudioContextRef (refs w1')) as [[]|].
  - unfold stopRecording. destruct (stopUpdater _ _ _ _) as [[? ?] ?].
    by destruct (audioContextRef (refs w1')) as [[]|],
                (outputAudioContextRef (refs w1')) as [[]|].
  - rewrite Hc in Hpre. done.
  - apply stopRecording_twice.
Qed.

(** X17 (what is exported).  The copy and download buttons of the live
    transcriber are enabled, when it is not recording, exactly when
    [getFullTranscript] has a turn to export.  After [stopRecording] the
    export is the finalized turns only, and after [handleReset] it is
    empty. *)
Theorem export_matches_buttons (performance_now : nat -> Q) (w : World)
    (schedule : UpdaterSchedule) :
  (hasTranscript (component w) = true <-> (getFullTranscript performance_now w).1 <> [])
  /\ (getFullTranscript performance_now (stopRecording performance_now schedule w)).1
     = transcript (component (stopRecording performance_now schedule w))
  /\ (getFullTranscript performance_now
        {| component := handleReset (component w); refs := refs w;
           clockReads := clockReads w; effects := effects w |}).1 = [].
Proof.
  split_and!.
  - unfold hasTranscript, getFullTranscript.
    destruct (transcript (component w)) as [|t tr] eqn:Htr.
    + destruct (currentTurn (component w)) as [ct|]; [|done].
      destruct (trim (CurrentTurn.text ct)) eqn:Htrim; simpl; [done|].
      destruct (recordingStartTimeRef (refs w)) as [t0|]; [|done].
      by destruct (truthy_number t0).
    + simpl. split; [|done]. intros _.
      destruct (currentTurn (component w)) as [ct|]; [|done].
      destruct (truthy_string _); [|done].
      destruct (recordingStartTimeRef (refs w)) as [t0|]; [|done].
      by destruct (truthy_number t0).
  - unfold getFullTranscript.
    by rewrite (proj1 (stopRecording_currentTurn performance_now schedule w)).
  - done.
Qed.

(** X18 (samples sent to the service).  [createBlob] turns every sample
    into a 16-bit integer and keeps their number.  A sample from -1 up to,
    but not including, 1 becomes its product with 32768, cut towards zero.
    A sample from 1 up to 2 wraps around to a negative number: the
    loudest sample, 1, becomes -32768. *)
Theorem int16Sample_wraps (sample : Q) :
  - 32768 <= int16Sample sample <= 32767
  /\ ((- 1 <= sample < 1)%Q -> int16Sample sample = trunc (sample * 32768))
  /\ ((1 <= sample < 2)%Q ->
      int16Sample sample = trunc (sample * 32768) - 65536 /\ int16Sample sample < 0)
  /\ int16Sample 1 = - 32768
  /\ forall data, length (int16Samples data) = length data.
Proof.
  unfold int16Sample, ToInt16.
  change (2 ^ 15) with 32768. change (2 ^ 16) with 65536.
  split; [|split; [|split; [|split]]].
  - pose proof (Z.mod_pos_bound (trunc (sample * 32768) + 32768) 65536 ltac:(lia)). lia.
  - intros [H1 H2]. rewrite Z.mod_small; [lia|].
    unfold trunc. destruct (Qle_bool 0 (sample * 32768)) eqn:E.
    + apply Qle_bool_iff in E.
      pose proof (Qfloor_le (sample * 32768)) as Hf.
      assert (inject_Z (Qfloor (sample * 32768)) < inject_Z 32768)%Q as A.
      { change (inject_Z 32768) with 32768%Q. lra. }
      rewrite <- Zlt_Qlt in A.
      pose proof (Qfloor_resp_le 0 (sample * 32768) E) as B. change (Qfloor 0) with 0 in B.
      lia.
    + assert (~ (0 <= sample * 32768)%Q) as E' by (rewrite <- Qle_bool_iff; congruence).
      pose proof (Qceiling_resp_le (sample * 32768) 0 ltac:(lra)) as A.
      change (Qceiling 0) with 0 in A.
      pose proof (Qceiling_resp_le (- 32768) (sample * 32768) ltac:(lra)) as B.
      change (Qceiling (- 32768)) with (- 32768) in B. lia.
  - intros [H1 H2].
    assert (trunc (sample * 32768) = Qfloor (sample * 32768)) as ->.
    { unfold trunc. assert (0 <= sample * 32768)%Q as E by lra.
      by apply Qle_bool_iff in E as ->. }
    pose proof (Qfloor_le (sample * 32768)) as Hf.
    assert (inject_Z (Qfloor (sample * 32768)) < inject_Z 65536)%Q as A.
    { change (inject_Z 65536) with 65536%Q. lra. }
    rewrite <- Zlt_Qlt in A.
    pose proof (Qfloor_resp_le 32768 (sample * 32768) ltac:(lra)) as B.
    change (Qfloor 32768) with 32768 in B.
    replace (Qfloor (sample * 32768) + 32768)
      with ((Qfloor (sample * 32768) - 32768) + 1 * 65536) by lia.
    rewrite Z.mod_add by lia. rewrite Z.mod_small by lia. lia.
  - done.
  - intros data. unfold int16Samples. apply length_fmap.
Qed.

End LiveExtraClaims.

Section ExportExtras.
Import JS JSLib Reading Types GeminiService App Download.

(** X19 (the timestamps of an exported batch transcript).  At every point
    of every run of [processFile], the turn in place [k] of the job's
    transcript starts at second [20 * k]; in the text export its line is
    [[HH:MM:SS] text] with the eight characters of that time, which read
    back as [20 * k] seconds (below 100 hours). *)
Theorem batch_export_timestamps (b : AudioBuffer.t) evs s (k : nat) turn :
  AudioBuffer.valid b ->
  run b initial evs = Some s ->
  transcription (job s) !! k = Some turn ->
  20 * Z.of_nat k < 360000 ->
  startTime turn = inject_Z (Z.of_nat k * 20)
  /\ (txtLine <$> transcription (job s)) !! k
     = Some (lit "[" ++ formatTimestamp (startTime turn) ++ lit "] " ++ text turn)
  /\ length (formatTimestamp (startTime turn)) = 8%nat
  /\ read_timestamp (formatTimestamp (startTime turn)) = Some (20 * Z.of_nat k).
Proof.
  intros Hvalid Hrun Hk Hlt.
  pose proof (invariant_transcription b evs s (run_invariant b Hvalid evs s Hrun)) as Hturns.
  destruct (Hturns k turn Hk) as (part & _ & _ & ->).
  split; [done|]. split; [by rewrite list_lookup_fmap, Hk|].
  replace (20 * Z.of_nat k) with (Z.of_nat k * 20) by lia.
  destruct (formatTimestamp_digits (startTime (makeTurn b (Z.of_nat k) part))
              (Z.of_nat k * 20) ltac:(reflexivity) ltac:(lia))
    as (h1 & h0 & m1 & m0 & s1 & s0 & -> & Hh & Hm & Hsec).
  split; [done|]. apply read_timestamp_fields; [lia|done..].
Qed.

End ExportExtras.

Section NegativeTimes.
Import JS JSLib Types Download.
Local Open Scope Q_scope.

Lemma double_opp_1 : double (- (1)) == - (1).
Proof. unfold double. simpl. rewrite (nearest53_Z 1) by lia. reflexivity. Qed.

(** The quotient of a small negative number by a number from 1 on is
    still between -1 and 0 once it is rounded. *)
Lemma div64_small_negative (t d : Q) :
  - (1) < t -> t < 0 -> 1 <= d -> Math_floor (div64 t d) = (- 1)%Z.
Proof.
  intros H1 H2 Hd. unfold Math_floor, div64.
  assert (- (1) <= t / d) as Hl.
  { apply Qle_shift_div_l; [lra|]. nra. }
  assert (t / d < 0) as Hu.
  { apply Qlt_shift_div_r; [lra|]. lra. }
  pose proof (double_mono _ _ Hl) as Hdl. pose proof double_opp_1 as H.
  assert (double (t / d) < 0) as Hdu.
  { unfold double. destruct (Qcompare_spec (t / d) 0) as [E|E|E]; [lra| |lra].
    pose proof (nearest53_pos (- (t / d)) ltac:(lra)). lra. }
  apply Qfloor_unique. change (inject_Z (-1)) with (- (1)).
  change (inject_Z (-1 + 1)) with 0. split; lra.
Qed.

Lemma rem_small_negative (t d : Q) :
  - (1) < t -> t < 0 -> 1 <= d -> rem t d == t.
Proof.
  intros H1 H2 Hd. unfold rem.
  assert (- (1) < t / d) as Hl.
  { apply Qlt_shift_div_l; [lra|]. nra. }
  assert (t / d < 0) as Hu.
  { apply Qlt_shift_div_r; [lra|]. lra. }
  assert (trunc (t / d) = 0%Z) as ->.
  { unfold trunc.
    assert (Qle_bool 0 (t / d) = false) as ->.
    { apply not_true_is_false. rewrite Qle_bool_iff. lra. }
    apply Qceiling_unique. change (inject_Z 0) with 0. split; lra. }
  change (inject_Z 0) with 0. ring.
Qed.

(** X20 (a time just below zero).  [formatTimestamp] does not clamp its
    fields: for a time [t] with [-1 < t <= -2^-1000] seconds every field
    is the floor -1, and the result is [-1:-1:-1].  (The bound keeps the
    quotients [t / 3600] and [t / 60] among the normal doubles; closer to
    zero they underflow to [-0], whose floor is written [0].) *)
Theorem formatTimestamp_negative (t : Q) :
  - (1) < t -> t <= - (1 # 2 ^ 1000) -> formatTimestamp t = lit "-1:-1:-1".
Proof.
  intros H1 H2'.
  assert (t < 0) as H2.
  { eapply Qle_lt_trans; [exact H2'|]. reflexivity. }
  unfold formatTimestamp.
  rewrite (div64_small_negative t 3600) by (done || lra).
  assert (Math_floor (div64 (rem t 3600) 60) = (- 1)%Z) as ->.
  { pose proof (rem_small_negative t 3600 H1 H2 ltac:(lra)) as Hr.
    apply div64_small_negative; lra. }
  assert (Math_floor (rem t 60) = (- 1)%Z) as ->.
  { pose proof (rem_small_negative t 60 H1 H2 ltac:(lra)) as Hr.
    unfold Math_floor. apply Qfloor_unique. change (inject_Z (-1)) with (- (1)).
    change (inject_Z (-1 + 1)) with 0. split; lra. }
  done.
Qed.

End NegativeTimes.

Section LateMessages.
Import JS JSLib Types RealtimeTranscriber Session Realtime.

(** X21 (a text that arrives after the stop).  [stopRecording] clears the
    start reference.  A text that arrives afterwards opens a turn whose
    start time is not the time elapsed in the session: the clock is read
    twice, and the start time is the first reading minus the second, in
    seconds -- zero or less when the clock does not go back.
    [getFullTranscript] then exports the turn, when its text is not white
    space only, with an end time one second after that start. *)
Theorem late_text_after_stop (performance_now : nat -> Q) (schedule : UpdaterSchedule)
    (text : jsstring) (w : World) :
  (forall k, (performance_now k <= performance_now (S k))%Q) ->
  text <> [] ->
  let w1 := stopRecording performance_now schedule w in
  let w2 := handle performance_now w1 (Message (text_message text)) in
  let startTime :=
    div64 (sub64 (performance_now (clockReads w1)) (performance_now (S (clockReads w1))))
          1000 in
  currentTurn (component w2)
  = Some {| CurrentTurn.startTime := startTime; CurrentTurn.text := text |}
  /\ (startTime <= 0)%Q
  /\ transcript (component w2) = transcript (component w1)
  /\ (forallb is_white_space text = false ->
      (getFullTranscript performance_now w2).1
      = transcript (component w1)
        ++ [{| Types.startTime := startTime;
               endTime := add64 startTime 1;
               Types.text := text |}]).
Proof.
  intros Hclock Htext w1 w2 startTime.
  destruct (stopRecording_currentTurn performance_now schedule w) as [Hct Href].
  fold w1 in Hct, Href.
  assert (truthy_string text = true) as Htruthy by (by destruct text).
  assert (w2 = with_turns w1 (Some {| CurrentTurn.startTime := startTime;
                                      CurrentTurn.text := text |}) []
                          (S (S (clockReads w1)))) as Hw2.
  { unfold w2. cbn [handle]. unfold onmessage, onInputTranscription, onModelAudio.
    cbn [text_message inputTranscriptionText turnComplete modelAudio].
    rewrite Htruthy. unfold textUpdater, elapsedTime. by rewrite Hct, Href. }
  rewrite Hw2. simpl. rewrite app_nil_r. split; [done|]. split; [|split; [done|]].
  - unfold startTime, div64, sub64.
    apply double_le_0. apply Qle_shift_div_r; [done|]. rewrite Qmult_0_l.
    apply double_le_0. pose proof (Hclock (clockReads w1)). lra.
  - intros Hws. unfold getFullTranscript. simpl.
    rewrite app_nil_r, truthy_trim, Hws, Href. done.
Qed.

End LateMessages.

Section Lifecycle.
Import JS Types GeminiService App Lifecycle.

Variable b : AudioBuffer.t.
Hypothesis Hvalid : AudioBuffer.valid b.

(** The status of the job, phase by phase. *)
Lemma invariant_status evs s :
  invariant b evs s ->
  match phase s with
  | NotStarted => status (job s) = QUEUED /\ error (job s) = None /\ transcription (job s) = []
  | Decoding => status (job s) = PROCESSING /\ error (job s) = None /\ transcription (job s) = []
  | AtLoopHead | AwaitingAll => status (job s) = TRANSCRIBING /\ error (job s) = None
  | Returned =>
      (status (job s) = DONE /\ error (job s) = None)
      \/ (status (job s) = ERROR /\ is_Some (error (job s)))
  end.
Proof.
  intros (Hph & _). unfold phase_invariant in Hph. destruct (phase s).
  - by subst s.
  - by destruct Hph as (-> & _).
  - destruct Hph as ((turns & Hl) & _).
    split; [apply (inv_status _ _ _ _ Hl)|apply (inv_error _ _ _ _ Hl)].
  - destruct Hph as ((turns & Hl) & _).
    split; [apply (inv_status _ _ _ _ Hl)|apply (inv_error _ _ _ _ Hl)].
  - destruct Hph as [(? & _ & ? & _)|(? & _ & ? & _)]; [by left|by right].
Qed.

Lemma step_status_rank evs s ev s' :
  invariant b evs s -> step b s ev = Some s' ->
  status_rank (status (job s)) <= status_rank (status (job s')).
Proof.
  intros Hinv Hstep. pose proof (invariant_status evs s Hinv) as Hst.
  unfold step in Hstep.
  destruct (phase s), ev; try done.
  - injection Hstep as <-. destruct Hst as (-> & _). simpl. lia.
  - injection Hstep as <-. destruct Hst as (-> & _). simpl. lia.
  - injection Hstep as <-. simpl. destruct (status (job s)); simpl; lia.
  - destruct (decide _); [|done]. injection Hstep as <-. simpl. lia.
  - destruct (decide _); [done|]. injection Hstep as <-. simpl.
    destruct (status (job s)); simpl; lia.
  - destruct (is_pending _ _); [|done].
    destruct (chunkCallback _ _ _); injection Hstep as <-; simpl; [lia|].
    destruct (status (job s)); simpl; lia.
  - destruct (all_results _); [|done]. injection Hstep as <-. simpl. lia.
  - destruct (is_pending _ _); [|done]. injection Hstep as <-. simpl. lia.
Qed.

Lemma run_status_rank evs s evs' s' :
  invariant b evs s -> run b s evs' = Some s' ->
  status_rank (status (job s)) <= status_rank (status (job s')).
Proof.
  revert evs s. induction evs' as [|ev evs' IH]; intros evs s Hinv Hrun.
  - injection Hrun as <-. lia.
  - simpl in Hrun. destruct (step b s ev) as [s1|] eqn:Hstep; [|done].
    pose proof (step_status_rank evs s ev s1 Hinv Hstep).
    pose proof (IH (evs ++ [ev]) s1 (step_invariant b Hvalid evs s ev s1 Hinv Hstep) Hrun).
    lia.
Qed.

End Lifecycle.

Section LifecycleClaim.
Import JS Types GeminiService App Lifecycle.

(** X22 (the life of a job).  Along every run of [processFile] the status
    of the job only moves forward, from Queued to Processing to
    Transcribing to Done or Error; once it is Done or Error the job no
    longer changes; the job has an error message exactly when its status
    is Error; and it has no transcript while it is Queued or
    Processing. *)
Theorem job_lifecycle (b : AudioBuffer.t) evs s evs' s' :
  AudioBuffer.valid b ->
  run b initial evs = Some s ->
  run b s evs' = Some s' ->
  status_rank (status (job s)) <= status_rank (status (job s'))
  /\ (status (job s) = DONE \/ status (job s) = ERROR -> job s' = job s)
  /\ (is_Some (error (job s)) <-> status (job s) = ERROR)
  /\ (status (job s) = QUEUED \/ status (job s) = PROCESSING -> transcription (job s) = []).
Proof.
  intros Hvalid Hrun Hrun'.
  pose proof (run_invariant b Hvalid evs s Hrun) as Hinv.
  pose proof (invariant_status b evs s Hinv) as Hst.
  split; [by eapply run_status_rank|]. split; [|split].
  - intros Hend. destruct (phase s) eqn:Hph.
    + destruct Hst as (Hq & _). rewrite Hq in Hend. by destruct Hend.
    + destruct Hst as (Hq & _). rewrite Hq in Hend. by destruct Hend.
    + destruct Hst as (Hq & _). rewrite Hq in Hend. by destruct Hend.
    + destruct Hst as (Hq & _). rewrite Hq in Hend. by destruct Hend.
    + by destruct (returned_run b s evs' s' Hph Hrun') as (_ & ? & _).
  - destruct (phase s).
    + destruct Hst as (-> & -> & _). split; [by intros [? ?]|done].
    + destruct Hst as (-> & -> & _). split; [by intros [? ?]|done].
    + destruct Hst as (-> & ->). split; [by intros [? ?]|done].
    + destruct Hst as (-> & ->). split; [by intros [? ?]|done].
    + destruct Hst as [(-> & ->)|(-> & ?)]; split; done.
  - intros Hq. destruct (phase s).
    + by destruct Hst as (_ & _ & ?).
    + by destruct Hst as (_ & _ & ?).
    + destruct Hst as (Ht & _). rewrite Ht in Hq. by destruct Hq.
    + destruct Hst as (Ht & _). rewrite Ht in Hq. by destruct Hq.
    + destruct Hst as [(Ht & _)|(Ht & _)]; rewrite Ht in Hq; by destruct Hq.
Qed.

End LifecycleClaim.

Section Trimmed.
Import JS Types GeminiService App.

Lemma trimStart_id (s : jsstring) :
  (forall c r, s = c :: r -> is_white_space c = false) -> trimStart s = s.
Proof.
  destruct s as [|c r]; [done|]. intros H. simpl. by rewrite (H c r eq_refl).
Qed.

Lemma trimStart_snoc (l : jsstring) (c : code_unit) :
  is_white_space c = false -> exists l', trimStart (l ++ [c]) = l' ++ [c].
Proof.
  intros Hc. induction l as [|d l IH]; simpl.
  - rewrite Hc. by exists [].
  - destruct (is_white_space d); [done|]. by exists (d :: l).
Qed.

Lemma trimEnd_last (s l : jsstring) (c : code_unit) :
  trimEnd s = l ++ [c] -> is_white_space c = false.
Proof.
  unfold trimEnd. intros H. apply (f_equal (@rev _)) in H.
  rewrite rev_involutive, rev_app_distr in H. simpl in H.
  by apply trimStart_head in H.
Qed.

Lemma trimEnd_head (s : jsstring) (c : code_unit) (r : jsstring) :
  (forall c0 r0, s = c0 :: r0 -> is_white_space c0 = false) ->
  trimEnd s = c :: r -> is_white_space c = false.
Proof.
  intros Hs. unfold trimEnd. destruct s as [|c0 r0]; [done|].
  pose proof (Hs c0 r0 eq_refl) as Hc0. simpl.
  destruct (trimStart_snoc (rev r0) c0 Hc0) as (l' & ->).
  rewrite rev_app_distr. simpl. by intros [= <- _].
Qed.

(** What [trim] returns neither starts nor ends with white space, and
    trimming it again changes nothing. *)
Lemma trim_trimmed (s : jsstring) :
  (forall c r, trim s = c :: r -> is_white_space c = false)
  /\ (forall l c, trim s = l ++ [c] -> is_white_space c = false)
  /\ trim (trim s) = trim s.
Proof.
  assert (forall c r, trim s = c :: r -> is_white_space c = false) as Hhead.
  { intros c r. unfold trim. apply trimEnd_head. intros c0 r0. apply trimStart_head. }
  assert (forall l c, trim s = l ++ [c] -> is_white_space c = false) as Hlast.
  { intros l c. unfold trim. apply trimEnd_last. }
  split; [done|]. split; [done|].
  unfold trim at 1. rewrite (trimStart_id (trim s)) by done.
  unfold trimEnd. rewrite (trimStart_id (rev (trim s))); [by rewrite rev_involutive|].
  intros c r Hrev. apply (f_equal (@rev _)) in Hrev.
  rewrite rev_involutive in Hrev. simpl in Hrev. by eapply Hlast.
Qed.

(** X23 (the texts of a batch transcript are trimmed).  At every point of
    every run of [processFile], the text of every turn of the job's
    transcript neither starts nor ends with white space, and trimming it
    again leaves it as it is.  The turn of a chunk is kept even when its
    text is empty: a chunk whose transcription is white space only gives
    a turn with the empty text. *)
Theorem turn_texts_trimmed (b : AudioBuffer.t) evs s (k : nat) turn :
  AudioBuffer.valid b ->
  run b initial evs = Some s ->
  transcription (job s) !! k = Some turn ->
  (forall c r, text turn = c :: r -> is_white_space c = false)
  /\ (forall l c, text turn = l ++ [c] -> is_white_space c = false)
  /\ trim (text turn) = text turn
  /\ exists part,
       EvSettle (Z.of_nat k) (Fulfilled part) ∈ evs
       /\ text turn = trim part
       /\ (forallb is_white_space part = true -> text turn = []).
Proof.
  intros Hvalid Hrun Hk.
  pose proof (invariant_transcription b evs s (run_invariant b Hvalid evs s Hrun)) as Hturns.
  destruct (Hturns k turn Hk) as (part & Hin & _ & ->). simpl.
  destruct (trim_trimmed part) as (Hh & Hl & Hid).
  split; [done|]. split; [done|]. split; [done|].
  exists part. split; [done|]. split; [done|]. by intros ?%trim_nil.
Qed.

End Trimmed.

Section Release.
Import JS Types RealtimeTranscriber.



End Release.

(* ===================================================================== *)
(** * [stopRecording] called again while it is suspended                  *)
(* ===================================================================== *)

Section StopCallsFacts.
Import JS Types RealtimeTranscriber StopCalls.








End StopCallsFacts.



Section Uninterrupted.
Import JS Types RealtimeTranscriber StopCalls.

Variable performance_now : nat -> Q.

Local Opaque stopUpdater.


Local Transparent stopUpdater.

End Uninterrupted.

Section Reentrant.
Import JS Types RealtimeTranscriber StopCalls.

Variable performance_now : nat -> Q.

Local Opaque stopUpdater.

(** The effects before the first call, and the session of the ref. *)
Variable E0 : list Effect.
Variable p0 : SessionPromise.


















Local Transparent stopUpdater.

End Reentrant.

Section ReleaseClaims.
Import JS Types RealtimeTranscriber StopCalls Examples.

Local Opaque stopUpdater.


Local Transparent stopUpdater.

End ReleaseClaims.

Section RequestsOnce.
Import JS Types GeminiService App Requests.

Variable b : AudioBuffer.t.
Hypothesis Hvalid : AudioBuffer.valid b.

Lemma issued_app evs evs' : issued (evs ++ evs') = issued evs ++ issued evs'.
Proof.
  induction evs as [|ev evs IH]; [done|]. destruct ev; simpl; by rewrite ?IH.
Qed.

(** The waves that went out are the first [m] waves of the plan. *)
Definition issued_first (evs : list Event) (s : State) (m : Z) : Prop :=
  0 <= m
  /\ issued evs = (fun w => w * CONCURRENCY_LIMIT) <$> seqZ 0 m
  /\ (m = 0 \/ (m - 1) * CONCURRENCY_LIMIT < numChunks b)
  /\ match phase s with
     | NotStarted | Decoding => m = 0
     | AtLoopHead => m * CONCURRENCY_LIMIT = i s
     | AwaitingAll => (m - 1) * CONCURRENCY_LIMIT = i s /\ i s < numChunks b
     | Returned => status (job s) = DONE -> numChunks b <= m * CONCURRENCY_LIMIT
     end.

Lemma issued_step evs s ev s' m :
  issued_first evs s m -> step b s ev = Some s' ->
  exists m', issued_first (evs ++ [ev]) s' m'.
Proof.
  intros (Hm & Hiss & Hrange & Hph) Hstep. unfold step in Hstep.
  unfold issued_first. rewrite issued_app.
  destruct (phase s) eqn:Hp, ev; try done; simpl.
  - injection Hstep as <-. exists m. simpl. rewrite app_nil_r. done.
  - injection Hstep as <-. exists m. simpl. rewrite app_nil_r. subst m. done.
  - injection Hstep as <-. exists m. simpl. rewrite app_nil_r. done.
  - destruct (decide _) as [[-> Hlt]|]; [|done]. injection Hstep as <-.
    exists (m + 1). simpl. split; [lia|]. split; [|split; [right; lia|lia]].
    rewrite Hiss, (seqZ_app 0 m 1) by lia. rewrite fmap_app. f_equal.
    assert (seqZ (0 + m) 1 = [m]) as -> by (unfold seqZ; simpl; f_equal; lia).
    simpl. f_equal. lia.
  - destruct (decide _); [done|]. injection Hstep as <-.
    exists m. simpl. rewrite app_nil_r. split; [done|]. split; [done|]. split; [done|].
    intros _. lia.
  - destruct (is_pending _ _); [|done].
    destruct (chunkCallback _ _ _); injection Hstep as <-; exists m; simpl;
      rewrite app_nil_r; done.
  - destruct (all_results _); [|done]. injection Hstep as <-.
    exists m. simpl. rewrite app_nil_r. split; [done|]. split; [done|]. split; [done|].
    unfold CONCURRENCY_LIMIT in *. lia.
  - destruct (is_pending _ _); [|done]. injection Hstep as <-.
    exists m. simpl. rewrite app_nil_r. done.
Qed.

Lemma issued_run evs s :
  run b initial evs = Some s -> exists m, issued_first evs s m.
Proof.
  revert s. induction evs as [|ev evs IH] using rev_ind; intros s Hrun.
  - injection Hrun as <-. exists 0. unfold issued_first. simpl. split_and!; try done; by left.
  - rewrite run_app in Hrun. destruct (run b initial evs) as [s1|] eqn:Hrun1; [|done].
    simpl in Hrun. destruct (step b s1 ev) as [s2|] eqn:Hstep; [|done].
    injection Hrun as <-. destruct (IH s1 eq_refl) as (m & Hm).
    by eapply issued_step.
Qed.

(** The chunks of the first [m] waves. *)
Lemma first_waves_chunks (m : nat) :
  (m = 0%nat \/ (Z.of_nat m - 1) * CONCURRENCY_LIMIT < numChunks b) ->
  concat (chunkBatchIndices b <$> ((fun w => w * CONCURRENCY_LIMIT) <$> seqZ 0 (Z.of_nat m)))
  = seqZ 0 (Z.min (Z.of_nat m * CONCURRENCY_LIMIT) (numChunks b)).
Proof.
  pose proof (numChunks_nonneg b Hvalid) as Hn.
  induction m as [|m IH]; intros Hrange.
  - simpl. by rewrite Z.min_l by lia.
  - destruct Hrange as [?|Hrange]; [done|].
    rewrite Nat2Z.inj_succ, <- Z.add_1_r in Hrange |- *.
    rewrite (seqZ_app 0 (Z.of_nat m) 1) by lia.
    assert (seqZ (0 + Z.of_nat m) 1 = [Z.of_nat m]) as ->
      by (unfold seqZ; simpl; f_equal; lia).
    rewrite !fmap_app, concat_app. simpl. rewrite app_nil_r.
    rewrite IH by (unfold CONCURRENCY_LIMIT in *; destruct m; [by left|right; lia]).
    rewrite chunkBatchIndices_seqZ. unfold CONCURRENCY_LIMIT in *.
    rewrite (Z.min_l (Z.of_nat m * 10)) by lia.
    rewrite <- (Z.add_0_l (Z.of_nat m * 10)) at 2.
    rewrite <- seqZ_app by lia. f_equal. lia.
Qed.

End RequestsOnce.

Section RequestsClaim.
Import JS Types GeminiService App Requests.

(** X25 (no chunk is requested twice).  On every run of [processFile] the
    waves go out in the order of the plan, at the loop values
    [0, 10, 20, ...]; the chunks requested so far are the chunks
    [0 .. min(10 m, n) - 1] for the number [m] of waves that went out,
    each requested once; and when the job is Done every chunk of the
    plan has been requested exactly once. *)
Theorem no_chunk_requested_twice (b : AudioBuffer.t) evs s :
  AudioBuffer.valid b ->
  run b initial evs = Some s ->
  exists m,
    0 <= m
    /\ issued evs = (fun w => w * CONCURRENCY_LIMIT) <$> seqZ 0 m
    /\ requested b evs = seqZ 0 (Z.min (m * CONCURRENCY_LIMIT) (numChunks b))
    /\ NoDup (requested b evs)
    /\ (status (job s) = DONE -> requested b evs = seqZ 0 (numChunks b)).
Proof.
  intros Hvalid Hrun.
  destruct (issued_run b evs s Hrun) as (m & Hm & Hiss & Hrange & Hph).
  assert (requested b evs = seqZ 0 (Z.min (m * CONCURRENCY_LIMIT) (numChunks b))) as Hreq.
  { unfold requested. rewrite Hiss, <- (Z2Nat.id m) by done.
    apply (first_waves_chunks b Hvalid). unfold CONCURRENCY_LIMIT in *. destruct Hrange as [->|?]; [by left|right; lia]. }
  exists m. split; [done|]. split; [done|]. split; [done|]. split.
  - rewrite Hreq. apply NoDup_seqZ.
  - intros Hdone. rewrite Hreq. f_equal.
    pose proof (run_invariant b Hvalid evs s Hrun) as Hinv.
    pose proof (invariant_status b evs s Hinv) as Hst.
    destruct (phase s); try (destruct Hst as (Hst & _); congruence).
    specialize (Hph Hdone). lia.
Qed.

End RequestsClaim.

(* ===================================================================== *)
(** * The claims at concrete inputs                                       *)
(* ===================================================================== *)

Section Witnesses.
Import JS Types GeminiService App.

(** Closes a goal of comparisons and equations on closed terms. *)
Ltac by_compute :=
  vm_compute; repeat split;
  first [reflexivity | let H := fresh in intro H; discriminate H].

(** Proves the first conjunct by computation and keeps it. *)
Ltac first_by_compute H :=
  match goal with
  | |- ?A /\ _ => assert A as H by (vm_compute; reflexivity); split; [exact H|]
  end.

Lemma source47_valid : AudioBuffer.valid source47.
Proof. split; simpl; lia. Defined.

Lemma source470_valid : AudioBuffer.valid source470.
Proof. split; simpl; lia. Defined.

(** C1 at the 47-second source: three chunks, [0,20), [20,40), [40,47). *)
Lemma chunk_planning_coverage_witness :
  AudioBuffer.valid source47
  /\ concat (waves source47 0) = seqZ 0 3
  /\ chunkEndTime source47 0 = chunkStartTime 1
  /\ chunkEndTime source47 1 = chunkStartTime 2
  /\ (chunkEndTime source47 2 == AudioBuffer.duration source47)%Q.
Proof.
  destruct (chunk_planning_coverage source47 source47_valid) as (_ & _ & Hw & Hc & _).
  split; [exact source47_valid|]. split; [exact Hw|].
  destruct (Hc 0 ltac:(by_compute)) as (_ & _ & _ & H0 & _).
  destruct (Hc 1 ltac:(by_compute)) as (_ & _ & _ & H1 & _).
  destruct (Hc 2 ltac:(by_compute)) as (_ & _ & _ & _ & H2).
  split; [apply H0; by_compute|]. split; [apply H1; by_compute|].
  apply H2. by_compute.
Defined.

(** C2 on the 470-second source.  The results of chunks 2 and 0, stored in
    that order into three free slots, give the turns of chunks 0 and 2.
    Along the run, the ten turns shown after the first wave are the first
    ten of the twenty turns shown after the second wave, whose results
    came back last chunk first. *)
Lemma aggregation_order_restoration_witness :
  AudioBuffer.valid source470
  /\ aggregate (storeResults (new_Array 3) [result470 2; result470 0])
     ≡ₚ [turn (result470 2); turn (result470 0)]
  /\ aggregate (storeResults (new_Array 3) [result470 2; result470 0])
     = [turn (result470 0); turn (result470 2)]
  /\ exists s s',
       run source470 initial (first_wave470 ++ [EvWaveDone]) = Some s
       /\ run source470 s second_wave_done470 = Some s'
       /\ length (transcription (job s)) = 10%nat
       /\ length (transcription (job s')) = 20%nat
       /\ transcription (job s) `prefix_of` transcription (job s').
Proof.
  destruct (aggregation_order_restoration source470 source470_valid)
    as (_ & Hstore & _ & _ & _ & _ & Hp & _).
  split; [exact source470_valid|]. split.
  { apply (Hstore (new_Array 3) [result470 2; result470 0]).
    - repeat constructor; simpl; lia.
    - apply NoDup_cons. split; [|apply NoDup_singleton].
      intros H. apply list_elem_of_singleton in H. discriminate H.
    - intros r Hr. apply elem_of_cons in Hr as [->|Hr]; [reflexivity|].
      apply list_elem_of_singleton in Hr as ->. reflexivity. }
  split; [vm_compute; reflexivity|].
  let r := eval vm_compute in (run source470 initial (first_wave470 ++ [EvWaveDone])) in
  match r with Some ?s =>
    let r' := eval vm_compute in (run source470 s second_wave_done470) in
    match r' with Some ?s' => exists s, s' end
  end.
  first_by_compute H1. first_by_compute H2.
  split; [vm_compute; reflexivity|]. split; [vm_compute; reflexivity|].
  exact (Hp _ _ _ _ H1 H2).
Defined.

(** C3 along that run: at most ten requests in flight, and none when the
    second wave goes out. *)
Lemma wave_barrier_witness :
  AudioBuffer.valid source470
  /\ Z.of_nat (length (waves source470 0)) = 3
  /\ Z.of_nat (length (outstanding source470 [] second_wave470)) <= CONCURRENCY_LIMIT
  /\ outstanding source470 [] (first_wave470 ++ [EvWaveDone]) = [].
Proof.
  destruct (wave_barrier source470 source470_valid) as (_ & Hlen & _ & Hrun).
  split; [exact source470_valid|]. split; [exact Hlen|].
  assert (exists s, run source470 initial second_wave470 = Some s) as [s Hs].
  { let r := eval vm_compute in (run source470 initial second_wave470) in
    match r with Some ?s => exists s end. vm_compute. reflexivity. }
  destruct (Hrun _ _ Hs) as [Hout Hissue].
  split; [exact Hout|].
  destruct (Hissue (first_wave470 ++ [EvWaveDone]) 10 [EvSettle 11 text_part; EvSettle 10 text_part])
    as (_ & Hnone & _).
  { unfold second_wave470. by rewrite <- app_assoc. }
  exact Hnone.
Defined.

(** C4: chunk 12 of the 470-second source fails in the second wave; the
    ten turns of the first wave stay in the transcript. *)
Lemma fail_fast_preserves_partial_witness :
  exists s s',
    AudioBuffer.valid source470
    /\ run source470 initial second_wave470 = Some s
    /\ status (job s) = TRANSCRIBING
    /\ chunkCallback source470 12 error_part
       = Rejected (ErrorObject (lit "Error: API call failed - quota"))
    /\ step source470 s (EvSettle 12 error_part) = Some s'
    /\ status (job s') = ERROR
    /\ progress (job s') = 0
    /\ error (job s') = Some (lit "Error: API call failed - quota")
    /\ Z.of_nat (length (transcription (job s'))) = 10.
Proof.
  let r := eval vm_compute in (run source470 initial second_wave470) in
  match r with Some ?s =>
    let r' := eval vm_compute in (step source470 s (EvSettle 12 error_part)) in
    match r' with Some ?s' => exists s, s' end
  end.
  split; [exact source470_valid|].
  first_by_compute H1. first_by_compute H2. first_by_compute H3. first_by_compute H4.
  destruct (fail_fast_preserves_partial source470 _ _ _ _ _ _
              source470_valid H1 H2 H3 H4)
    as (A & B & C & _ & _ & _ & D & _).
  split; [exact A|]. split; [exact B|]. split; [exact C|]. exact D.
Defined.

Lemma source4000_valid : AudioBuffer.valid source4000.
Proof. split; simpl; lia. Defined.

(** C5: after the first wave of the 470-second source, 10 of 24 chunks:
    the progress is 43, within one of [5 + round(37.5)]. *)
Lemma progress_formula_witness :
  exists s s',
    AudioBuffer.valid source470
    /\ run source470 initial first_wave470 = Some s
    /\ step source470 s EvWaveDone = Some s'
    /\ chunksProcessed s' = 10
    /\ numChunks source470 = 24
    /\ progress (job s')
       = 5 + Math_round (mul64 (div64 (inject_Z (chunksProcessed s'))
                                      (inject_Z (numChunks source470))) 90)
    /\ progress_by_spec (chunksProcessed s') (numChunks source470) - 1
       <= progress (job s')
       <= progress_by_spec (chunksProcessed s') (numChunks source470)
    /\ progress (job s') = 43.
Proof.
  let r := eval vm_compute in (run source470 initial first_wave470) in
  match r with Some ?s =>
    let r' := eval vm_compute in (step source470 s EvWaveDone) in
    match r' with Some ?s' => exists s, s' end
  end.
  split; [exact source470_valid|].
  first_by_compute H1. first_by_compute H2.
  destruct (progress_formula source470 _ _ _ source470_valid H1 H2) as (A & B & _ & C & _).
  split; [exact C|]. split; [by_compute|]. split; [exact A|].
  split; [exact B|]. by_compute.
Defined.

(** C5 fails as stated.  The 4000-second source has 200 chunks; when the
    seventh wave completes, 70 chunks are done and
    [90 * 70 / 200 = 31.5]: the specification's formula gives
    [5 + 32 = 37].  In [processFile], [70 / 200] is rounded to the double
    [0.35 - 2^-54 * 0.3...], its product with 90 to
    [31.499999999999996], and the progress shown is [5 + 31 = 36]. *)
Lemma progress_formula_counterexample :
  exists s s',
    AudioBuffer.valid source4000
    /\ run source4000 initial seventh_wave4000 = Some s
    /\ step source4000 s EvWaveDone = Some s'
    /\ status (job s') = TRANSCRIBING
    /\ numChunks source4000 = 200
    /\ chunksProcessed s' = 70
    /\ (mul64 (div64 (inject_Z 70) (inject_Z 200)) 90 < 63 # 2)%Q
    /\ progress (job s') = 36
    /\ progress_by_spec (chunksProcessed s') (numChunks source4000) = 37.
Proof.
  let r := eval vm_compute in (run source4000 initial seventh_wave4000) in
  match r with Some ?s =>
    let r' := eval vm_compute in (step source4000 s EvWaveDone) in
    match r' with Some ?s' => exists s, s' end
  end.
  split; [exact source4000_valid|].
  repeat (split; [by_compute|]). by_compute.
Qed.

(** C6 on the 47-second source: from the start of the loop to the end of
    its only wave the progress goes from 5 to 95, and is not yet 100. *)
Lemma progress_monotone_witness :
  exists s s',
    AudioBuffer.valid source47
    /\ run source47 initial [EvBegin; EvDecoded] = Some s
    /\ run source47 s [EvIssue 0; EvSettle 1 text_part; EvSettle 0 text_part;
                       EvSettle 2 text_part; EvWaveDone] = Some s'
    /\ progress (job s) <= progress (job s')
    /\ (progress (job s) = 100 <-> status (job s) = DONE).
Proof.
  let r := eval vm_compute in (run source47 initial [EvBegin; EvDecoded]) in
  match r with Some ?s =>
    let r' := eval vm_compute in
      (run source47 s [EvIssue 0; EvSettle 1 text_part; EvSettle 0 text_part;
                       EvSettle 2 text_part; EvWaveDone]) in
    match r' with Some ?s' => exists s, s' end
  end.
  split; [exact source47_valid|].
  first_by_compute H1. first_by_compute H2.
  destruct (progress_monotone source47 _ _ source47_valid H1) as (_ & Hdone & Hmono).
  split; [exact (Hmono _ _ H2 eq_refl eq_refl)|]. exact Hdone.
Defined.

End Witnesses.

Section LiveWitnesses.
Import JS Types RealtimeTranscriber.

Lemma session_clock_mono : forall k, (session_clock k <= session_clock (S k))%Q.
Proof. intros k. unfold session_clock. rewrite <- Zle_Qle. lia. Defined.

(** C7 at the session that has heard ["hello"]: the turn is finalized with
    the elapsed time as its end. *)
Lemma turn_complete_finalization_witness :
  (forall k, (session_clock k <= session_clock (S k))%Q)
  /\ currentTurn (component (onTurnComplete session_clock
                               (run session_clock mounted session_hello))) = None
  /\ transcript (component (onTurnComplete session_clock
                              (run session_clock mounted session_hello)))
     = [{| startTime := div64 (sub64 (session_clock 1) (session_clock 0)) 1000;
           endTime := div64 (sub64 (session_clock 2) (session_clock 0)) 1000;
           text := lit "hello" |}]
  /\ (div64 (sub64 (session_clock 1) (session_clock 0)) 1000
      <= div64 (sub64 (session_clock 2) (session_clock 0)) 1000)%Q.
Proof.
  split; [exact session_clock_mono|].
  destruct (turn_complete_finalization session_clock session_hello _
              session_clock_mono eq_refl) as (Hnone & _ & Htr & Hle).
  split; [exact Hnone|]. split; [exact Htr|exact Hle].
Defined.

Lemma uneven_clock_mono : forall k, (uneven_clock k <= uneven_clock (S k))%Q.
Proof. intros k. unfold uneven_clock. rewrite <- Zle_Qle. lia. Qed.

(** C7 fails as stated.  A session is started and stopped, and a text that
    was under way arrives afterwards: it opens a turn although the start
    reference is cleared.  The clock reads 1250 ms and 2000 ms for the
    start of that turn, 3250 ms and 5000 ms when the turn completes: the
    turn is finalized with the start time [-0.75] and the end time
    [-1.75], an end before its start and not a time elapsed since the
    start of the session. *)
Lemma turn_complete_finalization_counterexample :
  (forall k, (uneven_clock k <= uneven_clock (S k))%Q)
  /\ recordingStartTimeRef (refs (run uneven_clock mounted session_late_text)) = None
  /\ currentTurn (component (run uneven_clock mounted session_late_text))
     = Some {| CurrentTurn.startTime :=
                 div64 (sub64 (uneven_clock 1) (uneven_clock 2)) 1000;
               CurrentTurn.text := lit "late" |}
  /\ transcript (component (onTurnComplete uneven_clock
                              (run uneven_clock mounted session_late_text)))
     = [{| startTime := div64 (sub64 (uneven_clock 1) (uneven_clock 2)) 1000;
           endTime := div64 (sub64 (uneven_clock 3) (uneven_clock 4)) 1000;
           text := lit "late" |}]
  /\ (div64 (sub64 (uneven_clock 1) (uneven_clock 2)) 1000 == - (3 # 4))%Q
  /\ (div64 (sub64 (uneven_clock 3) (uneven_clock 4)) 1000 == - (7 # 4))%Q
  /\ (div64 (sub64 (uneven_clock 3) (uneven_clock 4)) 1000
      < div64 (sub64 (uneven_clock 1) (uneven_clock 2)) 1000)%Q.
Proof.
  split; [exact uneven_clock_mono|].
  repeat (split; [vm_compute; reflexivity|]). vm_compute; reflexivity.
Qed.

(** C9 at the component as it mounts. *)
Lemma stop_idempotent_witness :
  stopped mounted
  /\ stopRecording session_clock AtRender mounted = mounted
  /\ stopRecording session_clock Eager mounted = mounted.
Proof.
  assert (stopped mounted) as Hs by (by repeat split).
  split; [exact Hs|]. split.
  - destruct (stop_idempotent session_clock AtRender mounted Hs)
      as (_ & _ & _ & _ & _ & _ & _ & _ & _ & _ & _ & H & _).
    exact (H eq_refl eq_refl).
  - destruct (stop_idempotent session_clock Eager mounted Hs)
      as (_ & _ & _ & _ & _ & _ & _ & _ & _ & _ & _ & H & _).
    exact (H eq_refl eq_refl).
Defined.

End LiveWitnesses.

(* ===================================================================== *)
(** * The further properties at concrete inputs                           *)
(* ===================================================================== *)

Section MoreWitnesses.
Import JS JSLib Reading Types GeminiService App Scenario Download FileCard Examples.
Import Lifecycle Requests.

(** Closes a goal of comparisons and equations on closed terms. *)
Ltac compute_goal :=
  vm_compute; repeat split;
  first [reflexivity | let H := fresh in intro H; discriminate H].

Ltac first_computed H :=
  match goal with
  | |- ?A /\ _ => assert A as H by (vm_compute; reflexivity); split; [exact H|]
  end.

Lemma source0_valid : AudioBuffer.valid source0.
Proof. split; simpl; lia. Defined.

(** X1 at the 47-second source: the three chunks have 47 * 44100 samples. *)
Lemma chunk_samples_partition_witness :
  AudioBuffer.valid source47
  /\ foldr Z.add 0 (chunkLength source47 <$> seqZ 0 (numChunks source47))
     = AudioBuffer.length source47.
Proof.
  split; [exact source47_valid|].
  exact (proj2 (chunk_samples_partition source47 source47_valid)).
Defined.

(** X2 at a buffer of no samples. *)
Lemma empty_audio_done_witness :
  AudioBuffer.valid source0
  /\ AudioBuffer.length source0 = 0
  /\ numChunks source0 = 0.
Proof.
  split; [exact source0_valid|]. split; [reflexivity|].
  exact (proj1 (empty_audio_done source0 source0_valid eq_refl)).
Defined.

(** X3: decoding throws something that is not an [Error]. *)
Lemma decode_failure_no_requests_witness :
  exists s,
    run source47 initial [EvBegin; EvDecodeFailed NotAnError] = Some s
    /\ status (job s) = ERROR
    /\ error (job s) = Some (lit "An unknown error occurred.").
Proof.
  let r := eval vm_compute in (run source47 initial [EvBegin; EvDecodeFailed NotAnError]) in
  match r with Some ?s => exists s end.
  first_computed H1.
  destruct (decode_failure_no_requests source47 NotAnError [] _ H1) as (A & _ & _ & B & _).
  split; [exact A|exact B].
Defined.

(** X4 at the 47-second source: three turns. *)
Lemma processFile_succeeds_witness :
  AudioBuffer.valid source47
  /\ exists s,
       run source47 initial (successful_run source47 same_text) = Some s
       /\ phase s = Returned
       /\ job s = {| status := DONE; progress := 100;
                     transcription :=
                       (fun j => {| text := trim (same_text j);
                                    startTime := chunkStartTime j;
                                    endTime := chunkEndTime source47 j |})
                         <$> seqZ 0 (numChunks source47);
                     error := None |}.
Proof.
  split; [exact source47_valid|].
  apply (processFile_succeeds source47 same_text source47_valid).
  intros j _. vm_compute. reflexivity.
Defined.

(** X5: 3725 seconds are [01:02:05]. *)
Lemma formatTimestamp_round_trip_witness :
  (inject_Z 3725 == inject_Z 3725)%Q
  /\ 0 <= 3725 < 360000
  /\ read_timestamp (formatTimestamp (inject_Z 3725)) = Some 3725.
Proof.
  assert (inject_Z 3725 == inject_Z 3725)%Q as H1 by reflexivity.
  assert (0 <= 3725 < 360000) as H2 by lia.
  split; [exact H1|]. split; [exact H2|].
  exact (proj2 (formatTimestamp_round_trip (inject_Z 3725) 3725 H1 H2)).
Defined.

(** X6: 1.9996 seconds are written [00:00:01,1000]. *)
Lemma srt_milliseconds_field_witness :
  milliseconds (19996 # 10000) = 1000
  /\ formatSrtTimestamp (19996 # 10000) = lit "00:00:01,1000".
Proof.
  destruct (srt_milliseconds_field (19996 # 10000)) as (_ & _ & H).
  destruct H as [Hms Hstr]; [compute_goal|].
  split; [exact Hms|]. rewrite Hstr. vm_compute. reflexivity.
Defined.

(** X7 at a transcript of two turns. *)
Lemma generateTxt_lines_witness :
  Forall (fun turn => 10%N ∉ text turn) two_turns
  /\ split 10%N (generateTxt two_turns)
     = [lit "[00:00:00] magandang umaga"; lit "[00:00:20] good morning"].
Proof.
  assert (Forall (fun turn => 10%N ∉ text turn) two_turns) as H.
  { repeat constructor; intros Hin; apply list_elem_of_In in Hin; simpl in Hin;
      repeat (destruct Hin as [Hin|Hin]; [discriminate Hin|]); exact Hin. }
  split; [exact H|].
  destruct (generateTxt_lines two_turns H) as [_ Hlines].
  rewrite Hlines; [|discriminate]. vm_compute. reflexivity.
Defined.

(** X10: chunk 12 of the 470-second source fails in the second wave. *)
Lemma failed_job_shows_no_transcript_witness :
  exists s s',
    AudioBuffer.valid source470
    /\ run source470 initial second_wave470 = Some s
    /\ status (job s) = TRANSCRIBING
    /\ chunkCallback source470 12 error_part
       = Rejected (ErrorObject (lit "Error: API call failed - quota"))
    /\ step source470 s (EvSettle 12 error_part) = Some s'
    /\ length (transcription (job s')) = 10%nat
    /\ getTranscriptionForDisplay (job s') = [].
Proof.
  let r := eval vm_compute in (run source470 initial second_wave470) in
  match r with Some ?s =>
    let r' := eval vm_compute in (step source470 s (EvSettle 12 error_part)) in
    match r' with Some ?s' => exists s, s' end
  end.
  split; [exact source470_valid|].
  first_computed H1. first_computed H2. first_computed H3. first_computed H4.
  destruct (failed_job_shows_no_transcript source470 _ _ _ _ _ _
              source470_valid H1 H2 H3 H4) as (_ & _ & _ & D & _).
  split; [vm_compute; reflexivity|exact D].
Defined.

(** X19: the fourth line of the export after the first wave of the
    470-second source is stamped [00:01:00]. *)
Lemma batch_export_timestamps_witness :
  exists s turn,
    AudioBuffer.valid source470
    /\ run source470 initial (first_wave470 ++ [EvWaveDone]) = Some s
    /\ transcription (job s) !! 3%nat = Some turn
    /\ 20 * Z.of_nat 3 < 360000
    /\ read_timestamp (formatTimestamp (startTime turn)) = Some 60.
Proof.
  let r := eval vm_compute in (run source470 initial (first_wave470 ++ [EvWaveDone])) in
  match r with Some ?s =>
    let r' := eval vm_compute in (transcription (job s) !! 3%nat) in
    match r' with Some ?t => exists s, t end
  end.
  split; [exact source470_valid|].
  first_computed H1. first_computed H2.
  assert (20 * Z.of_nat 3 < 360000) as H3 by (simpl; lia).
  split; [exact H3|].
  destruct (batch_export_timestamps source470 _ _ _ _ source470_valid H1 H2 H3)
    as (_ & _ & _ & D).
  exact D.
Defined.

(** X20: half a second before zero. *)
Lemma formatTimestamp_negative_witness :
  (- (1) < - (1 # 2))%Q /\ (- (1 # 2) <= - (1 # 2 ^ 1000))%Q
  /\ formatTimestamp (- (1 # 2)) = lit "-1:-1:-1".
Proof.
  assert (- (1) < - (1 # 2))%Q as H1 by reflexivity.
  assert (- (1 # 2) <= - (1 # 2 ^ 1000))%Q as H2
    by (vm_compute; intros H; discriminate H).
  split; [exact H1|]. split; [exact H2|].
  exact (formatTimestamp_negative (- (1 # 2)) H1 H2).
Defined.

(** X22 on the 47-second source: from the start of the loop to Done. *)
Lemma job_lifecycle_witness :
  exists s s',
    AudioBuffer.valid source47
    /\ run source47 initial [EvBegin; EvDecoded] = Some s
    /\ run source47 s (loop_events source47 same_text 0) = Some s'
    /\ status (job s) = TRANSCRIBING
    /\ status (job s') = DONE
    /\ status_rank (status (job s)) <= status_rank (status (job s')).
Proof.
  let r := eval vm_compute in (run source47 initial [EvBegin; EvDecoded]) in
  match r with Some ?s =>
    let r' := eval vm_compute in (run source47 s (loop_events source47 same_text 0)) in
    match r' with Some ?s' => exists s, s' end
  end.
  split; [exact source47_valid|].
  first_computed H1. first_computed H2.
  split; [reflexivity|]. split; [reflexivity|].
  exact (proj1 (job_lifecycle source47 _ _ _ _ source47_valid H1 H2)).
Defined.

(** X23: the fourth turn after the first wave of the 470-second source;
    the text [" kumusta "] came back, the turn says ["kumusta"]. *)
Lemma turn_texts_trimmed_witness :
  exists s turn,
    AudioBuffer.valid source470
    /\ run source470 initial (first_wave470 ++ [EvWaveDone]) = Some s
    /\ transcription (job s) !! 3%nat = Some turn
    /\ text turn = lit "kumusta"
    /\ trim (text turn) = text turn.
Proof.
  let r := eval vm_compute in (run source470 initial (first_wave470 ++ [EvWaveDone])) in
  match r with Some ?s =>
    let r' := eval vm_compute in (transcription (job s) !! 3%nat) in
    match r' with Some ?t => exists s, t end
  end.
  split; [exact source470_valid|].
  first_computed H1. first_computed H2.
  split; [reflexivity|].
  destruct (turn_texts_trimmed source470 _ _ _ _ source470_valid H1 H2) as (_ & _ & D & _).
  exact D.
Defined.

(** X25 at the 47-second source: the three chunks, each requested once. *)
Lemma no_chunk_requested_twice_witness :
  exists s,
    AudioBuffer.valid source47
    /\ run source47 initial (successful_run source47 same_text) = Some s
    /\ status (job s) = DONE
    /\ requested source47 (successful_run source47 same_text)
       = seqZ 0 (numChunks source47).
Proof.
  let r := eval vm_compute in (run source47 initial (successful_run source47 same_text)) in
  match r with Some ?s => exists s end.
  split; [exact source47_valid|].
  first_computed Hrun.
  first_computed Hdone.
  destruct (no_chunk_requested_twice source47 _ _ source47_valid Hrun)
    as (m & _ & _ & _ & _ & Hall).
  exact (Hall Hdone).
Defined.

End MoreWitnesses.

Section MoreLiveWitnesses.
Import JS JSLib Types RealtimeTranscriber Session Realtime Examples.

(** X13 at a session that hears a text and the end of the turn. *)
Lemma live_turns_chronological_witness :
  (forall k, (session_clock k <= session_clock (S k))%Q)
  /\ Forall session_event session_two_texts
  /\ chronological
       (transcript (component
          (run session_clock
             (startRecording session_clock (Connected (SessionResolves false)) mounted)
             session_two_texts))).
Proof.
  assert (Forall session_event session_two_texts) as H by (repeat constructor).
  split; [exact session_clock_mono|]. split; [exact H|].
  exact (proj1 (live_turns_chronological session_clock mounted (SessionResolves false)
                  session_two_texts Eager session_clock_mono H)).
Defined.

(** X14 in a session that is open: the clock read 1000 ms at the start
    and reads 1250 ms when the first text arrives; three messages, one of
    them empty, give one turn that starts at 0.25 s with the text
    ["hello"]. *)
Lemma text_accumulates_witness :
  currentTurn (component (run session_clock mounted session_open)) = None
  /\ recordingStartTimeRef (refs (run session_clock mounted session_open))
     = Some (session_clock 0)
  /\ currentTurn
       (component (run session_clock (run session_clock mounted session_open)
                       (Message <$> (text_message <$> [lit "hel"; lit ""; lit "lo"]))))
     = Some {| CurrentTurn.startTime :=
                 div64 (sub64 (session_clock 1) (session_clock 0)) 1000;
               CurrentTurn.text := lit "hello" |}
  /\ (div64 (sub64 (session_clock 1) (session_clock 0)) 1000 == 1 # 4)%Q.
Proof.
  split; [reflexivity|]. split; [reflexivity|].
  destruct (text_accumulates session_clock [lit "hel"; lit ""; lit "lo"]
              (run session_clock mounted session_open) eq_refl) as [_ H].
  destruct H as (Hct & _); [discriminate|].
  split; [exact Hct|]. vm_compute. reflexivity.
Defined.

(** X15: a session has finalized one turn; a second turn is heard to its
    end and recording is stopped.  The first turn stays in its place, and
    the transcript has two turns. *)
Lemma transcript_only_grows_witness :
  Forall (fun ev => forall outcome, ev <> Start outcome) second_turn_and_stop
  /\ length (transcript (component (run session_clock mounted session_one_turn))) = 1%nat
  /\ length (transcript (component
               (run session_clock (run session_clock mounted session_one_turn)
                    second_turn_and_stop))) = 2%nat
  /\ transcript (component (run session_clock mounted session_one_turn))
     `prefix_of` transcript (component
                   (run session_clock (run session_clock mounted session_one_turn)
                        second_turn_and_stop)).
Proof.
  assert (Forall (fun ev => forall outcome, ev <> Start outcome) second_turn_and_stop) as H.
  { repeat constructor; intros outcome Heq; discriminate Heq. }
  split; [exact H|]. split; [vm_compute; reflexivity|]. split; [vm_compute; reflexivity|].
  exact (transcript_only_grows session_clock
           (run session_clock mounted session_one_turn) second_turn_and_stop H).
Defined.

(** X21: a text arrives after the component, as mounted, is stopped. *)
Lemma late_text_after_stop_witness :
  (forall k, (session_clock k <= session_clock (S k))%Q)
  /\ lit "hi" <> []
  /\ currentTurn
       (component (handle session_clock (stopRecording session_clock AtRender mounted)
                          (Message (text_message (lit "hi")))))
     = Some {| CurrentTurn.startTime :=
                 div64 (sub64 (session_clock 0) (session_clock 1)) 1000;
               CurrentTurn.text := lit "hi" |}.
Proof.
  assert (lit "hi" <> []) as H by discriminate.
  split; [exact session_clock_mono|]. split; [exact H|].
  exact (proj1 (late_text_after_stop session_clock AtRender (lit "hi") mounted
                  session_clock_mono H)).
Defined.

End MoreLiveWitnesses.
